(** * clive_editor: a shallow embedding of the editor core

    The development follows the TypeScript sources of the editor:
    - [History]   : composables/useHistory.ts (undo / redo stacks),
    - [Slug]      : utils/markdown.ts, [slugify],
    - [Dom]       : the part of the DOM the utilities below work on,
    - [Sanitize]  : utils/sanitize.ts,
    - [TableOps]  : utils/tableOps.ts,
    - [Selection] : utils/selection.ts (table helpers),
    - [TableMd]   : utils/markdown.ts, the GFM table rules for turndown.

    JavaScript arrays are lists whose last element is the most recently
    pushed one; [number]s that only ever hold integers (lengths, indexes,
    [Date.now()]) are [Z] or [nat], a [number] that a caller passes in
    unchecked is a [JsNumber.number]; [null] / [undefined] results are
    [None]. *)

From Stdlib Require Import String Ascii ZArith Lia Bool Arith PeanoNat.
From Stdlib Require Import List Permutation.
From Stdlib Require QArith Qround.
Import ListNotations.

Set Warnings "-register-all".

(* ===================================================================== *)
(** * JavaScript array primitives used by the sources                     *)
(* ===================================================================== *)

Module JsArray.

Section Ops.
Context {A : Type}.

(** [a[a.length - 1]]: the last element, [undefined] on the empty array. *)
Fixpoint top (a : list A) : option A :=
  match a with
  | [] => None
  | [x] => Some x
  | _ :: rest => top rest
  end.

(** [a.push(x)] *)
Definition push (a : list A) (x : A) : list A := a ++ [x].

(** [a.pop()]: the removed element and the array that is left. *)
Definition pop (a : list A) : option A * list A := (top a, removelast a).

(** [a.splice(0, n)] for an integer [n]: drops the first [n] elements
    (none when [n <= 0], all of them when [n] exceeds the length). *)
Definition splice0 (n : Z) (a : list A) : list A := skipn (Z.to_nat n) a.

End Ops.

End JsArray.

(* ===================================================================== *)
(** * JavaScript numbers                                                  *)
(* ===================================================================== *)

Module JsNumber.

(** A [number]: NaN, one of the infinities, or a finite value, which is
    taken as the rational number it is. *)
Inductive number :=
| NaN
| Infinity
| NegInfinity
| Finite (q : QArith_base.Q).

Definition ofZ (z : Z) : number := Finite (QArith_base.inject_Z z).

(** An array length as a rational. *)
Definition ofLength (n : nat) : QArith_base.Q := QArith_base.inject_Z (Z.of_nat n).

(** [n > x] for an array length [n]: false when [x] is NaN. *)
Definition exceeds (n : nat) (x : number) : bool :=
  match x with
  | Finite q => negb (QArith_base.Qle_bool (ofLength n) q)
  | NegInfinity => true
  | Infinity | NaN => false
  end.

(** Truncation towards zero. *)
Definition truncate (q : QArith_base.Q) : Z :=
  if QArith_base.Qle_bool (QArith_base.inject_Z 0) q
  then Qround.Qfloor q else Qround.Qceiling q.

(** The count that [a.splice(0, n - x)] works with for an array of length
    [n]: [n - x] is turned into an integer by truncation (NaN into 0), and
    the count is kept between 0 and [n], so plus infinity counts as [n]
    and minus infinity as 0.  The difference is taken exactly. *)
Definition deleteCount (n : nat) (x : number) : Z :=
  match x with
  | Finite q => truncate (QArith_base.Qminus (ofLength n) q)
  | NegInfinity => Z.of_nat n
  | Infinity | NaN => 0
  end.

(** [k <= x] and [n <= x]: false when [x] is NaN. *)
Definition atLeast (k : Z) (x : number) : Prop :=
  match x with
  | Finite q => QArith_base.Qle (QArith_base.inject_Z k) q
  | Infinity => True
  | NegInfinity | NaN => False
  end.

Definition atMost (n : nat) (x : number) : Prop := atLeast (Z.of_nat n) x.

(** [x] is the integer [z]. *)
Definition isInteger (x : number) (z : Z) : Prop :=
  match x with
  | Finite q => QArith_base.Qeq q (QArith_base.inject_Z z)
  | _ => False
  end.

(** One and a half. *)
Definition threeHalves : number := Finite (QArith_base.Qmake 3 2).

End JsNumber.

(* ===================================================================== *)
(** * composables/useHistory.ts                                           *)
(* ===================================================================== *)

Module History.
Import JsArray.

(** [HistoryEntry] of types/index.ts. *)
Record HistoryEntry := {
  markdown : string;
  timestamp : Z;
  selectionStart : option Z;
  selectionEnd : option Z
}.

(** [UseHistoryOptions]: both fields are optional, and each is a [number]
    that [useHistory] takes as it is. *)
Record UseHistoryOptions := {
  opt_maxDepth : option JsNumber.number;
  opt_debounceMs : option JsNumber.number
}.

(** The closure state of one [useHistory] instance.  [debounceTimer] holds
    the markdown the pending timer will push when it fires. *)
Record State := {
  undoStack : list HistoryEntry;
  redoStack : list HistoryEntry;
  debounceTimer : option string
}.

(** What [useHistory] starts from: two empty arrays and no timer. *)
Definition useHistory : State :=
  {| undoStack := []; redoStack := []; debounceTimer := None |}.

Definition maxDepth (options : UseHistoryOptions) : JsNumber.number :=
  match opt_maxDepth options with Some d => d | None => JsNumber.ofZ 100 end.

Definition debounceMs (options : UseHistoryOptions) : JsNumber.number :=
  match opt_debounceMs options with Some d => d | None => JsNumber.ofZ 300 end.

Definition defaults : UseHistoryOptions :=
  {| opt_maxDepth := None; opt_debounceMs := None |}.

(** [useHistory({ maxDepth: x })], and the same for an integer [d]. *)
Definition withMaxDepth (x : JsNumber.number) : UseHistoryOptions :=
  {| opt_maxDepth := Some x; opt_debounceMs := None |}.

Definition withDepth (d : Z) : UseHistoryOptions := withMaxDepth (JsNumber.ofZ d).

Definition canUndo (s : State) : bool := 1 <? length (undoStack s).
Definition canRedo (s : State) : bool := 0 <? length (redoStack s).

Definition entry (md : string) (now : Z) : HistoryEntry :=
  {| markdown := md; timestamp := now; selectionStart := None; selectionEnd := None |}.

Section Instance.
Variable options : UseHistoryOptions.

(** [_push]; [now] is the value of [Date.now()]. *)
Definition _push (md : string) (now : Z) (s : State) : State :=
  let same :=
    match top (undoStack s) with
    | Some t => String.eqb (markdown t) md
    | None => false
    end in
  if same then s
  else
    let pushed := push (undoStack s) (entry md now) in
    let trimmed :=
      if JsNumber.exceeds (length pushed) (maxDepth options)
      then splice0 (JsNumber.deleteCount (length pushed) (maxDepth options)) pushed
      else pushed in
    {| undoStack := trimmed; redoStack := []; debounceTimer := debounceTimer s |}.

(** [pushState]: (re)arms the timer; nothing is pushed yet. *)
Definition pushState (md : string) (s : State) : State :=
  {| undoStack := undoStack s; redoStack := redoStack s; debounceTimer := Some md |}.

(** The debounce timer fires: the [setTimeout] callback runs [_push]. *)
Definition fire (now : Z) (s : State) : State :=
  match debounceTimer s with
  | Some md =>
      _push md now
        {| undoStack := undoStack s; redoStack := redoStack s; debounceTimer := None |}
  | None => s
  end.

(** [pushImmediate]: clears the timer, then [_push]. *)
Definition pushImmediate (md : string) (now : Z) (s : State) : State :=
  _push md now
    {| undoStack := undoStack s; redoStack := redoStack s; debounceTimer := None |}.

Definition undo (s : State) : option HistoryEntry * State :=
  if negb (canUndo s) then (None, s)
  else
    let '(current, rest) := pop (undoStack s) in
    let redo' := match current with
                 | Some c => push (redoStack s) c
                 | None => redoStack s
                 end in
    (top rest,
     {| undoStack := rest; redoStack := redo'; debounceTimer := debounceTimer s |}).

Definition redo (s : State) : option HistoryEntry * State :=
  if negb (canRedo s) then (None, s)
  else
    let '(e, rest) := pop (redoStack s) in
    match e with
    | Some e' =>
        (Some e',
         {| undoStack := push (undoStack s) e'; redoStack := rest;
            debounceTimer := debounceTimer s |})
    | None => (None, s)
    end.

Definition init (md : string) (now : Z) (s : State) : State :=
  {| undoStack := [entry md now]; redoStack := []; debounceTimer := debounceTimer s |}.

Definition clear (s : State) : State :=
  {| undoStack := []; redoStack := []; debounceTimer := None |}.

(** The operations a client can trigger, and the timer firing. *)
Inductive Op :=
| OInit (md : string) (now : Z)
| OPushState (md : string)
| OFire (now : Z)
| OPushImmediate (md : string) (now : Z)
| OUndo
| ORedo
| OClear.

Definition step (s : State) (o : Op) : State :=
  match o with
  | OInit md now => init md now s
  | OPushState md => pushState md s
  | OFire now => fire now s
  | OPushImmediate md now => pushImmediate md now s
  | OUndo => snd (undo s)
  | ORedo => snd (redo s)
  | OClear => clear s
  end.

Definition run (ops : list Op) (s : State) : State := fold_left step ops s.

End Instance.

(** The scenario of the history tests: [init X], [pushImmediate Y],
    [undo], [redo], observed through [canUndo] / [canRedo] and the
    returned entries. *)
Definition scenario (options : UseHistoryOptions) (X Y : string)
    (t0 t1 : Z) (s : State) : Prop :=
  let s1 := init X t0 s in
  let s2 := pushImmediate options Y t1 s1 in
  let '(u, s3) := undo s2 in
  let '(r, s4) := redo s3 in
  canUndo s1 = false /\
  canUndo s2 = true /\
  option_map markdown u = Some X /\
  canRedo s3 = true /\
  option_map markdown r = Some Y.

(** [md] differs from the markdown of the current top (or the stack is
    empty): the case in which [_push] does push. *)
Definition fresh (md : string) (s : State) : Prop :=
  match top (undoStack s) with
  | Some t => markdown t <> md
  | None => True
  end.

(** How many entries a push that makes the stack [n] long takes away. *)
Definition dropped (options : UseHistoryOptions) (n : nat) : nat :=
  if JsNumber.exceeds n (maxDepth options)
  then Z.to_nat (JsNumber.deleteCount n (maxDepth options))
  else 0.

(** The invariant behind the depth bound: what sits on the redo stack
    came off the undo stack. *)
Definition within (depth : Z) (s : State) : Prop :=
  (Z.of_nat (length (undoStack s) + length (redoStack s)) <= depth)%Z.

(** A fresh default instance after [init("a")] and [pushImmediate("b")]. *)
Definition two_states : State :=
  run defaults [OInit "a" 0; OPushImmediate "b" 1] useHistory.

(** The depth bound, over every run of operations from a fresh instance:
    [undoStack.length <= maxDepth]. *)
Definition bounded (options : UseHistoryOptions) : Prop :=
  forall ops : list Op,
    JsNumber.atMost (length (undoStack (run options ops useHistory))) (maxDepth options).

End History.

(* ===================================================================== *)
(** * JavaScript string primitives used by the sources                    *)
(* ===================================================================== *)

(** Strings are sequences of code units; the model covers the code units
    below 256 (Latin-1), one [ascii] each. *)
Module JsString.

Definition code (c : ascii) : nat := nat_of_ascii c.

Definition between (lo hi : nat) (c : ascii) : bool :=
  (lo <=? code c) && (code c <=? hi).

(** [\w]: [A-Za-z0-9_]. *)
Definition isWord (c : ascii) : bool :=
  between 65 90 c || between 97 122 c || between 48 57 c || (code c =? 95).

(** [\s], also what [trim] strips: TAB, LF, VT, FF, CR, space, NBSP. *)
Definition isSpace (c : ascii) : bool :=
  between 9 13 c || (code c =? 32) || (code c =? 160).

Definition isHyphen (c : ascii) : bool := code c =? 45.
Definition isNewline (c : ascii) : bool := code c =? 10.

(** [toLowerCase] on one code unit: A-Z, and the Latin-1 capitals
    U+00C0..U+00DE other than the multiplication sign U+00D7. *)
Definition toLowerChar (c : ascii) : ascii :=
  if between 65 90 c || (between 192 222 c && negb (code c =? 215))
  then ascii_of_nat (code c + 32)
  else c.

Fixpoint toLowerCase (s : string) : string :=
  match s with
  | EmptyString => EmptyString
  | String c s' => String (toLowerChar c) (toLowerCase s')
  end.

(** Leading / trailing code units of a class, dropped. *)
Fixpoint dropStart (p : ascii -> bool) (s : string) : string :=
  match s with
  | EmptyString => EmptyString
  | String c s' => if p c then dropStart p s' else s
  end.

Fixpoint dropEnd (p : ascii -> bool) (s : string) : string :=
  match s with
  | EmptyString => EmptyString
  | String c s' =>
      match dropEnd p s' with
      | EmptyString => if p c then EmptyString else String c EmptyString
      | r => String c r
      end
  end.

Definition trimStart : string -> string := dropStart isSpace.
Definition trimEnd : string -> string := dropEnd isSpace.

Definition trim (s : string) : string := trimEnd (trimStart s).

(** [s.replace(/[p]/g, by)]: every code unit in the class [p] is replaced. *)
Fixpoint replaceEach (p : ascii -> bool) (by_ : string) (s : string) : string :=
  match s with
  | EmptyString => EmptyString
  | String c s' =>
      if p c then by_ ++ replaceEach p by_ s'
      else String c (replaceEach p by_ s')
  end.

(** [s.replace(/[p]+/g, by)]: the matcher takes each maximal run of the
    class [p] as one match; [inRun] tells that the current match has
    already been replaced. *)
Fixpoint replaceRunsFrom (inRun : bool) (p : ascii -> bool) (by_ : string)
    (s : string) : string :=
  match s with
  | EmptyString => EmptyString
  | String c s' =>
      if p c then
        if inRun then replaceRunsFrom true p by_ s'
        else by_ ++ replaceRunsFrom true p by_ s'
      else String c (replaceRunsFrom false p by_ s')
  end.

Definition replaceRuns := replaceRunsFrom false.

(** [parts.join(sep)] *)
Fixpoint join (sep : string) (parts : list string) : string :=
  match parts with
  | [] => EmptyString
  | [x] => x
  | x :: rest => x ++ sep ++ join sep rest
  end.

(** [s.startsWith(prefix)] *)
Definition startsWith (prefix s : string) : bool := String.prefix prefix s.

(** What the properties below say about a string as a whole. *)
Fixpoint all (p : ascii -> bool) (s : string) : bool :=
  match s with
  | EmptyString => true
  | String c s' => p c && all p s'
  end.

Definition first (s : string) : option ascii :=
  match s with EmptyString => None | String c _ => Some c end.

Fixpoint last (s : string) : option ascii :=
  match s with
  | EmptyString => None
  | String c EmptyString => Some c
  | String _ s' => last s'
  end.

End JsString.

(* ===================================================================== *)
(** * utils/markdown.ts: heading slugs                                    *)
(* ===================================================================== *)

Module Slug.
Import JsString.

(** [/[^\w\s-]/]: neither a word character, nor white space, nor a hyphen. *)
Definition stripped (c : ascii) : bool :=
  negb (isWord c || isSpace c || isHyphen c).

(** [slugify] *)
Definition slugify (text : string) : string :=
  replaceRuns isHyphen "-"
    (replaceRuns isSpace "-"
       (replaceEach stripped ""
          (trim (toLowerCase text)))).

(** ** The slug as the specification words it *)

(** "delete every character that is not a word character, whitespace, or
    hyphen" *)
Fixpoint keepSlugChars (s : string) : string :=
  match s with
  | EmptyString => EmptyString
  | String c s' =>
      if isWord c || isSpace c || isHyphen c
      then String c (keepSlugChars s')
      else keepSlugChars s'
  end.

(** "replace each run with a single hyphen": a member of the class is
    dropped when another one follows it, and the last one of a run becomes
    the hyphen. *)
Fixpoint runsToHyphen (p : ascii -> bool) (s : string) : string :=
  match s with
  | EmptyString => EmptyString
  | String c s' =>
      if p c then
        match s' with
        | String c' _ => if p c' then runsToHyphen p s'
                         else String "-"%char (runsToHyphen p s')
        | EmptyString => String "-"%char EmptyString
        end
      else String c (runsToHyphen p s')
  end.

Definition slug_spec (text : string) : string :=
  runsToHyphen isHyphen
    (runsToHyphen isSpace
       (keepSlugChars (trim (toLowerCase text)))).

End Slug.

(* ===================================================================== *)
(** * The DOM the utilities work on                                       *)
(* ===================================================================== *)

(** A document is the tree under [document.body].  A node reference is the
    path from the body to the node (child indexes, outermost first); two
    references are the same node exactly when the paths are equal, and
    [parentNode] drops the last index.  Above the body there are only
    [html] and the document, which none of the walks below can match. *)
Module Dom.
Import JsString.

Inductive Namespace := HTML | SVG | MathML.

Inductive Node :=
| Text (data : string)
| Comment (data : string)
| Element (namespaceURI : Namespace) (localName : string)
          (attributes : list (string * string)) (childNodes : list Node).

Definition Path := list nat.

(** [Node.ELEMENT_NODE], [Node.COMMENT_NODE] tests on [nodeType]. *)
Definition isElement (n : Node) : bool :=
  match n with Element _ _ _ _ => true | _ => false end.

Definition isComment (n : Node) : bool :=
  match n with Comment _ => true | _ => false end.

Definition children (n : Node) : list Node :=
  match n with Element _ _ _ ch => ch | _ => [] end.

Definition attrs (n : Node) : list (string * string) :=
  match n with Element _ _ a _ => a | _ => [] end.

(** ASCII upper case, as the DOM uses it for [tagName]. *)
Definition toUpperChar (c : ascii) : ascii :=
  if between 97 122 c then ascii_of_nat (code c - 32) else c.

Fixpoint toUpperCase (s : string) : string :=
  match s with
  | EmptyString => EmptyString
  | String c s' => String (toUpperChar c) (toUpperCase s')
  end.

(** [el.tagName]: the qualified name, in upper case for an element in the
    HTML namespace and as it is for any other element. *)
Definition tagName (n : Node) : string :=
  match n with
  | Element HTML name _ _ => toUpperCase name
  | Element _ name _ _ => name
  | _ => EmptyString
  end.

(** [el.tagName === tag]; false on a node that is not an element. *)
Definition hasTag (tag : string) (n : Node) : bool :=
  isElement n && String.eqb (tagName n) tag.

Fixpoint getAttribute (name : string) (a : list (string * string)) : option string :=
  match a with
  | [] => None
  | (k, v) :: rest => if String.eqb k name then Some v else getAttribute name rest
  end.

(** [el.contentEditable === 'true']: only an element of the HTML namespace
    has the property (on any other node it is [undefined]); there it is
    ['true'] when the attribute is present with the value "true" or the
    empty string, compared without case. *)
Definition isContentEditable (n : Node) : bool :=
  match n with
  | Element HTML _ a _ =>
      match getAttribute "contenteditable" a with
      | Some v => let v' := toLowerCase v in String.eqb v' "true" || String.eqb v' ""
      | None => false
      end
  | _ => false
  end.

(** A type selector such as ['tr'] or ['th, td'] matches on the local
    name. *)
Definition matches (names : list string) (n : Node) : bool :=
  match n with
  | Element _ name _ _ => existsb (String.eqb name) names
  | _ => false
  end.

(** ** Navigation *)

Fixpoint nodeAt (n : Node) (p : Path) : option Node :=
  match p with
  | [] => Some n
  | i :: p' =>
      match nth_error (children n) i with
      | Some c => nodeAt c p'
      | None => None
      end
  end.

Definition parentPath (p : Path) : option Path :=
  match p with [] => None | _ => Some (removelast p) end.

(** The node at [p] and its ancestors, nearest first, each with its own
    path: what a loop [current = current.parentNode] visits.  [here] is the
    path of [n]. *)
Fixpoint chainFrom (n : Node) (here : Path) (p : Path)
    (above : list (Path * Node)) : list (Path * Node) :=
  match p with
  | [] => (here, n) :: above
  | i :: p' =>
      match nth_error (children n) i with
      | Some c => chainFrom c (here ++ [i]) p' ((here, n) :: above)
      | None => []
      end
  end.

Definition chain (body : Node) (p : Path) : list (Path * Node) :=
  chainFrom body [] p [].

(** An entry of a chain strictly below the node at [here], on the way
    down along [q]. *)
Definition strictlyBelow (here q : Path) (e : Path * Node) : Prop :=
  exists q' t, q' <> [] /\ q = q' ++ t /\ fst e = here ++ q'.

(** The descendants of [n] in tree order, with their paths from [n]. *)
Fixpoint descendants (n : Node) : list (Path * Node) :=
  match n with
  | Element _ _ _ ch =>
      (fix each (i : nat) (l : list Node) : list (Path * Node) :=
         match l with
         | [] => []
         | c :: l' =>
             ([i], c)
               :: map (fun d => (i :: fst d, snd d)) (descendants c)
               ++ each (S i) l'
         end) 0 ch
  | _ => []
  end.

(** The same list for a run of siblings, the first of them at index [i]. *)
Fixpoint descendantsFrom (i : nat) (l : list Node) : list (Path * Node) :=
  match l with
  | [] => []
  | c :: l' =>
      ([i], c)
        :: map (fun d => (i :: fst d, snd d)) (descendants c)
        ++ descendantsFrom (S i) l'
  end.

(** [el.querySelectorAll(names)] and [el.querySelector(names)], as paths
    from [el]. *)
Definition querySelectorAll (names : list string) (n : Node) : list Path :=
  map fst (filter (fun d => matches names (snd d)) (descendants n)).

Definition querySelector (names : list string) (n : Node) : option Path :=
  hd_error (querySelectorAll names n).

(** [node.closest(names)]: the nearest inclusive ancestor that matches. *)
Fixpoint closestIn (names : list string) (c : list (Path * Node)) : option Path :=
  match c with
  | [] => None
  | (p, n) :: up => if matches names n then Some p else closestIn names up
  end.

Definition closest (names : list string) (body : Node) (p : Path) : option Path :=
  closestIn names (chain body p).

(** [row.cells]: the [td] / [th] children of a row. *)
Definition isCell (n : Node) : bool :=
  match n with
  | Element HTML name _ _ => String.eqb name "td" || String.eqb name "th"
  | _ => false
  end.

Definition cells (row : Node) : list Node := filter isCell (children row).

(** ** Mutation *)

Fixpoint updateNth {A : Type} (i : nat) (f : A -> A) (l : list A) : list A :=
  match l, i with
  | [], _ => []
  | x :: l', O => f x :: l'
  | x :: l', S i' => x :: updateNth i' f l'
  end.

Definition setChildren (ch : list Node) (n : Node) : Node :=
  match n with
  | Element ns name a _ => Element ns name a ch
  | _ => n
  end.

(** Apply [f] to the node at [p]; nothing changes when [p] leads nowhere. *)
Fixpoint updateAt (f : Node -> Node) (p : Path) (n : Node) : Node :=
  match p with
  | [] => f n
  | i :: p' => setChildren (updateNth i (updateAt f p') (children n)) n
  end.

Fixpoint removeNth {A : Type} (i : nat) (l : list A) : list A :=
  match l, i with
  | [], _ => []
  | _ :: l', O => l'
  | x :: l', S i' => x :: removeNth i' l'
  end.

Fixpoint insertNth {A : Type} (i : nat) (x : A) (l : list A) : list A :=
  match i, l with
  | O, _ => x :: l
  | S i', y :: l' => y :: insertNth i' x l'
  | S _, [] => [x]
  end.

(** [node.remove()] for the node at [p]. *)
Definition remove (p : Path) (body : Node) : Node :=
  match p with
  | [] => body
  | _ =>
      updateAt (fun parent => setChildren (removeNth (List.last p 0) (children parent)) parent)
               (removelast p) body
  end.

(** [parent.insertBefore(x, parent.childNodes[i])] for a fresh node [x];
    with [i] at or past the end this is [parent.appendChild(x)]. *)
Definition insertChild (parent : Path) (i : nat) (x : Node) (body : Node) : Node :=
  updateAt (fun n => setChildren (insertNth i x (children n)) n) parent body.

(** [el.innerHTML = '']: every child goes. *)
Definition clearChildren (p : Path) (body : Node) : Node :=
  updateAt (setChildren []) p body.

(** [p] is [q] or an ancestor of [q]. *)
Fixpoint isPrefix (p q : Path) : bool :=
  match p, q with
  | [], _ => true
  | i :: p', j :: q' => (i =? j) && isPrefix p' q'
  | _ :: _, [] => false
  end.

(** Neither node contains the other. *)
Definition apart (p q : Path) : bool := negb (isPrefix p q) && negb (isPrefix q p).

Fixpoint pairwiseApart (l : list Path) : bool :=
  match l with
  | [] => true
  | p :: rest => forallb (apart p) rest && pairwiseApart rest
  end.


End Dom.

(** Induction on a node with the hypothesis for every child. *)
Section NodeInduction.
Import Dom.
Variable P : Node -> Prop.
Hypothesis HText : forall d, P (Text d).
Hypothesis HComment : forall d, P (Comment d).
Hypothesis HElement :
  forall ns name a ch, Forall P ch -> P (Element ns name a ch).

Fixpoint Node_rect_children (n : Node) : P n :=
  match n with
  | Text d => HText d
  | Comment d => HComment d
  | Element ns name a ch =>
      HElement ns name a ch
        ((fix all (l : list Node) : Forall P l :=
            match l with
            | [] => Forall_nil P
            | c :: l' => Forall_cons c (Node_rect_children c) (all l')
            end) ch)
  end.
End NodeInduction.

(* ===================================================================== *)
(** * utils/sanitize.ts                                                   *)
(* ===================================================================== *)

Module Sanitize.
Import JsString Dom.

(** Tags that are always removed (including their content). *)
Definition REMOVE_WITH_CONTENT : list string :=
  ["SCRIPT"; "STYLE"; "IFRAME"; "OBJECT"; "EMBED"; "APPLET";
   "FORM"; "INPUT"; "TEXTAREA"; "SELECT"; "BUTTON";
   "LINK"; "META"; "NOSCRIPT"]%string.

(** Attributes that are allowed to stay. *)
Definition ALLOWED_ATTRS : list string :=
  ["href"; "src"; "alt"; "title"; "width"; "height";
   "colspan"; "rowspan"; "class"]%string.

(** [set.has(x)] *)
Definition has (set : list string) (x : string) : bool := existsb (String.eqb x) set.

(** [el.removeAttribute(name)]: on an element in the HTML namespace the
    name is put in lower case first; the first attribute with that name
    goes. *)
Fixpoint removeFirst (name : string) (a : list (string * string)) : list (string * string) :=
  match a with
  | [] => []
  | (k, v) :: rest => if String.eqb k name then rest else (k, v) :: removeFirst name rest
  end.

Definition removeAttribute (ns : Namespace) (name : string)
    (a : list (string * string)) : list (string * string) :=
  removeFirst (match ns with HTML => toLowerCase name | _ => name end) a.

(** The URI test on [href] / [src] values. *)
Definition dangerousUri (value : string) : bool :=
  let val := toLowerCase (trim value) in
  startsWith "javascript:" val || startsWith "data:text/html" val.

(** Whether the loop body removes the attribute [attr]. *)
Definition strips (attr : string * string) : bool :=
  let name := toLowerCase (fst attr) in
  if startsWith "on" name then true
  else if String.eqb name "style" then true
  else if negb (has ALLOWED_ATTRS name) then true
  else if String.eqb name "href" || String.eqb name "src" then dangerousUri (snd attr)
  else false.

(** The attribute loop of [cleanNode]: it runs over the snapshot
    [Array.from(el.attributes)] and removes from the live attribute list. *)
Definition cleanAttributes (ns : Namespace) (a : list (string * string))
    : list (string * string) :=
  fold_left
    (fun live attr => if strips attr then removeAttribute ns (fst attr) live else live)
    a a.

(** One turn of the child loop of [cleanNode], with the recursive call:
    what is left of [child], [None] when it is removed. *)
Fixpoint cleanChild (child : Node) : option Node :=
  match child with
  | Element ns name a ch =>
      if has REMOVE_WITH_CONTENT (tagName child) then None
      else
        Some (Element ns name (cleanAttributes ns a)
                ((fix loop (l : list Node) : list Node :=
                    match l with
                    | [] => []
                    | c :: l' =>
                        match cleanChild c with
                        | Some c' => c' :: loop l'
                        | None => loop l'
                        end
                    end) ch))
  | Comment _ => None
  | Text _ => Some child
  end.

Fixpoint cleanChildren (l : list Node) : list Node :=
  match l with
  | [] => []
  | c :: l' =>
      match cleanChild c with
      | Some c' => c' :: cleanChildren l'
      | None => cleanChildren l'
      end
  end.

(** [cleanNode(node)]: the children of [node] are cleaned, [node] itself is
    left as it is. *)
Definition cleanNode (node : Node) : Node :=
  setChildren (cleanChildren (children node)) node.

Section SanitizeHtml.
(** [new DOMParser().parseFromString(dirty, 'text/html').body] and the
    [innerHTML] getter belong to the browser. *)
Variable parseBody : string -> Node.
Variable innerHTML : Node -> string.

Definition sanitizedBody (dirty : string) : Node := cleanNode (parseBody dirty).

Definition sanitizeHtml (dirty : string) : string := innerHTML (sanitizedBody dirty).
End SanitizeHtml.

(** ** What the specification asks of a sanitised tree *)

(** Every node strictly below [n] satisfies [P]. *)
Definition below (P : Node -> bool) (n : Node) : bool :=
  forallb (fun d => P (snd d)) (descendants n).

(** The element names the sanitiser is to remove with their content. *)
Definition forbiddenNames : list string :=
  ["script"; "style"; "iframe"; "object"; "embed"; "applet";
   "form"; "input"; "textarea"; "select"; "button"]%string.

Definition forbiddenElement (n : Node) : bool :=
  match n with
  | Element _ name _ _ => has forbiddenNames (toLowerCase name)
  | _ => false
  end.

Definition forbiddenHtmlElement (n : Node) : bool :=
  match n with
  | Element HTML name _ _ => has forbiddenNames name
  | _ => false
  end.

Definition safeAttribute (attr : string * string) : bool :=
  let name := toLowerCase (fst attr) in
  negb (startsWith "on" name) &&
  negb (String.eqb name "style") &&
  has ALLOWED_ATTRS name &&
  negb ((String.eqb name "href" || String.eqb name "src") && dangerousUri (snd attr)).

Definition safeAttributes (n : Node) : bool := forallb safeAttribute (attrs n).

(** What the sanitiser is to establish of every node under the body, for
    elements of the HTML namespace. *)
Definition clean (n : Node) : bool :=
  negb (forbiddenHtmlElement n) && negb (isComment n) && safeAttributes n.

(** What the HTML parser guarantees of the tree it builds: on every
    element the attribute names are pairwise distinct, and on an element in
    the HTML namespace they are in lower case. *)
Fixpoint distinct (names : list string) : bool :=
  match names with
  | [] => true
  | x :: rest => negb (existsb (String.eqb x) rest) && distinct rest
  end.

Definition parsedElement (n : Node) : bool :=
  match n with
  | Element ns name a _ =>
      distinct (map fst a) &&
      match ns with
      | HTML => forallb (fun kv => String.eqb (toLowerCase (fst kv)) (fst kv)) a
                && String.eqb (toLowerCase name) name
      | _ => true
      end
  | _ => true
  end.

Definition parsed (body : Node) : bool := parsedElement body && below parsedElement body.

(** [<svg><script>alert(1)</script></svg>] as the HTML parser builds it:
    both elements are in the SVG namespace. *)
Definition svgScriptBody : Node :=
  Element HTML "body" []
    [Element SVG "svg" [] [Element SVG "script" [] [Text "alert(1)"]]]%string.

(** [<p onclick="x()" style="color:red" class="a" href="JavaScript:x">hi</p>
    <script>x</script><!-- c -->] *)
Definition sampleBody : Node :=
  Element HTML "body" []
    [Element HTML "p"
       [("onclick", "x()"); ("style", "color:red"); ("class", "a");
        ("href", " JavaScript:x")]%string
       [Text "hi"];
     Element HTML "script" [] [Text "x"];
     Comment " c "].

End Sanitize.

(* ===================================================================== *)
(** * utils/tableOps.ts                                                   *)
(* ===================================================================== *)

Module TableOps.
Import Dom.

(** [node.parentElement?.tagName === tag] for the node at [p]. *)
Definition parentHasTag (tag : string) (body : Node) (p : Path) : bool :=
  match parentPath p with
  | Some pp =>
      match nodeAt body pp with
      | Some parent => hasTag tag parent
      | None => false
      end
  | None => false
  end.

(** An element of the HTML namespace with the given local name. *)
Definition isHtml (name : string) (n : Node) : bool :=
  match n with
  | Element HTML nm _ _ => String.eqb nm name
  | _ => false
  end.

(** [getColumnCount]: [firstRow.cells.length] for the first [tr] of the
    table, 0 when it has none.  [querySelector('tr')] also finds a [tr]
    of another namespace, which has no [cells]: reading [length] of
    [undefined] then throws a [TypeError], for which [None] stands. *)
Definition getColumnCount (table : Node) : option nat :=
  match querySelector ["tr"%string] table with
  | Some p =>
      match nodeAt table p with
      | Some firstRow =>
          if isHtml "tr" firstRow then Some (length (cells firstRow)) else None
      | None => Some 0
      end
  | None => Some 0
  end.

(** [getRowCount] *)
Definition getRowCount (table : Node) : nat :=
  length (querySelectorAll ["tr"%string] table).

(** The text a cell gets from [innerHTML = '&nbsp;']: one U+00A0. *)
Definition nbsp : string := String (ascii_of_nat 160) EmptyString.









(** [removeRow]: the result and the document afterwards. *)
Definition removeRow (cell : Path) (body : Node) : bool * Node :=
  match closest ["tr"%string] body cell with
  | None => (false, body)
  | Some row =>
      match closest ["table"%string] body cell with
      | None => (false, body)
      | Some table =>
          match nodeAt body table with
          | None => (false, body)
          | Some tableNode =>
              if parentHasTag "THEAD" body row then (false, body)
              else
                let lastBodyRow :=
                  match querySelector ["tbody"%string] tableNode with
                  | Some tb =>
                      match nodeAt tableNode tb with
                      | Some tbody => length (querySelectorAll ["tr"%string] tbody) <=? 1
                      | None => false
                      end
                  | None => false
                  end in
                if lastBodyRow then (false, body)
                else (true, remove row body)
          end
      end
  end.

(** ** The rows of a table as HTML defines them *)

(** [table.tHead.rows] and the rows of [table.tBodies]: the [tr] children
    of the [thead] / [tbody] children of the table. *)
Definition sectionRows (section : string) (table : Node) : list Node :=
  flat_map (fun sec => filter (isHtml "tr") (children sec))
           (filter (isHtml section) (children table)).

Definition headerRows : Node -> list Node := sectionRows "thead".
Definition bodyRows : Node -> list Node := sectionRows "tbody".

(** ** Sample tables *)

Definition th (s : string) : Node := Element HTML "th" [] [Text s].
Definition td (s : string) : Node := Element HTML "td" [] [Text s].
Definition tr (cs : list Node) : Node := Element HTML "tr" [] cs.
Definition thead (rows : list Node) : Node := Element HTML "thead" [] rows.
Definition tbody (rows : list Node) : Node := Element HTML "tbody" [] rows.
Definition table (sections : list Node) : Node := Element HTML "table" [] sections.
(** [document.body] holding the editable surface with its blocks. *)
Definition page (blocks : list Node) : Node :=
  Element HTML "body" []
    [Element HTML "div" [("contenteditable", "true")]%string blocks].

(** A header and two body rows. *)
Definition plainTable : Node :=
  page [table [thead [tr [th "A"; th "B"]];
               tbody [tr [td "1"; td "2"]; tr [td "3"; td "4"]]]].

(** A header and one body row. *)
Definition oneRowTable : Node :=
  page [table [thead [tr [th "A"; th "B"]];
               tbody [tr [td "1"; td "2"]]]].

(** A header of two cells over a body row of three. *)
Definition raggedTable : Node :=
  page [table [thead [tr [th "A"; th "B"]];
               tbody [tr [td "1"; td "2"; td "3"]]]].

(** A table whose only body row holds, in its first cell, a pasted table
    with a header and one body row. *)
Definition nestedTable : Node :=
  page [table [thead [tr [th "A"]];
               tbody [tr [Element HTML "td" []
                            [table [thead [tr [th "x"]];
                                    tbody [tr [td "y"]]]]]]]].



End TableOps.

(* ===================================================================== *)
(** * utils/selection.ts: the table helpers                               *)
(* ===================================================================== *)

Module Selection.
Import Dom.

(** A boundary point: a node and an offset into it. *)
Record Point := { node : Path; offset : nat }.

(** A [Range]: its start is not after its end. *)
Record Range := { rangeStart : Point; rangeEnd : Point }.

Inductive Direction := Forwards | Backwards.

(** The [Selection] object: at most one range ([rangeCount] is 0 or 1) and
    the direction in which it was made. *)
Record Sel := { range : option Range; direction : Direction }.

(** The document and what [window.getSelection()] returns. *)
Record Page := { body : Node; selection : option Sel }.

Definition startContainer (r : Range) : Path := node (rangeStart r).
Definition endContainer (r : Range) : Path := node (rangeEnd r).

Fixpoint path_eqb (p q : Path) : bool :=
  match p, q with
  | [], [] => true
  | i :: p', j :: q' => (i =? j) && path_eqb p' q'
  | _, _ => false
  end.

Definition point_eqb (a b : Point) : bool :=
  path_eqb (node a) (node b) && (offset a =? offset b).

(** [range.collapsed], which is also [sel.isCollapsed]. *)
Definition collapsed (r : Range) : bool := point_eqb (rangeStart r) (rangeEnd r).

(** [range.commonAncestorContainer]: the deepest node that contains both
    containers, i.e. the longest common prefix of the two paths. *)
Fixpoint commonPrefix (p q : Path) : Path :=
  match p, q with
  | i :: p', j :: q' => if i =? j then i :: commonPrefix p' q' else []
  | _, _ => []
  end.

Definition commonAncestorContainer (r : Range) : Path :=
  commonPrefix (startContainer r) (endContainer r).

(** [sel.anchorNode] / [sel.anchorOffset]: the end the user started from. *)
Definition anchor (s : Sel) (r : Range) : Point :=
  match direction s with
  | Forwards => rangeStart r
  | Backwards => rangeEnd r
  end.

(** [findAncestor(node, tagName)]: up to, and not including,
    [document.body]; stops behind an element with [contentEditable]. *)
Fixpoint findAncestorIn (tag : string) (c : list (Path * Node)) : option Path :=
  match c with
  | [] => None
  | (p, current) :: up =>
      match p with
      | [] => None
      | _ =>
          if hasTag tag current then Some p
          else if isElement current && isContentEditable current then None
          else findAncestorIn tag up
      end
  end.

Definition findAncestor (b : Node) (n : Path) (tagName : string) : option Path :=
  findAncestorIn (toUpperCase tagName) (chain b n).

Definition TABLE_STRUCTURAL_TAGS : list string :=
  ["TR"; "THEAD"; "TBODY"; "TFOOT"; "TABLE"]%string.

Definition isCellTag (n : Node) : bool := hasTag "TD" n || hasTag "TH" n.

(** The walk-up loop of [findClosestCell]. *)
Fixpoint closestCellIn (c : list (Path * Node)) : option Path :=
  match c with
  | [] => None
  | (p, current) :: up =>
      if isCellTag current then Some p
      else if isElement current && isContentEditable current then None
      else closestCellIn up
  end.

(** The descendants that are the last element among their siblings, for
    [:last-child]. *)
Fixpoint lastChildren (n : Node) : list (Path * Node) :=
  match n with
  | Element _ _ _ ch =>
      (fix each (i : nat) (l : list Node) : list (Path * Node) :=
         match l with
         | [] => []
         | c :: l' =>
             (if isElement c && negb (existsb isElement l') then [([i], c)] else [])
               ++ map (fun d => (i :: fst d, snd d)) (lastChildren c)
               ++ each (S i) l'
         end) 0 ch
  | _ => []
  end.

(** [el.querySelector('th:last-child, td:last-child')] *)
Definition querySelectorLastCell (n : Node) : option Path :=
  hd_error (map fst (filter (fun d => matches ["th"; "td"]%string (snd d))
                            (lastChildren n))).

(** The child that the offset addresses, resolved to a cell: the child
    itself when it is a cell, a cell of the child ([pick]) when it is a
    row. *)
Definition cellOfChild (pick : Node -> option Path) (el : Node) (p : Path) (i : nat)
    : option Path :=
  match nth_error (children el) i with
  | Some child =>
      if isCellTag child then Some (p ++ [i])
      else if hasTag "TR" child then
        match pick child with
        | Some q => Some (p ++ i :: q)
        | None => None
        end
      else None
  | None => None
  end.

(** [findClosestCell(node, offset)] *)
Definition findClosestCell (b : Node) (n : option Path) (off : option nat)
    : option Path :=
  match n with
  | None => None
  | Some p =>
      let structural :=
        match nodeAt b p, off with
        | Some el, Some o =>
            if isElement el && existsb (String.eqb (tagName el)) TABLE_STRUCTURAL_TAGS
            then
              match cellOfChild (querySelector ["th"; "td"]%string) el p o with
              | Some c => Some c
              | None =>
                  if 0 <? o then cellOfChild querySelectorLastCell el p (o - 1)
                  else None
              end
            else None
        | _, _ => None
        end in
      match structural with
      | Some c => Some c
      | None => closestCellIn (chain b p)
      end
  end.

(** [isInsideTable] *)
Fixpoint isInsideTableIn (c : list (Path * Node)) : bool :=
  match c with
  | [] => false
  | (_, current) :: up =>
      if hasTag "TABLE" current then true
      else if isElement current && isContentEditable current then false
      else isInsideTableIn up
  end.

Definition isInsideTable (b : Node) (n : Path) : bool := isInsideTableIn (chain b n).

(** [walkUpToCell] *)
Fixpoint walkUpToCellIn (c : list (Path * Node)) : option Path :=
  match c with
  | [] => None
  | (p, current) :: up =>
      if isElement current then
        if isCellTag current then Some p
        else if hasTag "TABLE" current || isContentEditable current then None
        else walkUpToCellIn up
      else walkUpToCellIn up
  end.

Definition walkUpToCell (b : Node) (n : Path) : option Path := walkUpToCellIn (chain b n).

Definition isSome {A : Type} (o : option A) : bool :=
  match o with Some _ => true | None => false end.

(** [isSelectionCrossCell] *)
Definition isSelectionCrossCell (pg : Page) : bool :=
  match selection pg with
  | None => false
  | Some sel =>
      match range sel with
      | None => false
      | Some r =>
          if collapsed r then false
          else if isSome (walkUpToCell (body pg) (commonAncestorContainer r)) then false
          else if negb (isInsideTable (body pg) (commonAncestorContainer r)) then false
          else
            let startCell := walkUpToCell (body pg) (startContainer r) in
            let endCell := walkUpToCell (body pg) (endContainer r) in
            match startCell, endCell with
            | Some a, Some b => if negb (path_eqb a b) then true else false
            | Some _, None | None, Some _ => false
            | None, None => true
            end
      end
  end.

(** The position of the boundary point [(a, oa)] relative to [(b, ob)], as
    the DOM defines it: [Lt] before, [Eq] equal, [Gt] after. *)
Fixpoint comparePaths (a b : Path) (oa ob : nat) : comparison :=
  match a, b with
  | [], [] => Nat.compare oa ob
  | [], j :: _ => if j <? oa then Gt else Lt
  | i :: _, [] => if i <? ob then Lt else Gt
  | i :: a', j :: b' =>
      match Nat.compare i j with
      | Eq => comparePaths a' b' oa ob
      | c => c
      end
  end.

Definition comparePoints (a b : Point) : comparison :=
  comparePaths (node a) (node b) (offset a) (offset b).

(** [isCellInSelection(cell, range)]: [cellRange] spans the contents of the
    cell; [START_TO_END] compares the end of [range] with the start of
    [cellRange], [END_TO_START] the start of [range] with its end. *)
Definition isCellInSelection (cell : Path) (cellNode : Node) (r : Range) : bool :=
  let cellStart := {| node := cell; offset := 0 |} in
  let cellEnd := {| node := cell; offset := length (children cellNode) |} in
  match comparePoints (rangeEnd r) cellStart, comparePoints (rangeStart r) cellEnd with
  | Gt, Lt => true
  | _, _ => false
  end.

(** A live range follows the removal of all children of [cell]: a boundary
    point in the cell or below it ends at the start of the cell. *)
Definition afterClearing (cell : Path) (pt : Point) : Point :=
  if isPrefix cell (node pt) then {| node := cell; offset := 0 |} else pt.

Definition rangeAfterClearing (cell : Path) (r : Range) : Range :=
  {| rangeStart := afterClearing cell (rangeStart r);
     rangeEnd := afterClearing cell (rangeEnd r) |}.

(** The loop over [allCells].  A cell that an earlier turn has taken out of
    the document makes [compareBoundaryPoints] throw (its range has another
    root): [threw] tells that the loop ended this way. *)
Record Cleared := { threw : bool; doc : Node; live : Range }.

Fixpoint clearSelected (allCells : list Path) (b : Node) (r : Range) : Cleared :=
  match allCells with
  | [] => {| threw := false; doc := b; live := r |}
  | cell :: rest =>
      match nodeAt b cell with
      | None => {| threw := true; doc := b; live := r |}
      | Some cellNode =>
          if isCellInSelection cell cellNode r
          then clearSelected rest (clearChildren cell b) (rangeAfterClearing cell r)
          else clearSelected rest b r
      end
  end.

Inductive Outcome :=
| Returned (pg : Page)
| Threw (pg : Page).

Definition caret (p : Path) (o : nat) : Range :=
  {| rangeStart := {| node := p; offset := o |};
     rangeEnd := {| node := p; offset := o |} |}.

(** [table.querySelectorAll('th, td')], as paths from the body. *)
Definition cellsOf (table : Path) (tableNode : Node) : list Path :=
  map (app table) (querySelectorAll ["th"; "td"]%string tableNode).

(** [handleCrossCellDelete] *)
Definition handleCrossCellDelete (pg : Page) : Outcome :=
  match selection pg with
  | None => Returned pg
  | Some sel =>
      match range sel with
      | None => Returned pg
      | Some r =>
          match findAncestor (body pg) (commonAncestorContainer r) "TABLE" with
          | None => Returned pg
          | Some table =>
              match nodeAt (body pg) table with
              | None => Returned pg
              | Some tableNode =>
                  let allCells := cellsOf table tableNode in
                  let c := clearSelected allCells (body pg) r in
                  let sel' := {| range := Some (live c); direction := direction sel |} in
                  if threw c then Threw {| body := doc c; selection := Some sel' |}
                  else
                    let a := anchor sel' (live c) in
                    let anchorCell :=
                      match findClosestCell (doc c) (Some (node a)) (Some (offset a)) with
                      | Some cell => Some cell
                      | None => hd_error allCells
                      end in
                    match anchorCell with
                    | Some cell =>
                        Returned
                          {| body := doc c;
                             selection := Some {| range := Some (caret cell 0);
                                                  direction := Forwards |} |}
                    | None => Returned {| body := doc c; selection := Some sel' |}
                    end
              end
          end
      end
  end.

(** Whether the cell at [c] intersects the range, in the document [b]. *)
Definition selected (b : Node) (r : Range) (c : Path) : bool :=
  match nodeAt b c with
  | Some n => isCellInSelection c n r
  | None => false
  end.







(** ** The decision procedure as the specification words it *)





(** ** Sample pages *)

Definition fromTo (p : Path) (o : nat) (q : Path) (o' : nat) : Range :=
  {| rangeStart := {| node := p; offset := o |};
     rangeEnd := {| node := q; offset := o' |} |}.

Definition selecting (b : Node) (r : Range) : Page :=
  {| body := b; selection := Some {| range := Some r; direction := Forwards |} |}.


(** From inside "1" to inside "4" of the plain table. *)
Definition acrossCells : Page :=
  selecting TableOps.plainTable (fromTo [0; 0; 1; 0; 0; 0] 0 [0; 0; 1; 1; 1; 0] 1).



End Selection.

(* ===================================================================== *)
(** * utils/markdown.ts: the GFM table rules                              *)
(* ===================================================================== *)

Module TableMd.
Import JsString Dom.

Definition nl : string := String (ascii_of_nat 10) EmptyString.

(** ** What turndown does with the replacements of sibling nodes *)

(** turndown's [join(output, replacement)]: the two strings meet with as
    many newlines, at most two, as the longer run of newlines at the
    joint. *)
Definition trimLeadingNewlines : string -> string := dropStart isNewline.
Definition trimTrailingNewlines : string -> string := dropEnd isNewline.

Definition join (output replacement : string) : string :=
  let s1 := trimTrailingNewlines output in
  let s2 := trimLeadingNewlines replacement in
  let nls := Nat.max (String.length output - String.length s1)
                     (String.length replacement - String.length s2) in
  (s1 ++ substring 0 nls (nl ++ nl) ++ s2)%string.

(** A row with at least one cell among its children; turndown gives such
    a node to the rule whose filter is ['tr']. *)
Definition isThTd (c : Node) : bool := hasTag "TH" c || hasTag "TD" c.

Definition isRow (n : Node) : bool :=
  hasTag "TR" n && existsb isThTd (children n).

Section Rules.
(** [td.turndown(cell.innerHTML)]: the markdown of the content of a cell. *)
Variable turndown : list Node -> string.
(** What turndown makes of a node that none of the table rules gets. *)
Variable otherReplacement : Node -> string.

(** [cellContent] *)
Definition cellContent (cell : Node) : string :=
  trim (replaceEach isNewline " " (turndown (children cell))).

(** The [tableRow] rule; [isThTd] is its filter on [el.children]. *)
Definition tableRow (el : Node) : string :=
  let cells := filter isThTd (children el) in
  let row := JsString.join "|" (map (fun c => (" " ++ cellContent c ++ " ")%string) cells) in
  ("|" ++ row ++ "|" ++ nl)%string.

(** The [tableHead] rule. *)
Definition tableHead (content : string) (el : Node) : string :=
  match querySelector ["tr"%string] el with
  | None => content
  | Some p =>
      match nodeAt el p with
      | None => content
      | Some firstRow =>
          let cells := filter isThTd (children firstRow) in
          let separator := JsString.join "|" (map (fun _ => " --- "%string) cells) in
          (content ++ "|" ++ separator ++ "|" ++ nl)%string
      end
  end.

(** The [tableBody] rule. *)
Definition tableBody (content : string) : string := content.

(** The [table] rule. *)
Definition tableRule (content : string) : string := (nl ++ nl ++ content ++ nl)%string.

(** turndown's [process]: every child is replaced by what its rule makes
    of it, and the replacements are joined. *)
Definition replacementForRow (row : Node) : string :=
  if isRow row then tableRow row else otherReplacement row.

Definition processRows (rows : list Node) : string :=
  fold_left (fun output row => join output (replacementForRow row)) rows EmptyString.

Definition replacementForSection (section : Node) : string :=
  if hasTag "THEAD" section
  then tableHead (processRows (children section)) section
  else if hasTag "TBODY" section
  then tableBody (processRows (children section))
  else otherReplacement section.

(** The replacement for a [table]. *)
Definition replacementForTable (t : Node) : string :=
  tableRule
    (fold_left (fun output section => join output (replacementForSection section))
               (children t) EmptyString).

(** ** The lines the specification describes *)

Definition separatorLine (columns : nat) : string :=
  ("|" ++ JsString.join "|" (repeat " --- "%string columns) ++ "|" ++ nl)%string.

Fixpoint concatLines (lines : list string) : string :=
  match lines with
  | [] => EmptyString
  | l :: rest => (l ++ concatLines rest)%string
  end.

End Rules.

(** What [join] looks at: a string that ends with one newline after
    something else, and a string that starts with no newline. *)
Definition endsLine (s : string) : Prop :=
  exists y d, s = (y ++ String d nl)%string /\ isNewline d = false.

Definition noLead (s : string) : Prop := trimLeadingNewlines s = s.


(** Trimmed: neither the first nor the last code unit is white space. *)
Definition trimmed (s : string) : Prop :=
  (forall c, first s = Some c -> isSpace c = false) /\
  (forall c, last s = Some c -> isSpace c = false).

(** A sample serialiser for cell content: the text of the text children. *)
Fixpoint textOf (l : list Node) : string :=
  match l with
  | [] => EmptyString
  | Text s :: rest => (s ++ textOf rest)%string
  | _ :: rest => textOf rest
  end.

End TableMd.

(* ===================================================================== *)
(** * useHistory: the timeline of a history instance                      *)
(* ===================================================================== *)

Module Timeline.
Import JsArray History.

(** The entries of both stacks in the order of the edits: the undo stack,
    oldest first, then what [redo] would bring back, nearest first. *)
Definition timeline (s : State) : list HistoryEntry :=
  undoStack s ++ rev (redoStack s).

(** Neighbours differ. *)
Fixpoint changing (l : list string) : bool :=
  match l with
  | a :: (b :: _) as rest => negb (String.eqb a b) && changing rest
  | _ => true
  end.

(** What the stacks of a fresh instance keep, whatever is done to it:
    along the timeline, neighbouring entries hold different markdown. *)
Definition steady (s : State) : Prop :=
  changing (map markdown (timeline s)) = true.

(** A burst of keystrokes: one [pushState] per markdown, then the timer
    fires once. *)
Definition burst (mds : list string) (now : Z) : list Op :=
  map OPushState mds ++ [OFire now].

End Timeline.

(* ===================================================================== *)
(** * utils/selection.ts: cell navigation, unwrapping, textarea syntax    *)
(* ===================================================================== *)

Module SelectionOps.
Import Dom Selection.

(** [allCells.indexOf(cell)]; [None] stands for -1. *)
Fixpoint indexOf (x : Path) (l : list Path) : option nat :=
  match l with
  | [] => None
  | y :: l' => if path_eqb y x then Some 0 else option_map S (indexOf x l')
  end.

Inductive Step := next | prev.

(** [getAdjacentCell(cell, direction)] *)
Definition getAdjacentCell (b : Node) (cell : Path) (direction : Step) : option Path :=
  match closest ["table"%string] b cell with
  | None => None
  | Some table =>
      match nodeAt b table with
      | None => None
      | Some tableNode =>
          let allCells := cellsOf table tableNode in
          match indexOf cell allCells with
          | None => None
          | Some idx =>
              match direction with
              | next => nth_error allCells (idx + 1)
              | prev =>
                  match idx with
                  | O => None
                  | S i => nth_error allCells i
                  end
              end
          end
      end
  end.

(** [node.textContent]: the data of a text or comment node; for an element
    the text of its descendants in tree order, comments left out. *)
Fixpoint textContent (n : Node) : string :=
  match n with
  | Text d => d
  | Comment d => d
  | Element _ _ _ ch =>
      (fix each (l : list Node) : string :=
         match l with
         | [] => EmptyString
         | c :: l' =>
             ((match c with Comment _ => EmptyString | _ => textContent c end)
                ++ each l')%string
         end) ch
  end.

(** The same for a run of siblings. *)
Fixpoint textOfChildren (l : list Node) : string :=
  match l with
  | [] => EmptyString
  | c :: l' =>
      ((match c with Comment _ => EmptyString | _ => textContent c end)
         ++ textOfChildren l')%string
  end.

(** What a node adds to the text of its parent. *)
Definition contribution (c : Node) : string :=
  match c with Comment _ => EmptyString | _ => textContent c end.

(** The loop of [unwrapNode] on the child list [ch] of the parent, with the
    wrapper at index [i] and [kids] still in it: each turn moves
    [node.firstChild] in front of the wrapper.  Returns the index of the
    wrapper and the child list when the wrapper is empty. *)
Fixpoint moveOut (kids : list Node) (i : nat) (ch : list Node) : nat * list Node :=
  match kids with
  | [] => (i, ch)
  | k :: rest => moveOut rest (S i) (insertNth i k (updateNth i (setChildren rest) ch))
  end.

(** [unwrapNode(node)] for the node at [p], which is below the body:
    [findAncestor], where the callers get the node from, never returns
    the body. *)
Definition unwrapNode (p : Path) (b : Node) : Node :=
  match parentPath p, nodeAt b p with
  | Some parent, Some node =>
      updateAt
        (fun pn =>
           let moved := moveOut (children node) (List.last p 0) (children pn) in
           setChildren (removeNth (fst moved) (snd moved)) pn)
        parent b
  | _, _ => b
  end.

(** [<blockquote><p>a</p>b</blockquote><p>c</p>] on the editable surface. *)
Definition quoted : Node :=
  TableOps.page
    [Element HTML "blockquote" [] [Element HTML "p" [] [Text "a"]; Text "b"];
     Element HTML "p" [] [Text "c"]]%string.

End SelectionOps.

Module Textarea.

(** [s.slice(a, b)] and [s.slice(a)] for indexes that are not negative. *)
Definition slice (a b : nat) (s : string) : string := substring a (b - a) s.
Definition sliceFrom (a : nat) (s : string) : string :=
  substring a (String.length s - a) s.

(** The state of an [HTMLTextAreaElement] that the code reads and writes. *)
Record Textarea := { value : string; selectionStart : nat; selectionEnd : nat }.

(** "Set the selection range": both ends are clamped to the length of the
    value, and a start behind the end moves to the end. *)
Definition setSelectionRange (start end_ : nat) (ta : Textarea) : Textarea :=
  let len := String.length (value ta) in
  let e := Nat.min end_ len in
  let s := Nat.min start len in
  {| value := value ta; selectionStart := Nat.min s e; selectionEnd := e |}.

(** The setters of [selectionStart] and [selectionEnd]. *)
Definition setSelectionStart (start : nat) (ta : Textarea) : Textarea :=
  setSelectionRange start (Nat.max (selectionEnd ta) start) ta.

Definition setSelectionEnd (end_ : nat) (ta : Textarea) : Textarea :=
  setSelectionRange (selectionStart ta) end_ ta.

Definition isCR (c : ascii) : bool := JsString.code c =? 13.

(** The value a textarea shows to scripts has its newlines normalised:
    CR LF and a lone CR become LF. *)
Fixpoint normalizeNewlines (s : string) : string :=
  match s with
  | EmptyString => EmptyString
  | String c s' =>
      if isCR c then
        String (ascii_of_nat 10)
          match s' with
          | String d s'' =>
              if JsString.isNewline d then normalizeNewlines s'' else normalizeNewlines s'
          | EmptyString => EmptyString
          end
      else String c (normalizeNewlines s')
  end.

(** The setter of [value]: a value that differs from the old one moves the
    cursor to its end. *)
Definition setValue (v : string) (ta : Textarea) : Textarea :=
  let v' := normalizeNewlines v in
  if String.eqb v' (value ta) then ta
  else {| value := v'; selectionStart := String.length v';
          selectionEnd := String.length v' |}.

(** [insertTextareaSyntax(textarea, before, after)]: the returned string
    and the textarea afterwards. *)
Definition insertTextareaSyntax (textarea : Textarea) (before after : string)
    : string * Textarea :=
  let start := selectionStart textarea in
  let end_ := selectionEnd textarea in
  let text := value textarea in
  let selected := slice start end_ text in
  let replacement := (before ++ selected ++ after)%string in
  let newValue := (slice 0 start text ++ replacement ++ sliceFrom end_ text)%string in
  let t1 := setValue newValue textarea in
  let t2 := setSelectionStart (start + String.length before) t1 in
  let t3 := setSelectionEnd (start + String.length before + String.length selected) t2 in
  (newValue, t3).

(** What the textarea has selected. *)
Definition selectedText (ta : Textarea) : string :=
  slice (selectionStart ta) (selectionEnd ta) (value ta).

Definition noCR (s : string) : bool := JsString.all (fun c => negb (isCR c)) s.

(** What a textarea guarantees of its value and its selection. *)
Definition wellFormed (ta : Textarea) : Prop :=
  noCR (value ta) = true /\
  selectionStart ta <= selectionEnd ta /\ selectionEnd ta <= String.length (value ta).

(** [insertBlock(block)] of the markdown editor: the emitted value and the
    position the cursor is sent to. *)
Definition insertBlock (ta : Textarea) (block : string) : string * nat :=
  let start := selectionStart ta in
  let text := value ta in
  let newValue := (slice 0 start text ++ block ++ sliceFrom start text)%string in
  let newPos := start + String.length block in
  (newValue, newPos).

End Textarea.

(* ===================================================================== *)
(** * utils/markdown.ts: escaping and the fenced code block rule          *)
(* ===================================================================== *)

Module Escape.
Import JsString.

Definition isAmp (c : ascii) : bool := code c =? 38.
Definition isLt (c : ascii) : bool := code c =? 60.
Definition isGt (c : ascii) : bool := code c =? 62.
Definition isQuot (c : ascii) : bool := code c =? 34.
Definition isApos (c : ascii) : bool := code c =? 39.

(** [escapeHtmlStr] of markdown.ts, which is also [escapeHtml] of
    useEditor: four global replaces, one after the other. *)
Definition escapeHtmlStr (str : string) : string :=
  replaceEach isQuot "&quot;"
    (replaceEach isGt "&gt;"
       (replaceEach isLt "&lt;"
          (replaceEach isAmp "&amp;" str))).

(** [escapeAttrStr] of markdown.ts, which is also [escapeAttr] of
    useEditor. *)
Definition escapeAttrStr (str : string) : string :=
  replaceEach isApos "&#39;" (replaceEach isQuot "&quot;" str).

(** One pass over the string that writes the entity of each of the four
    characters. *)
Definition entity (c : ascii) : string :=
  if isAmp c then "&amp;"
  else if isLt c then "&lt;"
  else if isGt c then "&gt;"
  else if isQuot c then "&quot;"
  else String c EmptyString.

Fixpoint eachEntity (s : string) : string :=
  match s with
  | EmptyString => EmptyString
  | String c s' => (entity c ++ eachEntity s')%string
  end.

Definition isMarkup (c : ascii) : bool := isLt c || isGt c || isQuot c.

End Escape.

Module CodeBlock.
Import JsString Dom.

(** ASCII whitespace, which separates the tokens of a [class] attribute:
    TAB, LF, FF, CR and space. *)
Definition isAsciiWhitespace (c : ascii) : bool :=
  (code c =? 9) || (code c =? 10) || (code c =? 12) || (code c =? 13) || (code c =? 32).

(** The tokens of an attribute value; [acc] is the token being read. *)
Fixpoint tokensFrom (acc : string) (s : string) : list string :=
  match s with
  | EmptyString => match acc with EmptyString => [] | _ => [acc] end
  | String c s' =>
      if isAsciiWhitespace c
      then match acc with
           | EmptyString => tokensFrom EmptyString s'
           | _ => acc :: tokensFrom EmptyString s'
           end
      else tokensFrom (acc ++ String c EmptyString) s'
  end.

(** [el.classList] *)
Definition classList (n : Node) : list string :=
  match getAttribute "class" (attrs n) with
  | Some v => tokensFrom EmptyString v
  | None => []
  end.

(** [el.classList.contains(name)] *)
Definition hasClass (name : string) (n : Node) : bool :=
  isElement n && existsb (String.eqb name) (classList n).

(** The longest prefix of code units in the class [p]. *)
Fixpoint takeWhile (p : ascii -> bool) (s : string) : string :=
  match s with
  | EmptyString => EmptyString
  | String c s' => if p c then String c (takeWhile p s') else EmptyString
  end.

Fixpoint skip (n : nat) (s : string) : string :=
  match n, s with
  | S n', String _ s' => skip n' s'
  | _, _ => s
  end.

(** [s.match(/language-(\S+)/)], the first group: the match starts at the
    first place where [language-] is followed by a code unit that is no
    white space, and the group takes all such code units that follow. *)
Fixpoint matchLanguage (s : string) : option string :=
  match s with
  | EmptyString => None
  | String _ s' =>
      if startsWith "language-" s
      then match takeWhile (fun c => negb (isSpace c)) (skip 9 s) with
           | EmptyString => matchLanguage s'
           | group => Some group
           end
      else matchLanguage s'
  end.

(** [code.replace(/\n$/, '')]: a newline at the very end goes. *)
Fixpoint removeFinalNewline (s : string) : string :=
  match s with
  | EmptyString => EmptyString
  | String c EmptyString => if isNewline c then EmptyString else s
  | String c s' => String c (removeFinalNewline s')
  end.

Definition orEmpty (o : option string) : string :=
  match o with Some s => s | None => EmptyString end.

Section Rule.
(** [el.querySelector('.name')]: whether the selector compares class names
    with or without case depends on the mode of the document turndown has
    parsed the HTML into. *)
Variable querySelectorClass : string -> Node -> option Path.

(** The filter of the [fencedCodeBlock] rule. *)
Definition fencedCodeBlockFilter (node : Node) : bool :=
  if negb (hasTag "PRE" node) then false
  else Selection.isSome (querySelector ["code"%string] node)
       || Selection.isSome (querySelectorClass "ce-code-lang" node).

Definition fence : string := "```".

(** The replacement of the [fencedCodeBlock] rule. *)
Definition fencedCodeBlock (el : Node) : string :=
  let codeEl :=
    match querySelector ["code"%string] el with
    | Some q => nodeAt el q
    | None => None
    end in
  let lang :=
    match codeEl with
    | Some c => orEmpty (matchLanguage (orEmpty (getAttribute "class" (attrs c))))
    | None =>
        match querySelectorClass "ce-code-lang" el with
        | Some q =>
            match nodeAt el q with
            | Some labelEl => orEmpty (getAttribute "data-lang" (attrs labelEl))
            | None => EmptyString
            end
        | None => EmptyString
        end
    end in
  let code :=
    match codeEl with
    | Some c => SelectionOps.textContent c
    | None => EmptyString
    end in
  let trimmed := removeFinalNewline code in
  (TableMd.nl ++ TableMd.nl ++ fence ++ lang ++ TableMd.nl ++ trimmed ++ TableMd.nl
   ++ fence ++ TableMd.nl ++ TableMd.nl)%string.

End Rule.

(** The [codeLangLabel] rule: its filter and its replacement. *)
Definition codeLangLabelFilter (node : Node) : bool :=
  hasTag "DIV" node && hasClass "ce-code-lang" node.

Definition codeLangLabel : string := EmptyString.

(** [<pre><div class="ce-code-lang" contenteditable="false"
    data-lang="js">js</div><code class="language-js">let x
    </code></pre>] *)
Definition jsBlock : Node :=
  Element HTML "pre" []
    [Element HTML "div"
       [("class", "ce-code-lang"); ("contenteditable", "false"); ("data-lang", "js")]
       [Text "js"];
     Element HTML "code" [("class", "language-js")]
       [Text ("let x" ++ TableMd.nl)]]%string.

End CodeBlock.

(* ===================================================================== *)
(** * utils/tableOps.ts: the column operations; the guards of             *)
(** * TableControls.vue                                                   *)
(* ===================================================================== *)

Module TableCols.
Import Dom TableOps.

(** How a call ends: it returns, or a [TypeError] is thrown on the way;
    [doc] is the document at that point. *)
Inductive Outcome (A : Type) :=
| Returned (result : A) (doc : Node)
| Threw (doc : Node).
Arguments Returned {A} result doc.
Arguments Threw {A} doc.

(** [row.cells]: only an HTML [tr] has the property ([None] stands for
    [undefined]). *)
Definition rowCells (row : Node) : option (list Node) :=
  if isHtml "tr" row then Some (cells row) else None.

(** [Array.from(row.cells).indexOf(cell)] for the child at index [i] of the
    row: the number of cells before it, -1 when the child is no cell. *)
Definition cellPosition (i : nat) (ch : list Node) : Z :=
  match nth_error ch i with
  | Some c =>
      if isCell c then Z.of_nat (length (filter isCell (firstn i ch))) else (-1)%Z
  | None => (-1)%Z
  end.

(** [getCellIndex(cell)]; [None] when the call throws, which it does when
    the parent has no [cells].  Every node of the model has a parent
    element, the one of the body being the [html] element. *)
Definition getCellIndex (cell : Path) (b : Node) : option Z :=
  match parentPath cell with
  | None => None
  | Some pp =>
      match nodeAt b pp with
      | Some row =>
          match rowCells row with
          | Some _ => Some (cellPosition (List.last cell 0) (children row))
          | None => None
          end
      | None => None
      end
  end.

(** The index among the children of the cell [cells[k]]. *)
Fixpoint cellAt (k : nat) (ch : list Node) : option nat :=
  match ch with
  | [] => None
  | c :: ch' =>
      if isCell c then
        match k with
        | O => Some 0
        | S k' => option_map S (cellAt k' ch')
        end
      else option_map S (cellAt k ch')
  end.

(** The cell a row gets from [insertColumnAt]. *)
Definition newCell (isHeader : bool) : Node :=
  Element HTML (if isHeader then "th" else "td") []
    [Text (if isHeader then "Header" else nbsp)]%string.

(** Where among the children of the row the new cell goes: behind the last
    child for [appendChild], and for [insertBefore] with a reference that
    is [undefined] ([cells[colIdx]] for a negative index). *)
Definition insertionIndex (colIdx : Z) (row : Node) : nat :=
  if (Z.of_nat (length (cells row)) <=? colIdx)%Z then length (children row)
  else if (colIdx <? 0)%Z then length (children row)
  else
    match cellAt (Z.to_nat colIdx) (children row) with
    | Some j => j
    | None => length (children row)
    end.

(** Where the node at [p] is after a child has been put in at index [k]
    under [row]. *)
Definition shiftInsert (row : Path) (k : nat) (p : Path) : Path :=
  if isPrefix row p then
    match skipn (length row) p with
    | j :: rest => if k <=? j then row ++ S j :: rest else p
    | [] => p
    end
  else p.

(** The loop of [insertColumnAt] over the snapshot [rows]; [loc] tells
    where a row of the snapshot is by now, and the row is found there (the
    branch for a path that leads nowhere is never taken).  The call
    throws at a row that has no [cells]. *)
Fixpoint insertColumnLoop (colIdx : Z) (loc : Path -> Path) (rows : list Path)
    (b : Node) : Outcome unit :=
  match rows with
  | [] => Returned tt b
  | row0 :: rest =>
      let row := loc row0 in
      match nodeAt b row with
      | None => Threw b
      | Some rowNode =>
          let isHeader := parentHasTag "THEAD" b row in
          match rowCells rowNode with
          | None => Threw b
          | Some _ =>
              let k := insertionIndex colIdx rowNode in
              insertColumnLoop colIdx (fun p => shiftInsert row k (loc p)) rest
                (insertChild row k (newCell isHeader) b)
          end
      end
  end.

(** [table.querySelectorAll('tr')], as paths from the body. *)
Definition rowsOf (table : Path) (tableNode : Node) : list Path :=
  map (app table) (querySelectorAll ["tr"%string] tableNode).

(** [insertColumnAt(table, colIdx)] *)
Definition insertColumnAt (table : Path) (colIdx : Z) (b : Node) : Outcome unit :=
  match nodeAt b table with
  | None => Returned tt b
  | Some tableNode => insertColumnLoop colIdx (fun p => p) (rowsOf table tableNode) b
  end.

(** [addColumnLeft(cell)] and [addColumnRight(cell)] *)
Definition addColumnLeft (cell : Path) (b : Node) : Outcome unit :=
  match closest ["table"%string] b cell with
  | None => Returned tt b
  | Some table =>
      match getCellIndex cell b with
      | None => Threw b
      | Some colIdx => insertColumnAt table colIdx b
      end
  end.

Definition addColumnRight (cell : Path) (b : Node) : Outcome unit :=
  match closest ["table"%string] b cell with
  | None => Returned tt b
  | Some table =>
      match getCellIndex cell b with
      | None => Threw b
      | Some colIdx => insertColumnAt table (colIdx + 1)%Z b
      end
  end.

(** Where the node at [p] is after the child at index [k] under [row] has
    been removed; [None] when it went with that child. *)
Definition shiftRemove (row : Path) (k : nat) (p : Path) : option Path :=
  if isPrefix row p then
    match skipn (length row) p with
    | j :: rest =>
        if j =? k then None
        else if k <? j then Some (row ++ (j - 1) :: rest)
        else Some p
    | [] => Some p
    end
  else Some p.

(** The loop of [removeColumn].  A row that went with a removed cell is
    still visited: what is done to it does not reach the document, but
    [row.cells] fails on it as on any row that is no HTML [tr]; [orig], the
    document at the start, tells what it is.  [cells[colIdx].remove()]
    throws for a negative index; for an index below [cells.length] the
    cell is among the children. *)
Fixpoint removeColumnLoop (orig : Node) (colIdx : Z) (loc : Path -> option Path)
    (rows : list Path) (b : Node) : Outcome bool :=
  match rows with
  | [] => Returned true b
  | row0 :: rest =>
      match loc row0 with
      | None =>
          match nodeAt orig row0 with
          | Some n =>
              if isHtml "tr" n then removeColumnLoop orig colIdx loc rest b
              else Threw b
          | None => Threw b
          end
      | Some row =>
          match nodeAt b row with
          | None => Threw b
          | Some rowNode =>
              match rowCells rowNode with
              | None => Threw b
              | Some cs =>
                  if (colIdx <? Z.of_nat (length cs))%Z then
                    if (colIdx <? 0)%Z then Threw b
                    else
                      match cellAt (Z.to_nat colIdx) (children rowNode) with
                      | Some k =>
                          removeColumnLoop orig colIdx
                            (fun p => match loc p with
                                      | Some q => shiftRemove row k q
                                      | None => None
                                      end)
                            rest (remove (row ++ [k]) b)
                      | None => Threw b
                      end
                  else removeColumnLoop orig colIdx loc rest b
              end
          end
      end
  end.

(** [removeColumn(cell)] *)
Definition removeColumn (cell : Path) (b : Node) : Outcome bool :=
  match closest ["table"%string] b cell with
  | None => Returned false b
  | Some table =>
      match nodeAt b table with
      | None => Returned false b
      | Some tableNode =>
          match getCellIndex cell b with
          | None => Threw b
          | Some colIdx =>
              match getColumnCount tableNode with
              | None => Threw b
              | Some colCount =>
                  if colCount <=? 1 then Returned false b
                  else removeColumnLoop b colIdx Some (rowsOf table tableNode) b
              end
          end
      end
  end.

(** ** TableControls.vue: what enables the two remove buttons *)

(** [canRemoveRow] *)
Definition canRemoveRow (activeCell : option Path) (b : Node) : bool :=
  match activeCell with
  | None => false
  | Some cell =>
      match closest ["table"%string] b cell with
      | None => false
      | Some table =>
          match nodeAt b table with
          | None => false
          | Some tableNode =>
              let inHeader :=
                match closest ["tr"%string] b cell with
                | Some row => parentHasTag "THEAD" b row
                | None => false
                end in
              if inHeader then false
              else
                match querySelector ["tbody"%string] tableNode with
                | Some tb =>
                    match nodeAt tableNode tb with
                    | Some tbody => 1 <? length (querySelectorAll ["tr"%string] tbody)
                    | None => false
                    end
                | None => false
                end
          end
      end
  end.

(** [canRemoveColumn]; [None] when [getColumnCount] throws. *)
Definition canRemoveColumn (activeCell : option Path) (b : Node) : option bool :=
  match activeCell with
  | None => Some false
  | Some cell =>
      match closest ["table"%string] b cell with
      | None => Some false
      | Some table =>
          match nodeAt b table with
          | None => Some false
          | Some tableNode => option_map (fun n => 1 <? n) (getColumnCount tableNode)
          end
      end
  end.

(** ** Tables whose rows hold no rows *)

(** The rows are pairwise apart, and each is an HTML [tr] of the
    document. *)
Definition plain (b : Node) (rows : list Path) : bool :=
  pairwiseApart rows &&
  forallb (fun r => match nodeAt b r with
                    | Some n => isHtml "tr" n
                    | None => false
                    end) rows.

(** The index among the cells at which [insertColumnAt] puts the new one:
    behind the last cell when the index is negative or too large. *)
Definition place (colIdx : Z) (cs : list Node) : nat :=
  if (colIdx <? 0)%Z then length cs else Z.to_nat colIdx.

Definition others (row : Node) : list Node :=
  filter (fun c => negb (isCell c)) (children row).

(** What one turn of each loop makes of the row it visits. *)
Definition insertCellInto (colIdx : Z) (isHeader : bool) (row : Node) : Node :=
  setChildren (insertNth (insertionIndex colIdx row) (newCell isHeader) (children row)) row.

Definition removeCellFrom (colIdx : Z) (row : Node) : Node :=
  match cellAt (Z.to_nat colIdx) (children row) with
  | Some k => setChildren (removeNth k (children row)) row
  | None => row
  end.

End TableCols.

(* ===================================================================== *)
(** * utils/markdown.ts: the shape of a slug                              *)
(* ===================================================================== *)

Module SlugShape.
Import JsString.

(** [a-z0-9_-] *)
Definition isSlugChar (c : ascii) : bool :=
  between 97 122 c || between 48 57 c || (code c =? 95) || isHyphen c.

(** No hyphen follows a hyphen. *)
Fixpoint noHyphenRun (s : string) : bool :=
  match s with
  | String a (String b _ as rest) => negb (isHyphen a && isHyphen b) && noHyphenRun rest
  | _ => true
  end.

Definition isUpper (c : ascii) : bool := between 65 90 c.

End SlugShape.

(* ===================================================================== *)
(** * Facts: JavaScript arrays                                            *)
(* ===================================================================== *)

Section JsArrayFacts.
Import JsArray.
Context {A : Type}.

Lemma top_push (a : list A) (x : A) : top (push a x) = Some x.
Proof.
  unfold push. induction a as [|y a IH]; [reflexivity|].
  simpl. destruct (a ++ [x]) eqn:E; [destruct a; discriminate|exact IH].
Qed.

Lemma removelast_push (a : list A) (x : A) : removelast (push a x) = a.
Proof. unfold push. apply removelast_last. Qed.

Lemma pop_push (a : list A) (x : A) : pop (push a x) = (Some x, a).
Proof. unfold pop. now rewrite top_push, removelast_push. Qed.

Lemma top_None (a : list A) : top a = None -> a = [].
Proof.
  induction a as [|y a IH]; [reflexivity|].
  simpl. destruct a; [discriminate|]. intros H. specialize (IH H). discriminate.
Qed.

(** A non-empty array is what [pop] leaves, followed by its [top]. *)
Lemma top_Some (a : list A) (x : A) : top a = Some x -> a = push (removelast a) x.
Proof.
  unfold push. induction a as [|y a IH]; [discriminate|].
  destruct a as [|z a].
  - simpl. now intros [= ->].
  - intros H. change (top (z :: a) = Some x) in H. specialize (IH H).
    change (y :: z :: a = y :: (removelast (z :: a) ++ [x])). now f_equal.
Qed.

Lemma nonempty_push (a : list A) :
  0 < length a -> exists rest x, a = push rest x.
Proof.
  intros H. destruct (top a) as [x|] eqn:E.
  - exists (removelast a), x. now apply top_Some.
  - apply top_None in E. subst. simpl in H. lia.
Qed.

Lemma length_push (a : list A) (x : A) : length (push a x) = S (length a).
Proof. unfold push. rewrite length_app. simpl. lia. Qed.

Lemma top_skipn (n : nat) (a : list A) :
  n < length a -> top (skipn n a) = top a.
Proof.
  revert a. induction n as [|n IH]; intros a H; [reflexivity|].
  destruct a as [|y a]; [simpl in H; lia|].
  simpl skipn. rewrite IH by (simpl in H; lia).
  destruct a; [simpl in H; lia|reflexivity].
Qed.

Lemma splice0_split (n : Z) (a : list A) :
  a = firstn (Z.to_nat n) a ++ splice0 n a.
Proof. unfold splice0. symmetry. apply firstn_skipn. Qed.

Lemma length_splice0 (n : Z) (a : list A) :
  length (splice0 n a) = length a - Z.to_nat n.
Proof. unfold splice0. apply length_skipn. Qed.
End JsArrayFacts.

(* ===================================================================== *)
(** * Facts: the history engine                                           *)
(* ===================================================================== *)

Section HistoryFacts.
Import JsArray History.

Lemma canUndo_false_undo (s : State) : canUndo s = false -> undo s = (None, s).
Proof. intros H. unfold undo. now rewrite H. Qed.

Lemma canRedo_false_redo (s : State) : canRedo s = false -> redo s = (None, s).
Proof. intros H. unfold redo. now rewrite H. Qed.

(** [undo] on a stack with at least two entries. *)
Lemma undo_push (s : State) (rest : list HistoryEntry) (e : HistoryEntry) :
  undoStack s = push rest e -> 0 < length rest ->
  undo s = (top rest,
            {| undoStack := rest; redoStack := push (redoStack s) e;
               debounceTimer := debounceTimer s |}).
Proof.
  intros E Hlen. unfold undo, canUndo. rewrite E, length_push.
  replace (1 <? S (length rest)) with true by (symmetry; apply Nat.ltb_lt; lia).
  simpl negb. cbv iota. now rewrite pop_push.
Qed.

Lemma redo_push (s : State) (rest : list HistoryEntry) (e : HistoryEntry) :
  redoStack s = push rest e ->
  redo s = (Some e,
            {| undoStack := push (undoStack s) e; redoStack := rest;
               debounceTimer := debounceTimer s |}).
Proof.
  intros E. unfold redo, canRedo. rewrite E, length_push.
  simpl negb. cbv iota. now rewrite pop_push.
Qed.

(** ** The count a push takes away *)

(** With [maxDepth] at least [k], a push leaves at least [k] entries of a
    stack that has them. *)
Lemma dropped_atLeast options (k : Z) (n : nat) :
  (0 <= k)%Z -> JsNumber.atLeast k (maxDepth options) ->
  dropped options n + Z.to_nat k <= n \/ dropped options n = 0.
Proof.
  intros Hk Hx. unfold dropped.
  destruct (maxDepth options) as [| | |[a b]]; try (now right); try now destruct Hx.
  cbn [JsNumber.exceeds JsNumber.atLeast] in *. unfold QArith_base.Qle in Hx. cbn in Hx.
  unfold QArith_base.Qle_bool.
  cbn [QArith_base.Qnum QArith_base.Qden JsNumber.ofLength QArith_base.inject_Z].
  destruct (Z.leb_spec (Z.of_nat n * Z.pos b) (a * 1)) as [H|H]; [now right|].
  left. cbn [negb JsNumber.deleteCount]. unfold JsNumber.truncate.
  unfold QArith_base.Qle_bool, QArith_base.Qminus, QArith_base.Qplus, QArith_base.Qopp,
    JsNumber.ofLength.
  cbn [QArith_base.Qnum QArith_base.Qden QArith_base.inject_Z].
  rewrite Pos.mul_1_l.
  destruct (Z.leb_spec (0 * Z.pos b) ((Z.of_nat n * Z.pos b + - a * 1) * 1)) as [H0|H0];
    [|lia].
  unfold Qround.Qfloor.
  assert (D : ((Z.of_nat n * Z.pos b + - a * 1) / Z.pos b <= Z.of_nat n - k)%Z).
  { apply Z.div_le_upper_bound; [lia|]. nia. }
  assert (D0 : (0 <= (Z.of_nat n * Z.pos b + - a * 1) / Z.pos b)%Z).
  { apply Z.div_pos; lia. }
  lia.
Qed.

(** With an integer [maxDepth] the count is the excess over it. *)
Lemma dropped_integer options (z : Z) (n : nat) :
  JsNumber.isInteger (maxDepth options) z ->
  dropped options n = Z.to_nat (Z.of_nat n - z).
Proof.
  intros Hx. unfold dropped.
  destruct (maxDepth options) as [| | |[a b]]; try now destruct Hx.
  cbn [JsNumber.isInteger JsNumber.exceeds] in *. unfold QArith_base.Qeq in Hx. cbn in Hx.
  unfold QArith_base.Qle_bool.
  cbn [QArith_base.Qnum QArith_base.Qden JsNumber.ofLength QArith_base.inject_Z].
  destruct (Z.leb_spec (Z.of_nat n * Z.pos b) (a * 1)) as [H|H]; cbn [negb].
  - assert (Z.of_nat n <= z)%Z by nia. lia.
  - cbn [JsNumber.deleteCount]. unfold JsNumber.truncate.
    unfold QArith_base.Qle_bool, QArith_base.Qminus, QArith_base.Qplus, QArith_base.Qopp,
      JsNumber.ofLength.
    cbn [QArith_base.Qnum QArith_base.Qden QArith_base.inject_Z].
    rewrite Pos.mul_1_l.
    destruct (Z.leb_spec (0 * Z.pos b) ((Z.of_nat n * Z.pos b + - a * 1) * 1)) as [H0|H0];
      [|lia].
    unfold Qround.Qfloor. f_equal.
    replace (Z.of_nat n * Z.pos b + - a * 1)%Z with ((Z.of_nat n - z) * Z.pos b)%Z by lia.
    apply Z.div_mul. lia.
Qed.

Lemma atMost_integer (x : JsNumber.number) (z : Z) (n : nat) :
  JsNumber.isInteger x z -> (Z.of_nat n <= z)%Z -> JsNumber.atMost n x.
Proof.
  intros Hx Hn. destruct x as [| | |[a b]]; try now destruct Hx.
  unfold JsNumber.atMost. cbn [JsNumber.isInteger JsNumber.atLeast] in *.
  unfold QArith_base.Qeq in Hx. unfold QArith_base.Qle. cbn in *. nia.
Qed.

Lemma _push_fresh options md now s :
  fresh md s ->
  let pushed := push (undoStack s) (entry md now) in
  _push options md now s =
    {| undoStack := skipn (dropped options (length pushed)) pushed;
       redoStack := []; debounceTimer := debounceTimer s |}.
Proof.
  unfold fresh, _push, dropped, splice0. intros Hf.
  destruct (top (undoStack s)) as [t|].
  - apply String.eqb_neq in Hf. rewrite Hf. cbv zeta.
    now destruct (JsNumber.exceeds _ (maxDepth options)).
  - cbv zeta. now destruct (JsNumber.exceeds _ (maxDepth options)).
Qed.

Lemma _push_cases options md now s :
  _push options md now s = s \/ fresh md s.
Proof.
  unfold fresh, _push.
  destruct (top (undoStack s)) as [t|]; [|now right].
  destruct (String.eqb_spec (markdown t) md); [now left|now right].
Qed.

Lemma _push_within options (z : Z) md now s :
  JsNumber.isInteger (maxDepth options) z -> (0 <= z)%Z ->
  within z s -> within z (_push options md now s).
Proof.
  intros Hi Hd Hs. destruct (_push_cases options md now s) as [->|Hf]; [exact Hs|].
  rewrite (_push_fresh options md now s Hf). unfold within in *.
  cbn [undoStack redoStack].
  rewrite length_skipn, length_push, (dropped_integer options z _ Hi). simpl length. lia.
Qed.

Lemma step_within options (z : Z) s o :
  JsNumber.isInteger (maxDepth options) z -> (1 <= z)%Z ->
  within z s -> within z (step options s o).
Proof.
  intros Hi Hd Hs. destruct o as [md now|md|now|md now| | |]; cbn [step].
  - unfold within, init. simpl. lia.
  - exact Hs.
  - unfold fire. destruct (debounceTimer s); [|exact Hs].
    apply _push_within; [exact Hi|lia|exact Hs].
  - unfold pushImmediate. apply _push_within; [exact Hi|lia|exact Hs].
  - destruct (canUndo s) eqn:E.
    + unfold canUndo in E. apply Nat.ltb_lt in E.
      destruct (@nonempty_push _ (undoStack s)) as (rest & e & Hr); [lia|].
      rewrite Hr, length_push in E.
      rewrite (undo_push s rest e Hr) by lia. cbn [snd].
      unfold within in *. cbn [undoStack redoStack].
      rewrite Hr in Hs. rewrite !length_push in *. lia.
    + now rewrite canUndo_false_undo.
  - destruct (canRedo s) eqn:E.
    + unfold canRedo in E. apply Nat.ltb_lt in E.
      destruct (@nonempty_push _ (redoStack s)) as (rest & e & Hr); [lia|].
      rewrite (redo_push s rest e Hr). cbn [snd].
      unfold within in *. cbn [undoStack redoStack].
      rewrite Hr in Hs. rewrite !length_push in *. lia.
    + now rewrite canRedo_false_redo.
  - unfold within, clear. simpl. lia.
Qed.

Lemma run_within options (z : Z) ops s :
  JsNumber.isInteger (maxDepth options) z -> (1 <= z)%Z ->
  within z s -> within z (run options ops s).
Proof.
  intros Hi Hd. revert s. unfold run.
  induction ops as [|o ops IH]; intros s Hs; [exact Hs|].
  simpl. apply IH. now apply step_within.
Qed.
End HistoryFacts.

(** C3, as stated, fails on an instance configured with [maxDepth = 1]:
    the push of the second state trims the first one away, so nothing can
    be undone. *)
Lemma scenario_fails_at_depth_one :
  ~ History.scenario (History.withDepth 1) "a" "b" 0 1 History.useHistory.
Proof.
  unfold History.scenario. vm_compute. intros (_ & H & _). discriminate H.
Qed.

(** C3 (amended): on an instance whose [maxDepth] is at least 2 (the default
    is 100), for distinct markdown strings [X] and [Y]: after [init X],
    [canUndo] is false; after [pushImmediate Y], [canUndo] is true and
    [undo] returns an entry with markdown [X]; then [canRedo] is true and
    [redo] returns an entry with markdown [Y].  On every instance [undo]
    returns null when [canUndo] is false and [redo] returns null when
    [canRedo] is false, and neither changes the state then. *)
Theorem history_scenario (options : History.UseHistoryOptions)
    (X Y : string) (t0 t1 : Z) (s : History.State) :
  JsNumber.atLeast 2 (History.maxDepth options) ->
  X <> Y ->
  History.scenario options X Y t0 t1 s /\
  (forall s', History.canUndo s' = false -> History.undo s' = (None, s')) /\
  (forall s', History.canRedo s' = false -> History.redo s' = (None, s')).
Proof.
  intros Hd Hne. split; [|split; [exact canUndo_false_undo|exact canRedo_false_redo]].
  unfold History.scenario, History.pushImmediate.
  set (s1 := History.init X t0 s).
  assert (Hf : History.fresh Y {| History.undoStack := History.undoStack s1;
                          History.redoStack := History.redoStack s1;
                          History.debounceTimer := None |}) by (simpl; exact Hne).
  rewrite (_push_fresh options Y t1 _ Hf). cbn [History.undoStack History.debounceTimer s1 History.init].
  unfold JsArray.push. simpl List.length.
  replace (History.dropped options 2) with 0
    by (destruct (dropped_atLeast options 2 2 ltac:(lia) Hd); lia).
  simpl. repeat split; reflexivity.
Qed.

Lemma history_scenario_witness :
  History.scenario History.defaults "a" "b" 0 1 History.useHistory.
Proof.
  apply (history_scenario History.defaults "a" "b" 0 1 History.useHistory).
  - vm_compute. discriminate.
  - discriminate.
Defined.

(** C4, as stated, fails on an instance configured with [maxDepth = 0]:
    [init] always leaves one entry on the undo stack. *)
Lemma bound_fails_at_depth_zero : ~ History.bounded (History.withDepth 0).
Proof.
  intros H. specialize (H [History.OInit "a" 0]). vm_compute in H. apply H. reflexivity.
Qed.

(** The bound also fails at a depth that is no integer: with
    [maxDepth = 1.5] the second push finds [2 > 1.5] and calls
    [splice(0, 0.5)], which removes nothing, so two entries stay. *)
Lemma bound_fails_at_depth_one_and_a_half :
  length (History.undoStack
            (History.run (History.withMaxDepth JsNumber.threeHalves)
               [History.OInit "a" 0; History.OPushImmediate "b" 1] History.useHistory))
  = 2 /\
  ~ History.bounded (History.withMaxDepth JsNumber.threeHalves).
Proof.
  split; [reflexivity|].
  intros H. specialize (H [History.OInit "a" 0; History.OPushImmediate "b" 1]).
  vm_compute in H. apply H. reflexivity.
Qed.

(** C4 (amended): on an instance whose [maxDepth] is an integer that is at
    least 1, after every run of history operations (init, pushState, the
    timer firing, pushImmediate, undo, redo, clear) the undo stack holds at
    most [maxDepth] entries; and a push that is not a duplicate of the top
    keeps a suffix of the extended stack: the entries dropped are its
    [length - maxDepth] oldest ones, and the entry just pushed is the new
    top. *)
Theorem history_depth_bound (options : History.UseHistoryOptions) (depth : Z) :
  JsNumber.isInteger (History.maxDepth options) depth ->
  (1 <= depth)%Z ->
  History.bounded options /\
  (forall ops,
     (Z.of_nat (length (History.undoStack (History.run options ops History.useHistory)))
      <= depth)%Z) /\
  (forall md now s,
     History.fresh md s ->
     let pushed := JsArray.push (History.undoStack s) (History.entry md now) in
     let s' := History._push options md now s in
     exists dropped,
       pushed = dropped ++ History.undoStack s' /\
       length dropped = Z.to_nat (Z.of_nat (length pushed) - depth) /\
       JsArray.top (History.undoStack s') = Some (History.entry md now)).
Proof.
  intros Hi Hd.
  assert (Hb : forall ops,
             (Z.of_nat (length (History.undoStack
                                  (History.run options ops History.useHistory)))
              <= depth)%Z).
  { intros ops.
    assert (H : History.within depth (History.run options ops History.useHistory)).
    { apply (run_within options depth); [exact Hi|exact Hd|].
      unfold History.within. simpl. lia. }
    unfold History.within in H. lia. }
  split; [|split; [exact Hb|]].
  - intros ops. apply (atMost_integer _ depth); [exact Hi|apply Hb].
  - intros md now s Hf pushed s'. subst s'.
    rewrite (_push_fresh options md now s Hf). cbn [History.undoStack]. fold pushed.
    rewrite (dropped_integer options depth _ Hi).
    exists (firstn (Z.to_nat (Z.of_nat (length pushed) - depth)) pushed).
    assert (Hlen : length pushed = S (length (History.undoStack s)))
      by (unfold pushed; apply length_push).
    split; [symmetry; apply firstn_skipn|]. split.
    + rewrite length_firstn. lia.
    + rewrite top_skipn by lia.
      unfold pushed. apply top_push.
Qed.

Lemma history_depth_bound_witness : History.bounded History.defaults.
Proof.
  apply (history_depth_bound History.defaults 100).
  - vm_compute. reflexivity.
  - lia.
Defined.

(** C9: whenever [canUndo] holds, [undo] followed by [redo] gives back the
    state before the [undo]; [undo] moves the top entry [e] of the undo
    stack, unchanged, onto the redo stack, [redo] moves it back and returns
    it, and the entries of the two stacks taken together stay the same
    multiset throughout. *)
Theorem undo_redo_restores (s : History.State) :
  History.canUndo s = true ->
  let '(u, s1) := History.undo s in
  let '(r, s2) := History.redo s1 in
  s2 = s /\
  exists e,
    History.undoStack s = JsArray.push (History.undoStack s1) e /\
    History.redoStack s1 = JsArray.push (History.redoStack s) e /\
    r = Some e /\
    Permutation (History.undoStack s ++ History.redoStack s)
                (History.undoStack s1 ++ History.redoStack s1) /\
    Permutation (History.undoStack s1 ++ History.redoStack s1)
                (History.undoStack s2 ++ History.redoStack s2).
Proof.
  intros Hc. unfold History.canUndo in Hc. apply Nat.ltb_lt in Hc.
  destruct (@nonempty_push _ (History.undoStack s)) as (rest & e & Hr); [lia|].
  assert (Hrest : 0 < length rest) by (rewrite Hr, length_push in Hc; lia).
  rewrite (undo_push s rest e Hr Hrest).
  rewrite (redo_push {| History.undoStack := rest;
                        History.redoStack := JsArray.push (History.redoStack s) e;
                        History.debounceTimer := History.debounceTimer s |}
             (History.redoStack s) e eq_refl).
  cbn [History.undoStack History.redoStack History.debounceTimer].
  split; [destruct s; simpl in *; now subst|].
  exists e. rewrite Hr. unfold JsArray.push.
  repeat split; try reflexivity.
  - rewrite <- !app_assoc. apply Permutation_app_head. apply Permutation_app_comm.
  - rewrite <- !app_assoc. apply Permutation_app_head. apply Permutation_app_comm.
Qed.

Lemma undo_redo_restores_witness :
  History.canUndo History.two_states = true /\
  let '(u, s1) := History.undo History.two_states in
  let '(r, s2) := History.redo s1 in
  s2 = History.two_states /\ r = Some (History.entry "b" 1).
Proof.
  split; [reflexivity|].
  pose proof (undo_redo_restores History.two_states eq_refl) as H.
  destruct (History.undo History.two_states) as [u s1] eqn:E1.
  destruct (History.redo s1) as [r s2] eqn:E2.
  destruct H as (H2 & e & _ & Hs1 & Hr & _).
  split; [exact H2|].
  injection E1 as _ E1. subst s1. rewrite Hr. f_equal.
  vm_compute in Hs1. now injection Hs1.
Defined.

(* ===================================================================== *)
(** * Facts: strings and heading slugs                                    *)
(* ===================================================================== *)

Section SlugFacts.
Import JsString Slug.

Lemma replaceEach_stripped (s : string) :
  replaceEach stripped "" s = keepSlugChars s.
Proof.
  induction s as [|c s IH]; [reflexivity|].
  simpl. unfold stripped at 1.
  destruct (isWord c || isSpace c || isHyphen c); simpl; now rewrite IH.
Qed.

(** Inside a run the matcher emits nothing more until the run ends. *)
Lemma replaceRunsFrom_true (p : ascii -> bool) (s : string) :
  replaceRunsFrom true p "-" s =
  match s with
  | String c _ => if p c then match runsToHyphen p s with
                              | String _ r => r
                              | EmptyString => EmptyString
                              end
                  else runsToHyphen p s
  | EmptyString => EmptyString
  end
with replaceRunsFrom_false (p : ascii -> bool) (s : string) :
  replaceRunsFrom false p "-" s = runsToHyphen p s.
Proof.
  - destruct s as [|c s]; [reflexivity|].
    simpl. destruct (p c) eqn:Ec.
    + rewrite (replaceRunsFrom_true p s).
      destruct s as [|c' s]; [reflexivity|].
      destruct (p c'); reflexivity.
    + now rewrite (replaceRunsFrom_false p s).
  - destruct s as [|c s]; [reflexivity|].
    simpl. destruct (p c) eqn:Ec.
    + rewrite (replaceRunsFrom_true p s).
      destruct s as [|c' s]; [reflexivity|].
      destruct (p c') eqn:Ec'.
      * (* the run goes on: the hyphen is the one the rest produces *)
        clear replaceRunsFrom_true replaceRunsFrom_false.
        revert c' Ec'. induction s as [|d s IHs]; intros c' Ec'.
        -- simpl. now rewrite Ec'.
        -- simpl. rewrite Ec'. destruct (p d) eqn:Ed.
           ++ specialize (IHs d Ed). simpl in IHs. rewrite Ed in IHs. exact IHs.
           ++ reflexivity.
      * reflexivity.
    + now rewrite (replaceRunsFrom_false p s).
Qed.

End SlugFacts.

(** C6: [slugify] is a function of the heading text that equals the slug
    as the specification words it (lowercase, trim, delete what is not a
    word character, white space or hyphen, turn each white-space run into
    one hyphen, collapse hyphen runs); equal texts give equal slugs, and the
    two documented examples evaluate as documented. *)
Theorem slugify_spec :
  (forall text, Slug.slugify text = Slug.slug_spec text) /\
  (forall a b, a = b -> Slug.slugify a = Slug.slugify b) /\
  Slug.slugify "Hello, World!" = "hello-world"%string /\
  Slug.slugify "  multiple   spaces " = "multiple-spaces"%string.
Proof.
  split; [|split; [|split]].
  - intros text. unfold Slug.slugify, Slug.slug_spec, JsString.replaceRuns.
    now rewrite replaceEach_stripped, !replaceRunsFrom_false.
  - intros a b ->. reflexivity.
  - vm_compute. reflexivity.
  - vm_compute. reflexivity.
Qed.

(* ===================================================================== *)
(** * Facts: navigation and mutation of the DOM model                     *)
(* ===================================================================== *)

Section DomTreeFacts.
Import Dom.

Lemma nodeAt_app (n : Node) (p q : Path) :
  nodeAt n (p ++ q) =
  match nodeAt n p with Some m => nodeAt m q | None => None end.
Proof.
  revert n. induction p as [|i p IH]; intros n; [reflexivity|].
  cbn [app nodeAt]. destruct (nth_error (children n) i); [apply IH|reflexivity].
Qed.

Lemma nodeAt_snoc (n m : Node) (p : Path) (i : nat) :
  nodeAt n p = Some m -> nodeAt n (p ++ [i]) = nth_error (children m) i.
Proof.
  intros H. rewrite nodeAt_app, H. cbn [nodeAt].
  now destruct (nth_error (children m) i).
Qed.

Lemma has_child_isElement (n c : Node) (i : nat) :
  nth_error (children n) i = Some c -> isElement n = true.
Proof. destruct n; [destruct i; discriminate..|reflexivity]. Qed.

Lemma children_setChildren (ch : list Node) (n : Node) :
  isElement n = true -> children (setChildren ch n) = ch.
Proof. destruct n; [discriminate..|reflexivity]. Qed.

Lemma nth_error_updateNth {A : Type} (f : A -> A) (l : list A) (i j : nat) :
  nth_error (updateNth i f l) j =
  if i =? j then option_map f (nth_error l j) else nth_error l j.
Proof.
  revert i j. induction l as [|x l IH]; intros i j.
  - destruct i, j; cbn [updateNth nth_error option_map]; try reflexivity.
    now destruct (S i =? S j).
  - destruct i as [|i], j as [|j]; cbn [updateNth nth_error Nat.eqb option_map];
      try reflexivity.
    apply IH.
Qed.

Lemma length_updateNth {A : Type} (f : A -> A) (l : list A) (i : nat) :
  length (updateNth i f l) = length l.
Proof.
  revert i. induction l as [|x l IH]; intros [|i]; cbn [updateNth length];
    try reflexivity. now rewrite IH.
Qed.

(** The node at [p] after an update at [p], and what lies below it. *)
Lemma nodeAt_updateAt (f : Node -> Node) (n m : Node) (p q : Path) :
  nodeAt n p = Some m ->
  nodeAt (updateAt f p n) (p ++ q) = nodeAt (f m) q.
Proof.
  revert n. induction p as [|i p IH]; intros n H.
  - cbn in H. injection H as ->. reflexivity.
  - cbn [nodeAt] in H. destruct (nth_error (children n) i) as [c|] eqn:E;
      [|discriminate H].
    cbn [app updateAt nodeAt].
    rewrite children_setChildren by (now apply has_child_isElement in E).
    rewrite nth_error_updateNth, Nat.eqb_refl, E. cbn [option_map].
    now apply IH.
Qed.

Lemma nodeAt_updateAt_here (f : Node -> Node) (n m : Node) (p : Path) :
  nodeAt n p = Some m -> nodeAt (updateAt f p n) p = Some (f m).
Proof.
  intros H. rewrite <- (app_nil_r p) at 2.
  now rewrite (nodeAt_updateAt f n m p [] H).
Qed.

(** A path that leaves the updated one at some index sees no change. *)
Lemma nodeAt_updateAt_off (f : Node -> Node) (n : Node) (c p q : Path) (i j : nat) :
  i <> j ->
  nodeAt (updateAt f (c ++ i :: p) n) (c ++ j :: q) = nodeAt n (c ++ j :: q).
Proof.
  intros Hij. revert n. induction c as [|k c IH]; intros n.
  - cbn [app updateAt nodeAt].
    destruct n as [d|d|ns name a ch]; try reflexivity.
    cbn [children setChildren]. rewrite nth_error_updateNth.
    now destruct (Nat.eqb_spec i j).
  - cbn [app updateAt nodeAt].
    destruct n as [d|d|ns name a ch]; try reflexivity.
    cbn [children setChildren]. rewrite nth_error_updateNth, Nat.eqb_refl.
    destruct (nth_error ch k) as [ck|]; [|reflexivity].
    cbn [option_map]. apply IH.
Qed.

Lemma nth_error_insertNth {A : Type} (x : A) (l : list A) (i : nat) :
  nth_error (insertNth i x l) (Nat.min i (length l)) = Some x.
Proof.
  revert l. induction i as [|i IH]; intros l; [reflexivity|].
  destruct l as [|y l]; [reflexivity|]. cbn [insertNth length Nat.min nth_error].
  apply IH.
Qed.

Lemma length_insertNth {A : Type} (x : A) (l : list A) (i : nat) :
  length (insertNth i x l) = S (length l).
Proof.
  revert l. induction i as [|i IH]; intros l; [reflexivity|].
  destruct l as [|y l]; [reflexivity|]. cbn [insertNth length]. now rewrite IH.
Qed.

Lemma length_removeNth {A : Type} (l : list A) (i : nat) :
  i < length l -> S (length (removeNth i l)) = length l.
Proof.
  revert i. induction l as [|x l IH]; intros i H; [simpl in H; lia|].
  destruct i as [|i]; [reflexivity|]. cbn [removeNth length].
  rewrite IH; [reflexivity|simpl in H; lia].
Qed.


(** Every entry of a chain is a node of the document at its path. *)
Lemma chainFrom_sound (body n : Node) (here p : Path) (above : list (Path * Node)) :
  nodeAt body here = Some n ->
  (forall e, In e above -> nodeAt body (fst e) = Some (snd e)) ->
  forall e, In e (chainFrom n here p above) -> nodeAt body (fst e) = Some (snd e).
Proof.
  revert n here above. induction p as [|i p IH]; intros n here above Hn Ha e He.
  - cbn [chainFrom] in He. destruct He as [<-|He]; [exact Hn|now apply Ha].
  - cbn [chainFrom] in He.
    destruct (nth_error (children n) i) as [c|] eqn:E; [|destruct He].
    apply (IH c (here ++ [i]) ((here, n) :: above)); try assumption.
    + now rewrite (nodeAt_snoc body n here i Hn).
    + intros e' [<-|He']; [exact Hn|now apply Ha].
Qed.

Lemma chain_sound (body : Node) (p : Path) (e : Path * Node) :
  In e (chain body p) -> nodeAt body (fst e) = Some (snd e).
Proof.
  apply (chainFrom_sound body body [] p []); [reflexivity|intros ? []].
Qed.




(** Every descendant is found at its path. *)
Lemma descendants_sound (n : Node) :
  forall p m, In (p, m) (descendants n) -> nodeAt n p = Some m.
Proof.
  induction n as [d|d|ns name a ch IH] using Node_rect_children;
    intros p m H; try destruct H.
  cbn [descendants] in H.
  assert (G : forall l i, Forall (fun c => forall p m, In (p, m) (descendants c) ->
                                     nodeAt c p = Some m) l ->
            In (p, m)
              ((fix each (i : nat) (l : list Node) : list (Path * Node) :=
                  match l with
                  | [] => []
                  | c :: l' =>
                      ([i], c)
                        :: map (fun d => (i :: fst d, snd d)) (descendants c)
                        ++ each (S i) l'
                  end) i l) ->
            exists j c q, p = (i + j) :: q /\ nth_error l j = Some c /\
                          nodeAt c q = Some m).
  { clear. induction l as [|c l IHl]; intros i HF Hin; [destruct Hin|].
    inversion HF as [|? ? Hc Hl]; subst.
    destruct Hin as [Hin|Hin].
    - injection Hin as <- <-. exists 0, c, []. rewrite Nat.add_0_r. now repeat split.
    - apply in_app_or in Hin as [Hin|Hin].
      + apply in_map_iff in Hin as ([q m'] & Heq & Hin). cbn [fst snd] in Heq.
        injection Heq as <- <-. exists 0, c, q. rewrite Nat.add_0_r.
        repeat split. now apply Hc.
      + destruct (IHl (S i) Hl Hin) as (j & c' & q & -> & Hn & Hq).
        exists (S j), c', q. repeat split; [f_equal; lia|exact Hn|exact Hq]. }
  destruct (G ch 0 IH H) as (j & c & q & -> & Hn & Hq).
  cbn [Nat.add nodeAt children]. now rewrite Hn.
Qed.

Lemma querySelectorAll_sound (names : list string) (n : Node) (p : Path) :
  In p (querySelectorAll names n) ->
  exists m, nodeAt n p = Some m /\ matches names m = true.
Proof.
  unfold querySelectorAll. intros H.
  apply in_map_iff in H as ([q m] & <- & Hin).
  apply filter_In in Hin as [Hin Hm]. exists m. split; [|exact Hm].
  now apply descendants_sound.
Qed.

Lemma querySelector_sound (names : list string) (n : Node) (p : Path) :
  querySelector names n = Some p ->
  exists m, nodeAt n p = Some m /\ matches names m = true.
Proof.
  unfold querySelector. intros H. apply querySelectorAll_sound.
  destruct (querySelectorAll names n); [discriminate H|].
  injection H as ->. now left.
Qed.

End DomTreeFacts.

(* ===================================================================== *)
(** * Facts: the DOM model                                                *)
(* ===================================================================== *)

Section DomFacts.
Import Dom.

Lemma forallb_map_fst {A B C : Type} (f : A -> C) (g : B -> C -> bool) (P : A -> bool)
    (h : A -> B) (l : list A) :
  (forall x, g (h x) (f x) = P x) ->
  forallb (fun d => g (fst d) (snd d)) (map (fun x => (h x, f x)) l) = forallb P l.
Proof.
  intros H. induction l as [|x l IH]; [reflexivity|].
  cbn [map forallb fst snd]. now rewrite H, IH.
Qed.

(** The descendants of an element are its children, each followed by its
    own descendants. *)
Lemma forallb_descendants (P : Node -> bool) ns name a ch :
  forallb (fun d => P (snd d)) (descendants (Element ns name a ch)) =
  forallb (fun c => P c && forallb (fun d => P (snd d)) (descendants c)) ch.
Proof.
  cbn [descendants]. generalize 0 as i.
  induction ch as [|c ch IH]; intros i; [reflexivity|].
  cbn [forallb snd]. rewrite forallb_app, IH.
  rewrite (forallb_map_fst (fun d => snd d) (fun _ n => P n) (fun d => P (snd d)))
    by reflexivity.
  now rewrite andb_assoc.
Qed.

End DomFacts.

(* ===================================================================== *)
(** * Facts: the sanitiser                                                *)
(* ===================================================================== *)

Section SanitizeFacts.
Import JsString Dom Sanitize.

Lemma below_element (P : Node -> bool) ns name a ch :
  below P (Element ns name a ch) = forallb (fun c => P c && below P c) ch.
Proof. unfold below. apply forallb_descendants. Qed.

Lemma cleanChild_element ns name a ch :
  cleanChild (Element ns name a ch) =
  if has REMOVE_WITH_CONTENT (tagName (Element ns name a ch)) then None
  else Some (Element ns name (cleanAttributes ns a) (cleanChildren ch)).
Proof. reflexivity. Qed.

Lemma safe_not_strips (attr : string * string) :
  safeAttribute attr = negb (strips attr).
Proof.
  unfold safeAttribute, strips. cbv zeta.
  destruct (startsWith "on" (toLowerCase (fst attr))); [reflexivity|].
  destruct (String.eqb (toLowerCase (fst attr)) "style"); [reflexivity|].
  destruct (has ALLOWED_ATTRS (toLowerCase (fst attr))); [|reflexivity].
  cbn [negb andb].
  destruct (String.eqb (toLowerCase (fst attr)) "href" ||
            String.eqb (toLowerCase (fst attr)) "src"); reflexivity.
Qed.

Lemma removeFirst_absent name (a : list (string * string)) :
  existsb (String.eqb name) (map fst a) = false -> removeFirst name a = a.
Proof.
  induction a as [|[k v] a IH]; [reflexivity|].
  cbn [map fst existsb removeFirst]. intros H.
  apply orb_false_elim in H as [Hk Ha].
  rewrite String.eqb_sym in Hk. rewrite Hk. now rewrite IH.
Qed.

Lemma removeFirst_app name (a b : list (string * string)) :
  existsb (String.eqb name) (map fst a) = false ->
  removeFirst name (a ++ b) = a ++ removeFirst name b.
Proof.
  induction a as [|[k v] a IH]; [reflexivity|].
  cbn [map fst existsb app removeFirst]. intros H.
  apply orb_false_elim in H as [Hk Ha].
  rewrite String.eqb_sym in Hk. rewrite Hk. now rewrite IH.
Qed.

Lemma distinct_app_absent (a : list string) x b :
  distinct (a ++ x :: b) = true -> existsb (String.eqb x) a = false.
Proof.
  induction a as [|y a IH]; [reflexivity|].
  cbn [app distinct existsb]. intros H.
  apply andb_true_iff in H as [Hy Hd].
  rewrite (IH Hd), orb_false_r.
  apply negb_true_iff in Hy. rewrite existsb_app in Hy.
  apply orb_false_elim in Hy as [_ Hy]. cbn [existsb] in Hy.
  apply orb_false_elim in Hy as [Hy _]. now rewrite String.eqb_sym.
Qed.

Lemma existsb_filter_absent (keep : string * string -> bool) x a :
  existsb (String.eqb x) (map fst a) = false ->
  existsb (String.eqb x) (map fst (filter keep a)) = false.
Proof.
  induction a as [|kv a IH]; [reflexivity|].
  cbn [map existsb filter]. intros H. apply orb_false_elim in H as [H1 H2].
  destruct (keep kv); cbn [map existsb]; [rewrite H1|]; now apply IH.
Qed.

(** With distinct names that [removeAttribute] finds as they are, the
    loop over the snapshot is a filter. *)
Lemma cleanAttributes_loop ns (done todo : list (string * string)) :
  distinct (map fst (done ++ todo)) = true ->
  (forall kv, In kv todo ->
     (match ns with HTML => toLowerCase (fst kv) | _ => fst kv end) = fst kv) ->
  fold_left
    (fun live attr => if strips attr then removeAttribute ns (fst attr) live else live)
    todo (filter (fun kv => negb (strips kv)) done ++ todo)
  = filter (fun kv => negb (strips kv)) (done ++ todo).
Proof.
  revert done. induction todo as [|x todo IH]; intros done Hd Hq.
  - cbn [fold_left]. now rewrite !app_nil_r.
  - cbn [fold_left].
    assert (Hx : existsb (String.eqb (fst x)) (map fst done) = false).
    { rewrite map_app in Hd. cbn [map] in Hd. now apply distinct_app_absent in Hd. }
    replace (done ++ x :: todo) with ((done ++ [x]) ++ todo) in *
      by (now rewrite <- app_assoc).
    rewrite <- (IH (done ++ [x]) Hd) by (intros kv Hkv; apply Hq; now right).
    f_equal. rewrite filter_app. cbn [filter].
    destruct (strips x) eqn:Es; cbn [negb].
    + unfold removeAttribute. rewrite (Hq x) by now left.
      rewrite removeFirst_app by now apply existsb_filter_absent.
      destruct x as [k v]. cbn [removeFirst fst]. rewrite String.eqb_refl.
      now rewrite app_nil_r.
    + now rewrite <- app_assoc.
Qed.

Lemma cleanAttributes_filter ns name a ch :
  parsedElement (Element ns name a ch) = true ->
  cleanAttributes ns a = filter (fun kv => negb (strips kv)) a.
Proof.
  intros Hp. unfold cleanAttributes.
  apply (cleanAttributes_loop ns [] a).
  - cbn [parsedElement] in Hp. now apply andb_true_iff in Hp as [Hp _].
  - intros kv Hkv. destruct ns; try reflexivity.
    cbn [parsedElement] in Hp. apply andb_true_iff in Hp as [_ Hp].
    apply andb_true_iff in Hp as [Hp _].
    rewrite forallb_forall in Hp. now apply String.eqb_eq, Hp.
Qed.

Lemma cleanAttributes_safe ns name a ch :
  parsedElement (Element ns name a ch) = true ->
  forallb safeAttribute (cleanAttributes ns a) = true.
Proof.
  intros Hp. rewrite (cleanAttributes_filter ns name a ch Hp).
  apply forallb_forall. intros kv Hkv. apply filter_In in Hkv as [_ Hkv].
  now rewrite safe_not_strips.
Qed.

(** An element of the HTML namespace that survives is none of the
    forbidden ones. *)
Lemma kept_not_forbidden name a ch :
  has REMOVE_WITH_CONTENT (tagName (Element HTML name a ch)) = false ->
  has forbiddenNames name = false.
Proof.
  intros H. destruct (has forbiddenNames name) eqn:E; [|reflexivity].
  unfold has in E. apply existsb_exists in E as (x & Hin & Hx).
  apply String.eqb_eq in Hx. subst x. cbn [tagName] in H.
  cbn [forbiddenNames In] in Hin.
  repeat (destruct Hin as [<-|Hin]; [vm_compute in H; discriminate H|]).
  destruct Hin.
Qed.

Lemma cleanChild_clean (c : Node) :
  parsed c = true ->
  forall c', cleanChild c = Some c' -> clean c' = true /\ below clean c' = true.
Proof.
  induction c as [d|d|ns name a ch IH] using Node_rect_children; intros Hp c' Hc.
  - injection Hc as <-. now split.
  - discriminate Hc.
  - rewrite cleanChild_element in Hc.
    destruct (has REMOVE_WITH_CONTENT (tagName (Element ns name a ch))) eqn:Hr;
      [discriminate Hc|].
    injection Hc as <-.
    unfold parsed in Hp. apply andb_true_iff in Hp as [Hp Hb].
    split.
    + unfold clean, safeAttributes. cbn [isComment attrs].
      rewrite (cleanAttributes_safe ns name a ch Hp).
      destruct ns; try reflexivity. cbn [forbiddenHtmlElement].
      now rewrite (kept_not_forbidden name a ch Hr).
    + rewrite below_element. rewrite below_element in Hb.
      clear Hr Hp. induction ch as [|c ch IHch]; [reflexivity|].
      cbn [forallb] in Hb. apply andb_true_iff in Hb as [Hc Hb].
      inversion IH as [|? ? IHc IHrest]; subst.
      cbn [cleanChildren]. destruct (cleanChild c) as [c'|] eqn:Ec.
      * cbn [forallb]. destruct (IHc Hc c' eq_refl) as [H1 H2].
        rewrite H1, H2. cbn [andb]. now apply IHch.
      * now apply IHch.
Qed.

End SanitizeFacts.

(** On a tree as the HTML parser builds it, every node that [sanitizeHtml]
    leaves under the body is clean: no forbidden element of the HTML
    namespace, no comment, and only allow-listed attributes, none an event
    handler or [style], with no [javascript:] or [data:text/html] URI in
    [href] / [src]. *)
Lemma sanitize_html_namespace_clean (parseBody : string -> Dom.Node) (dirty : string) :
  Sanitize.parsed (parseBody dirty) = true ->
  Sanitize.below Sanitize.clean (Sanitize.sanitizedBody parseBody dirty) = true.
Proof.
  unfold Sanitize.sanitizedBody, Sanitize.cleanNode, Sanitize.parsed.
  intros Hp. apply andb_true_iff in Hp as [_ Hb].
  destruct (parseBody dirty) as [d|d|ns name a ch]; try reflexivity.
  cbn [Dom.children Dom.setChildren].
  rewrite below_element. rewrite below_element in Hb.
  induction ch as [|c ch IH]; [reflexivity|].
  cbn [forallb] in Hb. apply andb_true_iff in Hb as [Hc Hb].
  cbn [Sanitize.cleanChildren].
  destruct (Sanitize.cleanChild c) as [c'|] eqn:Ec; [|now apply IH].
  cbn [forallb]. destruct (cleanChild_clean c Hc c' Ec) as [H1 H2].
  rewrite H1, H2. now apply IH.
Qed.

Lemma sanitize_sample :
  Sanitize.cleanNode Sanitize.sampleBody =
  Dom.Element Dom.HTML "body" []
    [Dom.Element Dom.HTML "p" [("class", "a")]%string [Dom.Text "hi"]].
Proof. reflexivity. Qed.

(** C7 at the failing input [<svg><script>alert(1)</script></svg>]: the
    parser puts both elements in the SVG namespace, where [tagName] is the
    lower-case name, so the look-up in [REMOVE_WITH_CONTENT] misses and the
    sanitiser returns the tree as it is, with the script element and its
    content. *)
Theorem sanitize_keeps_svg_script :
  Sanitize.parsed Sanitize.svgScriptBody = true /\
  Sanitize.cleanNode Sanitize.svgScriptBody = Sanitize.svgScriptBody /\
  Sanitize.below (fun n => negb (Sanitize.forbiddenElement n))
    (Sanitize.cleanNode Sanitize.svgScriptBody) = false /\
  Dom.nodeAt (Sanitize.cleanNode Sanitize.svgScriptBody) [0; 0] =
    Some (Dom.Element Dom.SVG "script" [] [Dom.Text "alert(1)"]).
Proof. repeat split; reflexivity. Qed.

(* ===================================================================== *)
(** * Facts: table rows                                                   *)
(* ===================================================================== *)

Section TableOpsFacts.
Import Dom TableOps.





Lemma child_index_bound (body n : Node) (pp : Path) (i : nat) :
  nodeAt body (pp ++ [i]) = Some n ->
  exists parent, nodeAt body pp = Some parent /\ isElement parent = true /\
                 i < length (children parent).
Proof.
  rewrite nodeAt_app. destruct (nodeAt body pp) as [parent|]; [|discriminate].
  cbn [nodeAt]. destruct (nth_error (children parent) i) as [c|] eqn:E; [|discriminate].
  intros _. exists parent. split; [reflexivity|]. split.
  - now apply has_child_isElement in E.
  - apply nth_error_Some. now rewrite E.
Qed.






End TableOpsFacts.




(** What [removeRow] does, case by case: refused on a row whose parent is a
    [thead]; refused when the first [tbody] of the table has at most one
    [tr] below it; the row removed otherwise, its parent keeping every
    other child in place. *)
Lemma removeRow_cases (body : Dom.Node) (cell row tbl : Dom.Path) (tableNode : Dom.Node) :
  Dom.closest ["tr"%string] body cell = Some row ->
  Dom.closest ["table"%string] body cell = Some tbl ->
  Dom.nodeAt body tbl = Some tableNode ->
  (TableOps.parentHasTag "THEAD" body row = true ->
   TableOps.removeRow cell body = (false, body)) /\
  (forall tb tbody,
     Dom.querySelector ["tbody"%string] tableNode = Some tb ->
     Dom.nodeAt tableNode tb = Some tbody ->
     length (Dom.querySelectorAll ["tr"%string] tbody) <= 1 ->
     TableOps.removeRow cell body = (false, body)) /\
  (TableOps.parentHasTag "THEAD" body row = false ->
   (forall tb tbody,
      Dom.querySelector ["tbody"%string] tableNode = Some tb ->
      Dom.nodeAt tableNode tb = Some tbody ->
      1 < length (Dom.querySelectorAll ["tr"%string] tbody)) ->
   TableOps.removeRow cell body = (true, Dom.remove row body) /\
   forall parent pn,
     Dom.parentPath row = Some parent ->
     Dom.nodeAt body parent = Some pn ->
     Dom.nodeAt (Dom.remove row body) parent =
       Some (Dom.setChildren (Dom.removeNth (List.last row 0) (Dom.children pn)) pn)).
Proof.
  intros Hrow Htbl Hnode. unfold TableOps.removeRow.
  rewrite Hrow, Htbl, Hnode. cbv zeta. split; [|split].
  - now intros ->.
  - intros tb tbody Hq Htb Hlen. rewrite Hq, Htb.
    destruct (TableOps.parentHasTag "THEAD" body row); [reflexivity|].
    now replace (_ <=? 1) with true by (symmetry; apply Nat.leb_le; exact Hlen).
  - intros -> Hmany. split.
    + destruct (Dom.querySelector ["tbody"%string] tableNode) as [tb|] eqn:Eq;
        [|reflexivity].
      destruct (querySelector_sound _ _ _ Eq) as (tbody & Htb & _).
      rewrite Htb. specialize (Hmany tb tbody eq_refl Htb).
      now replace (_ <=? 1) with false by (symmetry; apply Nat.leb_gt; exact Hmany).
    + intros parent pn Hp Hpn. unfold Dom.remove.
      destruct row as [|i row]; [discriminate Hp|].
      assert (Hpar : parent = removelast (i :: row))
        by (unfold Dom.parentPath in Hp; congruence).
      subst parent.
      exact (nodeAt_updateAt_here
               (fun n => Dom.setChildren
                           (Dom.removeNth (List.last (i :: row) 0) (Dom.children n)) n)
               body pn _ Hpn).
Qed.

(** C2 at the failing input: the only body row of the outer table holds a
    nested table.  The first [tbody] of the outer table has three [tr]
    elements below it (its own row and the two rows of the nested table),
    so the guard does not fire: [removeRow] returns [true] and the outer
    table is left without a body row. *)
Theorem removeRow_nested_table :
  Dom.closest ["tr"%string] TableOps.nestedTable [0; 0; 1; 0; 0] = Some [0; 0; 1; 0] /\
  Dom.closest ["table"%string] TableOps.nestedTable [0; 0; 1; 0; 0] = Some [0; 0] /\
  option_map (fun t => length (TableOps.bodyRows t))
             (Dom.nodeAt TableOps.nestedTable [0; 0]) = Some 1 /\
  fst (TableOps.removeRow [0; 0; 1; 0; 0] TableOps.nestedTable) = true /\
  Dom.nodeAt (snd (TableOps.removeRow [0; 0; 1; 0; 0] TableOps.nestedTable)) [0; 0] =
    Some (TableOps.table [TableOps.thead [TableOps.tr [TableOps.th "A"]];
                          TableOps.tbody []]).
Proof. repeat split; reflexivity. Qed.

(** On the plain tables the guards behave as documented. *)
Lemma removeRow_plain_tables :
  TableOps.removeRow [0; 0; 0; 0; 1] TableOps.plainTable = (false, TableOps.plainTable) /\
  TableOps.removeRow [0; 0; 1; 0; 0] TableOps.oneRowTable = (false, TableOps.oneRowTable) /\
  TableOps.removeRow [0; 0; 1; 0; 1] TableOps.plainTable =
    (true,
     TableOps.page
       [TableOps.table
          [TableOps.thead [TableOps.tr [TableOps.th "A"; TableOps.th "B"]];
           TableOps.tbody [TableOps.tr [TableOps.td "3"; TableOps.td "4"]]]]).
Proof. repeat split; reflexivity. Qed.

(* ===================================================================== *)
(** * Facts: ancestor chains and the cross-cell test                      *)
(* ===================================================================== *)

Section ChainFacts.
Import Dom Selection.

(** The accumulator of [chainFrom] is what the chain ends with. *)
Lemma chainFrom_acc (p : Path) :
  forall n here above,
    chainFrom n here p above =
    match chainFrom n here p [] with
    | [] => []
    | l => l ++ above
    end.
Proof.
  induction p as [|i p IH]; intros n here above; [reflexivity|].
  cbn [chainFrom]. destruct (nth_error (children n) i) as [c|]; [|reflexivity].
  rewrite (IH c (here ++ [i]) ((here, n) :: above)).
  rewrite (IH c (here ++ [i]) [(here, n)]).
  destruct (chainFrom c (here ++ [i]) p []) as [|e l]; [reflexivity|].
  cbn [app]. now rewrite <- app_assoc.
Qed.

Lemma chainFrom_last (q : Path) :
  forall n here,
    chainFrom n here q [] = [] \/
    exists lower, chainFrom n here q [] = lower ++ [(here, n)] /\
                  Forall (strictlyBelow here q) lower.
Proof.
  induction q as [|i q IH]; intros n here.
  - right. exists []. split; [reflexivity|constructor].
  - cbn [chainFrom]. destruct (nth_error (children n) i) as [c|]; [|now left].
    rewrite chainFrom_acc.
    destruct (IH c (here ++ [i])) as [->|(lower & -> & Hl)]; [now left|].
    right. exists (lower ++ [(here ++ [i], c)]). split.
    + destruct lower; reflexivity.
    + apply Forall_app. split.
      * eapply Forall_impl; [|exact Hl].
        intros e (q' & t & Hq' & -> & He). exists (i :: q'), t.
        split; [discriminate|]. split; [reflexivity|].
        rewrite He, <- app_assoc. reflexivity.
      * constructor; [|constructor]. exists [i], q.
        split; [discriminate|]. now split.
Qed.







Lemma path_eqb_eq (p q : Path) : path_eqb p q = true <-> p = q.
Proof.
  revert q. induction p as [|i p IH]; intros [|j q]; cbn [path_eqb];
    try (split; [discriminate|discriminate]); [now split|].
  rewrite andb_true_iff, Nat.eqb_eq, IH. split.
  - now intros [-> ->].
  - now intros [= -> ->].
Qed.


End ChainFacts.




(* ===================================================================== *)
(** * Facts: the descendants of a node                                    *)
(* ===================================================================== *)

Section DescendantFacts.
Import Dom Selection.

Lemma descendants_element ns name a ch :
  descendants (Element ns name a ch) = descendantsFrom 0 ch.
Proof.
  cbn [descendants]. generalize 0 as i.
  induction ch as [|c ch IH]; intros i; [reflexivity|].
  cbn [descendantsFrom]. now rewrite IH.
Qed.




Lemma NoDup_map_inj {A B : Type} (f : A -> B) (l : list A) :
  (forall x y, f x = f y -> x = y) -> NoDup l -> NoDup (map f l).
Proof.
  intros Hf H. induction H as [|x l Hx Hl IH]; [constructor|].
  cbn [map]. constructor; [|exact IH].
  intros Hin. apply in_map_iff in Hin as (y & Hy & Hin).
  apply Hf in Hy. now subst y.
Qed.

Lemma NoDup_map_fst_filter {A B : Type} (keep : A * B -> bool) (l : list (A * B)) :
  NoDup (map fst l) -> NoDup (map fst (filter keep l)).
Proof.
  induction l as [|x l IH]; [intros _; constructor|].
  cbn [map filter]. intros H. inversion H as [|? ? Hx Hl]; subst.
  destruct (keep x); [|now apply IH].
  cbn [map]. constructor; [|now apply IH].
  intros Hin. apply Hx. apply in_map_iff in Hin as (y & Hy & Hin).
  apply filter_In in Hin as [Hin _]. apply in_map_iff. now exists y.
Qed.

(** The paths of a run of siblings and of what is below them start at the
    index of one of the siblings. *)
Lemma descendantsFrom_head (i : nat) (l : list Node) (p : Path) :
  In p (map fst (descendantsFrom i l)) -> exists j rest, p = j :: rest /\ i <= j.
Proof.
  revert i. induction l as [|c l IH]; intros i H; [destruct H|].
  cbn [descendantsFrom map] in H. destruct H as [<-|H]; [now exists i, []|].
  rewrite map_app, map_map in H. cbn [fst] in H.
  apply in_app_or in H as [H|H].
  - apply in_map_iff in H as (d & <- & _). now exists i, (fst d).
  - apply IH in H as (j & rest & -> & Hj). exists j, rest. split; [reflexivity|lia].
Qed.

(** No two descendants share a path. *)
Lemma NoDup_descendants (n : Node) : NoDup (map fst (descendants n)).
Proof.
  induction n as [d|d|ns name a ch IH] using Node_rect_children; try constructor.
  rewrite descendants_element. generalize 0 as i.
  induction ch as [|c ch IHch]; intros i; [constructor|].
  inversion IH as [|? ? IHc IHrest]; subst.
  cbn [descendantsFrom map]. rewrite map_app, map_map. cbn [fst].
  constructor.
  - intros H. apply in_app_or in H as [H|H].
    + apply in_map_iff in H as (d & Hd & Hin).
      injection Hd as Hd. destruct c as [t|t|ns' nm' a' ch']; try destruct Hin.
      rewrite descendants_element in Hin.
      assert (Hp : In (fst d) (map fst (descendantsFrom 0 ch')))
        by (apply in_map_iff; now exists d).
      apply descendantsFrom_head in Hp as (j & rest & Hp & _). congruence.
    + apply descendantsFrom_head in H as (j & rest & Hp & Hj).
      injection Hp as -> _. lia.
  - apply NoDup_app.
    + rewrite <- map_map. apply NoDup_map_inj; [|exact IHc].
      intros x y E. now injection E.
    + now apply IHch.
    + intros p H1 H2. apply in_map_iff in H1 as (d & <- & _).
      apply descendantsFrom_head in H2 as (j & rest & Hp & Hj).
      injection Hp as -> _. lia.
Qed.

Lemma NoDup_querySelectorAll (names : list string) (n : Node) :
  NoDup (querySelectorAll names n).
Proof.
  unfold querySelectorAll. apply NoDup_map_fst_filter, NoDup_descendants.
Qed.

Lemma NoDup_cellsOf (table : Path) (tableNode : Node) :
  NoDup (cellsOf table tableNode).
Proof.
  unfold cellsOf. apply NoDup_map_inj; [|apply NoDup_querySelectorAll].
  intros x y E. now apply app_inv_head in E.
Qed.

End DescendantFacts.

(* ===================================================================== *)
(** * Facts: clearing the cells of a cross-cell selection                 *)
(* ===================================================================== *)

Section ClearFacts.
Import Dom Selection.



(** Two nodes apart sit under different children of a common ancestor. *)
Lemma apart_split (p q : Path) :
  apart p q = true ->
  exists c i j t t', i <> j /\ p = c ++ i :: t /\ q = c ++ j :: t'.
Proof.
  unfold apart. revert q. induction p as [|i p IH]; intros q H.
  - discriminate H.
  - destruct q as [|j q]; [cbn in H; discriminate H|].
    cbn [isPrefix] in H.
    destruct (Nat.eqb_spec i j) as [->|Hij].
    + rewrite Nat.eqb_refl in H. cbn [andb] in H.
      destruct (IH q H) as (c & i' & j' & t & t' & Hne & -> & ->).
      exists (j :: c), i', j', t, t'. now repeat split.
    + exists [], i, j, p, q. now repeat split.
Qed.

Lemma apart_sym (p q : Path) : apart p q = apart q p.
Proof. unfold apart. apply andb_comm. Qed.

Lemma apart_not_prefix (p q : Path) : apart p q = true -> isPrefix p q = false.
Proof.
  unfold apart. intros H. apply andb_true_iff in H as [H _].
  now apply negb_true_iff in H.
Qed.







Lemma pairwiseApart_filter (f : Path -> bool) (l : list Path) :
  pairwiseApart l = true -> pairwiseApart (filter f l) = true.
Proof.
  induction l as [|x l IH]; [reflexivity|].
  cbn [pairwiseApart filter]. intros H. apply andb_true_iff in H as [Hx Hl].
  destruct (f x); [|now apply IH].
  cbn [pairwiseApart]. rewrite IH by exact Hl. rewrite andb_true_r.
  rewrite forallb_forall in *. intros y Hy. apply filter_In in Hy as [Hy _].
  now apply Hx.
Qed.


(** ** The order of boundary points around a cell *)











Lemma updateAt_app (f : Node -> Node) (p q : Path) :
  forall n, updateAt f (p ++ q) n = updateAt (updateAt f q) p n.
Proof.
  induction p as [|i p IH]; intros n; [reflexivity|].
  cbn [app updateAt]. f_equal.
  generalize (children n). clear n. intros l. revert i.
  induction l as [|x l IHl]; intros [|i]; cbn [updateNth]; try reflexivity.
  - now rewrite IH.
  - now rewrite IHl.
Qed.
























End ClearFacts.

Example acrossCells_deleted :
  Selection.handleCrossCellDelete Selection.acrossCells =
  Selection.Returned
    (Selection.selecting
       (TableOps.page
          [TableOps.table
             [TableOps.thead [TableOps.tr [TableOps.th "A"; TableOps.th "B"]];
              TableOps.tbody
                [TableOps.tr [Dom.Element Dom.HTML "td" [] []; Dom.Element Dom.HTML "td" [] []];
                 TableOps.tr [Dom.Element Dom.HTML "td" [] []; Dom.Element Dom.HTML "td" [] []]]]])
       (Selection.caret [0; 0; 1; 0; 0] 0)).
Proof. reflexivity. Qed.




(* ===================================================================== *)
(** * Facts: serialising a table                                          *)
(* ===================================================================== *)

Section StringFacts.
Import JsString.
Local Open Scope string_scope.

Lemma append_nil_r (s : string) : s ++ "" = s.
Proof. induction s as [|c s IH]; [reflexivity|]. cbn. now rewrite IH. Qed.

Lemma append_assoc (a b c : string) : (a ++ b) ++ c = a ++ (b ++ c).
Proof. induction a as [|x a IH]; [reflexivity|]. cbn. now rewrite IH. Qed.

Lemma length_append (a b : string) :
  String.length (a ++ b) = (String.length a + String.length b)%nat.
Proof. induction a as [|x a IH]; [reflexivity|]. cbn. now rewrite IH. Qed.

Lemma dropEnd_cons (p : ascii -> bool) (c : ascii) (s : string) :
  dropEnd p (String c s) =
  match dropEnd p s with
  | "" => if p c then "" else String c ""
  | r => String c r
  end.
Proof. reflexivity. Qed.

(** A code unit outside the class stops [dropEnd]. *)
Lemma dropEnd_keep (p : ascii -> bool) (y : string) (d : ascii) (s : string) :
  p d = false -> dropEnd p (y ++ String d s) = y ++ String d (dropEnd p s).
Proof.
  intros Hd. induction y as [|c y IH].
  - cbn [append]. rewrite dropEnd_cons, Hd. now destruct (dropEnd p s).
  - cbn [append]. rewrite dropEnd_cons, IH.
    now destruct y.
Qed.

Lemma all_append (q : ascii -> bool) (a b : string) :
  all q (a ++ b) = all q a && all q b.
Proof.
  induction a as [|c a IH]; [reflexivity|]. cbn. now rewrite IH, andb_assoc.
Qed.


Lemma all_dropStart (q p : ascii -> bool) (s : string) :
  all q s = true -> all q (dropStart p s) = true.
Proof.
  induction s as [|c s IH]; [reflexivity|]. cbn [all dropStart]. intros H.
  apply andb_true_iff in H as [Hc Hs].
  destruct (p c); [now apply IH|]. cbn [all]. now rewrite Hc, Hs.
Qed.

Lemma all_dropEnd (q p : ascii -> bool) (s : string) :
  all q s = true -> all q (dropEnd p s) = true.
Proof.
  induction s as [|c s IH]; [reflexivity|]. cbn [all]. intros H.
  apply andb_true_iff in H as [Hc Hs]. rewrite dropEnd_cons.
  specialize (IH Hs). destruct (dropEnd p s).
  - destruct (p c); [reflexivity|]. cbn [all]. now rewrite Hc.
  - cbn [all] in *. now rewrite Hc, IH.
Qed.






End StringFacts.

Section TableMdFacts.
Import JsString Dom TableMd.
Local Open Scope string_scope.

Variable turndown : list Node -> string.
Variable otherReplacement : Node -> string.

Lemma join_empty (r : string) : noLead r -> join "" r = r.
Proof.
  unfold noLead, join. intros H. rewrite H. cbn [trimTrailingNewlines dropEnd String.length].
  now rewrite !Nat.sub_diag.
Qed.

Lemma join_line (o r : string) : endsLine o -> noLead r -> join o r = o ++ r.
Proof.
  intros (y & d & -> & Hd) Hr. unfold join, noLead in *. rewrite Hr.
  unfold trimTrailingNewlines. rewrite (dropEnd_keep isNewline y d nl Hd).
  change (dropEnd isNewline nl) with "".
  rewrite !length_append. cbn [String.length nl].
  replace (String.length y + 2 - (String.length y + 1))%nat with 1%nat by lia.
  rewrite Nat.sub_diag. cbn [Nat.max].
  change (substring 0 1 (nl ++ nl)) with nl.
  rewrite !append_assoc. reflexivity.
Qed.

Lemma endsLine_append (a b : string) : endsLine b -> endsLine (a ++ b).
Proof.
  intros (y & d & -> & Hd). exists (a ++ y), d. now rewrite append_assoc.
Qed.

Lemma noLead_bar (s : string) : noLead (String "|" s).
Proof. reflexivity. Qed.

Lemma endsLine_bar (s : string) : endsLine (s ++ "|" ++ nl).
Proof. exists s, "|"%char. split; reflexivity. Qed.

Lemma tableRow_shape (row : Node) :
  noLead (tableRow turndown row) /\ endsLine (tableRow turndown row).
Proof.
  unfold tableRow. cbv zeta. split; [apply noLead_bar|].
  rewrite <- append_assoc. apply endsLine_bar.
Qed.

Lemma separatorLine_shape (n : nat) :
  noLead (separatorLine n) /\ endsLine (separatorLine n).
Proof.
  unfold separatorLine. split; [apply noLead_bar|].
  rewrite <- append_assoc. apply endsLine_bar.
Qed.

Lemma length_dropStart (p : ascii -> bool) (s : string) :
  (String.length (dropStart p s) <= String.length s)%nat.
Proof.
  induction s as [|x s IH]; [reflexivity|]. cbn [dropStart].
  destruct (p x); cbn [String.length]; lia.
Qed.

Lemma noLead_first (c : ascii) (s : string) :
  noLead (String c s) -> isNewline c = false.
Proof.
  unfold noLead, trimLeadingNewlines. cbn [dropStart].
  destruct (isNewline c); [|reflexivity]. intros H.
  pose proof (length_dropStart isNewline s) as Hle. rewrite H in Hle.
  cbn [String.length] in Hle. lia.
Qed.

Lemma noLead_append (l x : string) :
  noLead l -> endsLine l -> noLead (l ++ x).
Proof.
  intros Hl (y & d & -> & Hd).
  destruct y as [|c y]; cbn [append] in *.
  - unfold noLead, trimLeadingNewlines. cbn [dropStart]. now rewrite Hd.
  - apply noLead_first in Hl. unfold noLead, trimLeadingNewlines.
    cbn [dropStart]. now rewrite Hl.
Qed.

Lemma concatLines_shape (lines : list string) :
  Forall (fun l => noLead l /\ endsLine l) lines ->
  (concatLines lines = "" \/ endsLine (concatLines lines)) /\ noLead (concatLines lines).
Proof.
  induction 1 as [|l rest [Hl He] _ [IH1 IH2]]; [now split; [left|]|].
  cbn [concatLines]. split.
  - right. destruct IH1 as [->|IH1]; [now rewrite append_nil_r|now apply endsLine_append].
  - now apply noLead_append.
Qed.

(** The rows of a section come out one line after the other. *)
Lemma processRows_lines (rows : list Node) :
  forallb isRow rows = true ->
  processRows turndown otherReplacement rows = concatLines (map (tableRow turndown) rows).
Proof.
  unfold processRows. intros Hrows.
  assert (G : forall acc,
             acc = "" \/ endsLine acc ->
             fold_left (fun output row =>
                          join output (replacementForRow turndown otherReplacement row))
                       rows acc =
             acc ++ concatLines (map (tableRow turndown) rows)).
  { induction rows as [|row rows IH]; intros acc Hacc.
    - cbn. now rewrite append_nil_r.
    - cbn [forallb] in Hrows. apply andb_true_iff in Hrows as [Hrow Hrows].
      cbn [fold_left map concatLines]. unfold replacementForRow at 2. rewrite Hrow.
      destruct (tableRow_shape row) as [Hn He].
      assert (Hj : join acc (tableRow turndown row) = acc ++ tableRow turndown row).
      { destruct Hacc as [->|Hacc]; [now apply join_empty|now apply join_line]. }
      rewrite Hj, (IH Hrows) by (right; now apply endsLine_append).
      now rewrite append_assoc. }
  now rewrite G by now left.
Qed.

Lemma join_map_const (n : nat) (A : Type) (l : list A) :
  length l = n ->
  JsString.join "|" (map (fun _ => " --- ") l) = JsString.join "|" (repeat " --- " n).
Proof. intros <-. f_equal. induction l; [reflexivity|]. cbn. now f_equal. Qed.

End TableMdFacts.




(* ===================================================================== *)
(** * More facts: the history engine                                      *)
(* ===================================================================== *)

Section HistoryMoreFacts.
Import JsArray History Timeline.

Lemma removelast_skipn {A : Type} (k : nat) (l : list A) :
  removelast (skipn k l) = skipn k (removelast l).
Proof.
  revert l. induction k as [|k IH]; intros l; [reflexivity|].
  destruct l as [|x l]; [reflexivity|].
  destruct l as [|y l]; [cbn; now destruct k|].
  cbn [skipn]. rewrite IH. reflexivity.
Qed.

Lemma changing_app_l (l1 l2 : list string) :
  changing (l1 ++ l2) = true -> changing l1 = true.
Proof.
  induction l1 as [|a l1 IH]; [reflexivity|].
  destruct l1 as [|b l1]; [reflexivity|].
  cbn [app changing]. intros H. apply andb_true_iff in H as [Hab H].
  rewrite Hab. now apply IH.
Qed.

Lemma changing_app_r (l1 l2 : list string) :
  changing (l1 ++ l2) = true -> changing l2 = true.
Proof.
  induction l1 as [|a l1 IH]; [auto|].
  intros H. apply IH. destruct l1 as [|b l1].
  - cbn [app] in *. destruct l2; [reflexivity|].
    cbn [changing] in H. now apply andb_true_iff in H as [_ H].
  - cbn [app changing] in H. now apply andb_true_iff in H as [_ H].
Qed.

Lemma changing_snoc (l : list string) (a b : string) :
  changing (l ++ [a]) = true -> a <> b -> changing (l ++ [a; b]) = true.
Proof.
  intros H Hab. induction l as [|x l IH].
  - cbn. apply String.eqb_neq in Hab. now rewrite Hab.
  - destruct l as [|y l].
    + cbn [app changing] in *. apply andb_true_iff in H as [Hxa _].
      rewrite Hxa. apply String.eqb_neq in Hab. now rewrite Hab.
    + cbn [app changing] in *. apply andb_true_iff in H as [Hxy H].
      rewrite Hxy. now apply IH.
Qed.

Lemma changing_skipn (k : nat) (l : list string) :
  changing l = true -> changing (skipn k l) = true.
Proof.
  intros H. rewrite <- (firstn_skipn k l) in H. now apply changing_app_r in H.
Qed.

Lemma map_top (l : list HistoryEntry) :
  top (map markdown l) = option_map markdown (top l).
Proof.
  induction l as [|x l IH]; [reflexivity|].
  destruct l as [|y l]; [reflexivity|]. exact IH.
Qed.

(** The last two of a list whose neighbours differ, differ. *)
Lemma changing_last_two (l : list string) (a b : string) :
  changing (l ++ [a; b]) = true -> a <> b.
Proof.
  intros H. apply changing_app_r in H. cbn in H.
  rewrite andb_true_r in H. apply negb_true_iff in H. now apply String.eqb_neq.
Qed.

Lemma _push_steady options md now s :
  steady s -> steady (_push options md now s).
Proof.
  intros Hs. destruct (_push_cases options md now s) as [->|Hf]; [exact Hs|].
  rewrite (_push_fresh options md now s Hf). unfold steady, timeline in *.
  cbn [undoStack redoStack rev]. rewrite app_nil_r.
  rewrite <- skipn_map. apply changing_skipn.
  rewrite map_app in Hs. apply changing_app_l in Hs.
  unfold push. rewrite map_app. cbn [map].
  unfold fresh in Hf.
  destruct (top (undoStack s)) as [t|] eqn:Et.
  - apply top_Some in Et. unfold push in Et. rewrite Et in Hs |- *.
    rewrite map_app in Hs |- *. cbn [map] in *. rewrite <- app_assoc. cbn [app].
    now apply changing_snoc.
  - apply top_None in Et. rewrite Et. reflexivity.
Qed.

Lemma step_steady options s o :
  steady s -> steady (step options s o).
Proof.
  intros Hs. destruct o as [md now|md|now|md now| | |]; cbn [step].
  - reflexivity.
  - exact Hs.
  - unfold fire. destruct (debounceTimer s); [|exact Hs]. now apply _push_steady.
  - unfold pushImmediate. now apply _push_steady.
  - destruct (canUndo s) eqn:E; [|now rewrite canUndo_false_undo].
    unfold canUndo in E. apply Nat.ltb_lt in E.
    destruct (@nonempty_push _ (undoStack s)) as (rest & e & Hr); [lia|].
    rewrite Hr, length_push in E.
    rewrite (undo_push s rest e Hr) by lia. cbn [snd].
    unfold steady, timeline in *. cbn [undoStack redoStack].
    rewrite Hr in Hs. unfold push in *. rewrite rev_app_distr. cbn [rev app].
    now rewrite <- app_assoc in Hs.
  - destruct (canRedo s) eqn:E; [|now rewrite canRedo_false_redo].
    unfold canRedo in E. apply Nat.ltb_lt in E.
    destruct (@nonempty_push _ (redoStack s)) as (rest & e & Hr); [lia|].
    rewrite (redo_push s rest e Hr). cbn [snd].
    unfold steady, timeline in *. cbn [undoStack redoStack].
    rewrite Hr in Hs. unfold push in *. rewrite rev_app_distr in Hs. cbn [rev app] in Hs.
    now rewrite <- app_assoc.
  - reflexivity.
Qed.

Lemma run_steady options ops s :
  steady s -> steady (run options ops s).
Proof.
  revert s. unfold run. induction ops as [|o ops IH]; intros s Hs; [exact Hs|].
  cbn [fold_left]. apply IH. now apply step_steady.
Qed.

End HistoryMoreFacts.

(** X1: with [maxDepth] at least 1, after [pushImmediate(md)], and after
    the timer of a [pushState(md)] has fired, the top of the undo stack
    holds [md], whether the push was a duplicate of the top or not. *)
Theorem push_makes_current (options : History.UseHistoryOptions) (md : string)
    (now : Z) (s : History.State) :
  JsNumber.atLeast 1 (History.maxDepth options) ->
  option_map History.markdown
    (JsArray.top (History.undoStack (History.pushImmediate options md now s))) = Some md /\
  option_map History.markdown
    (JsArray.top (History.undoStack
                    (History.fire options now (History.pushState md s)))) = Some md.
Proof.
  intros Hd.
  assert (G : forall s0,
             option_map History.markdown
               (JsArray.top (History.undoStack (History._push options md now s0))) = Some md).
  { intros s0.
    assert (F : History.fresh md s0 ->
                option_map History.markdown
                  (JsArray.top (History.undoStack (History._push options md now s0)))
                = Some md).
    { intros Hf. rewrite (_push_fresh options md now s0 Hf). cbn [History.undoStack].
      rewrite top_skipn.
      - now rewrite top_push.
      - rewrite length_push.
        destruct (dropped_atLeast options 1 (S (length (History.undoStack s0)))
                    ltac:(lia) Hd); lia. }
    destruct (JsArray.top (History.undoStack s0)) as [t|] eqn:Et.
    - destruct (String.eqb_spec (History.markdown t) md) as [Heq|Hne].
      + unfold History._push. cbv zeta. rewrite Et.
        rewrite (proj2 (String.eqb_eq _ _) Heq), Et. cbn. now rewrite Heq.
      + apply F. unfold History.fresh. now rewrite Et.
    - apply F. unfold History.fresh. now rewrite Et. }
  split; [apply G|]. unfold History.fire, History.pushState. cbn [History.debounceTimer].
  apply G.
Qed.

Lemma push_makes_current_witness :
  option_map History.markdown
    (JsArray.top (History.undoStack
                    (History.pushImmediate History.defaults "b" 1 History.two_states)))
  = Some "b"%string.
Proof.
  exact (proj1 (push_makes_current History.defaults "b" 1 History.two_states
                  ltac:(vm_compute; discriminate))).
Defined.

(** X2: with [maxDepth] at least 2, a push of markdown that differs from
    the current top [t] can be taken back at once: the redo stack is empty
    after the push, and [undo] then returns [t], leaves [t] on top and
    holds the pushed entry ready for [redo]. *)
Theorem push_then_undo (options : History.UseHistoryOptions) (md : string)
    (now : Z) (s : History.State) (t : History.HistoryEntry) :
  JsNumber.atLeast 2 (History.maxDepth options) ->
  JsArray.top (History.undoStack s) = Some t ->
  History.markdown t <> md ->
  let s1 := History.pushImmediate options md now s in
  History.canRedo s1 = false /\
  fst (History.undo s1) = Some t /\
  JsArray.top (History.undoStack (snd (History.undo s1))) = Some t /\
  History.redoStack (snd (History.undo s1)) = [History.entry md now].
Proof.
  intros Hd Ht Hne s1. subst s1. unfold History.pushImmediate.
  set (u := History.undoStack s) in *.
  set (e := History.entry md now).
  pose proof (_push_fresh options md now
                {| History.undoStack := u; History.redoStack := History.redoStack s;
                   History.debounceTimer := None |}) as Hp.
  cbv zeta in Hp. cbn [History.undoStack History.debounceTimer] in Hp. fold e in Hp.
  rewrite Hp by (unfold History.fresh; cbn [History.undoStack]; now rewrite Ht).
  clear Hp.
  assert (Hu : 0 < length u).
  { destruct u; [discriminate Ht|cbn; lia]. }
  set (k := History.dropped options (length (JsArray.push u e))).
  assert (Hk : k < length u).
  { unfold k. rewrite length_push.
    destruct (dropped_atLeast options 2 (S (length u)) ltac:(lia) Hd); lia. }
  assert (Hsplit : skipn k (JsArray.push u e) = JsArray.push (skipn k u) e).
  { unfold JsArray.push. rewrite skipn_app.
    replace (k - length u) with 0 by lia. reflexivity. }
  rewrite Hsplit. split; [reflexivity|].
  assert (Hrest : 0 < length (skipn k u)) by (rewrite length_skipn; lia).
  erewrite (fun s0 E => undo_push s0 (skipn k u) e E Hrest) by reflexivity.
  cbn [fst snd History.undoStack History.redoStack].
  rewrite top_skipn by exact Hk. now repeat split.
Qed.

Lemma push_then_undo_witness :
  fst (History.undo (History.pushImmediate History.defaults "c" 2 History.two_states))
  = Some (History.entry "b" 1).
Proof.
  exact (proj1 (proj2 (push_then_undo History.defaults "c" 2 History.two_states
                         (History.entry "b" 1)
                         ltac:(vm_compute; discriminate) eq_refl ltac:(discriminate)))).
Defined.

(** X3: a burst of [pushState] calls followed by one firing of the timer
    is one [pushImmediate] of the last markdown of the burst, and a second
    firing changes nothing. *)
Theorem burst_is_one_push (options : History.UseHistoryOptions)
    (mds : list string) (md : string) (now now' : Z) (s : History.State) :
  let s' := History.run options (Timeline.burst (mds ++ [md]) now) s in
  s' = History.pushImmediate options md now s /\
  History.fire options now' s' = s'.
Proof.
  cbv zeta.
  assert (G : forall s0,
             History.run options (map History.OPushState (mds ++ [md])) s0 =
             {| History.undoStack := History.undoStack s0;
                History.redoStack := History.redoStack s0;
                History.debounceTimer := Some md |}).
  { unfold History.run. induction mds as [|m mds IH]; intros s0; [reflexivity|].
    cbn [app map fold_left]. rewrite IH. reflexivity. }
  assert (E : History.run options (Timeline.burst (mds ++ [md]) now) s =
              History.pushImmediate options md now s).
  { unfold Timeline.burst, History.run. rewrite fold_left_app.
    fold (History.run options (map History.OPushState (mds ++ [md])) s).
    rewrite G. reflexivity. }
  rewrite E. split; [reflexivity|].
  unfold History.fire.
  assert (Hn : History.debounceTimer (History.pushImmediate options md now s) = None).
  { unfold History.pushImmediate, History._push. cbn [History.undoStack].
    destruct (JsArray.top (History.undoStack s)) as [t|];
      [destruct (String.eqb (History.markdown t) md)|]; reflexivity. }
  now rewrite Hn.
Qed.

(** X4: on every state a fresh instance can reach, neighbouring entries of
    the timeline hold different markdown; so an [undo] returns markdown
    that differs from the state it leaves, and so does a [redo]. *)
Theorem undo_redo_change_the_document (options : History.UseHistoryOptions)
    (ops : list History.Op) :
  let s := History.run options ops History.useHistory in
  (forall cur prev,
     JsArray.top (History.undoStack s) = Some cur ->
     fst (History.undo s) = Some prev ->
     History.markdown prev <> History.markdown cur) /\
  (forall cur next,
     JsArray.top (History.undoStack s) = Some cur ->
     fst (History.redo s) = Some next ->
     History.markdown next <> History.markdown cur).
Proof.
  cbv zeta. set (s := History.run options ops History.useHistory).
  assert (Hs : Timeline.steady s) by (apply run_steady; reflexivity).
  unfold Timeline.steady, Timeline.timeline in Hs. split.
  - intros cur prev Hcur Hundo.
    destruct (History.canUndo s) eqn:E;
      [|rewrite canUndo_false_undo in Hundo by exact E; discriminate Hundo].
    unfold History.canUndo in E. apply Nat.ltb_lt in E.
    destruct (@nonempty_push _ (History.undoStack s)) as (rest & e & Hr); [lia|].
    rewrite Hr, length_push in E.
    rewrite (undo_push s rest e Hr) in Hundo by lia. cbn [fst] in Hundo.
    rewrite Hr, top_push in Hcur. injection Hcur as <-.
    apply top_Some in Hundo. rewrite Hr, Hundo in Hs.
    unfold JsArray.push in Hs. rewrite map_app in Hs. apply changing_app_l in Hs.
    rewrite <- app_assoc, map_app in Hs. cbn [map app] in Hs.
    now apply changing_last_two in Hs.
  - intros cur next Hcur Hredo.
    destruct (History.canRedo s) eqn:E;
      [|rewrite canRedo_false_redo in Hredo by exact E; discriminate Hredo].
    unfold History.canRedo in E. apply Nat.ltb_lt in E.
    destruct (@nonempty_push _ (History.redoStack s)) as (rest & e & Hr); [lia|].
    rewrite (redo_push s rest e Hr) in Hredo. cbn [fst] in Hredo. injection Hredo as <-.
    apply top_Some in Hcur. rewrite Hcur, Hr in Hs.
    unfold JsArray.push in Hs. rewrite rev_app_distr in Hs. cbn [rev app] in Hs.
    rewrite map_app in Hs. cbn [map] in Hs.
    rewrite map_app in Hs. cbn [map] in Hs.
    rewrite <- app_assoc in Hs. cbn [app] in Hs.
    change (map History.markdown (removelast (History.undoStack s))
            ++ History.markdown cur :: History.markdown e :: map History.markdown (rev rest))
      with (map History.markdown (removelast (History.undoStack s))
            ++ [History.markdown cur; History.markdown e]
            ++ map History.markdown (rev rest)) in Hs.
    rewrite app_assoc in Hs. apply changing_app_l in Hs.
    apply changing_last_two in Hs. congruence.
Qed.

(** X5: with [maxDepth] an integer that is at least 1, on every state a
    fresh instance can reach the two stacks together hold at most
    [maxDepth] entries; so the redo stack holds fewer than [maxDepth]
    whenever there is a current state. *)
Theorem history_total_bound (options : History.UseHistoryOptions) (depth : Z)
    (ops : list History.Op) :
  JsNumber.isInteger (History.maxDepth options) depth ->
  (1 <= depth)%Z ->
  let s := History.run options ops History.useHistory in
  (Z.of_nat (length (History.undoStack s) + length (History.redoStack s)) <= depth)%Z /\
  (History.undoStack s <> [] ->
   (Z.of_nat (length (History.redoStack s)) < depth)%Z).
Proof.
  intros Hi Hd s.
  assert (H : History.within depth s).
  { apply (run_within options depth); [exact Hi|exact Hd|].
    unfold History.within. cbn. lia. }
  unfold History.within in H. split; [exact H|].
  intros Hne. destruct (History.undoStack s); [now destruct Hne|]. cbn [length] in H. lia.
Qed.

Lemma history_total_bound_witness :
  (Z.of_nat (length (History.undoStack History.two_states)
             + length (History.redoStack History.two_states)) <= 100)%Z.
Proof.
  refine (proj1 (history_total_bound History.defaults 100
                   [History.OInit "a" 0; History.OPushImmediate "b" 1] _ _)).
  - vm_compute. reflexivity.
  - lia.
Defined.

(* ===================================================================== *)
(** * More facts: the sanitiser                                           *)
(* ===================================================================== *)

Section SanitizeMoreFacts.
Import JsString Dom Sanitize.

Lemma distinct_filter (keep : string * string -> bool) (a : list (string * string)) :
  distinct (map fst a) = true -> distinct (map fst (filter keep a)) = true.
Proof.
  induction a as [|kv a IH]; [reflexivity|].
  cbn [map distinct filter]. intros H. apply andb_true_iff in H as [Hx Hd].
  destruct (keep kv); [|now apply IH].
  cbn [map distinct]. rewrite (IH Hd), andb_true_r.
  apply negb_true_iff in Hx. apply negb_true_iff. now apply existsb_filter_absent.
Qed.

Lemma forallb_filter_keep {A : Type} (P keep : A -> bool) (l : list A) :
  forallb P l = true -> forallb P (filter keep l) = true.
Proof.
  rewrite !forallb_forall. intros H x Hx. apply H. now apply filter_In in Hx as [Hx _].
Qed.

Lemma filter_twice {A : Type} (keep : A -> bool) (l : list A) :
  filter keep (filter keep l) = filter keep l.
Proof.
  induction l as [|x l IH]; [reflexivity|].
  cbn [filter]. destruct (keep x) eqn:E; [|exact IH].
  cbn [filter]. now rewrite E, IH.
Qed.

Lemma parsedElement_filter ns name a ch ch' (keep : string * string -> bool) :
  parsedElement (Element ns name a ch) = true ->
  parsedElement (Element ns name (filter keep a) ch') = true.
Proof.
  cbn [parsedElement]. intros H. apply andb_true_iff in H as [Hd Hl].
  rewrite (distinct_filter keep a Hd). cbn [andb].
  destruct ns; try reflexivity.
  apply andb_true_iff in Hl as [Hl Hn]. rewrite Hn, andb_true_r.
  now apply forallb_filter_keep.
Qed.

(** What [cleanChild] keeps is as the parser builds it, and a second pass
    keeps it as it is. *)
Lemma cleanChild_settled (c : Node) :
  parsed c = true ->
  forall c', cleanChild c = Some c' ->
    parsed c' = true /\ cleanChild c' = Some c'.
Proof.
  induction c as [d|d|ns name a ch IH] using Node_rect_children; intros Hp c' Hc.
  - injection Hc as <-. now split.
  - discriminate Hc.
  - rewrite cleanChild_element in Hc.
    destruct (has REMOVE_WITH_CONTENT (tagName (Element ns name a ch))) eqn:Hr;
      [discriminate Hc|].
    injection Hc as <-.
    unfold parsed in Hp. apply andb_true_iff in Hp as [Hp Hb].
    rewrite (cleanAttributes_filter ns name a ch Hp).
    assert (Hp' : parsedElement
                    (Element ns name (filter (fun kv => negb (strips kv)) a)
                       (cleanChildren ch)) = true)
      by exact (parsedElement_filter ns name a ch _ _ Hp).
    assert (Hch : forallb (fun c => parsedElement c && below parsedElement c)
                    (cleanChildren ch) = true
                  /\ cleanChildren (cleanChildren ch) = cleanChildren ch).
    { rewrite below_element in Hb. clear Hr Hp Hp'.
      induction ch as [|c ch IHch]; [now split|].
      cbn [forallb] in Hb. apply andb_true_iff in Hb as [Hc Hb].
      inversion IH as [|? ? IHc IHrest]; subst.
      destruct (IHch IHrest Hb) as [H1 H2].
      cbn [cleanChildren]. destruct (cleanChild c) as [c'|] eqn:Ec; [|now split].
      destruct (IHc Hc c' eq_refl) as [H3 H4].
      cbn [forallb cleanChildren]. unfold parsed in H3.
      now rewrite H3, H4, H1, H2. }
    destruct Hch as [H1 H2]. split.
    + unfold parsed. rewrite Hp'. cbn [andb]. now rewrite below_element.
    + rewrite cleanChild_element.
      replace (tagName (Element ns name (filter (fun kv => negb (strips kv)) a)
                          (cleanChildren ch)))
        with (tagName (Element ns name a ch)) by reflexivity.
      rewrite Hr, H2.
      rewrite (cleanAttributes_filter ns name _ (cleanChildren ch) Hp').
      now rewrite filter_twice.
Qed.

Lemma cleanChildren_settled (ch : list Node) :
  forallb (fun c => parsedElement c && below parsedElement c) ch = true ->
  cleanChildren (cleanChildren ch) = cleanChildren ch.
Proof.
  induction ch as [|c ch IH]; [reflexivity|].
  cbn [forallb]. intros H. apply andb_true_iff in H as [Hc Hb].
  cbn [cleanChildren]. destruct (cleanChild c) as [c'|] eqn:Ec; [|now apply IH].
  cbn [cleanChildren].
  destruct (cleanChild_settled c Hc c' Ec) as [_ ->]. now rewrite IH.
Qed.

End SanitizeMoreFacts.

(** X6: sanitising is idempotent: on a tree as the HTML parser builds it,
    a second pass of [cleanNode] over a sanitised body changes nothing. *)
Theorem cleanNode_idempotent (body : Dom.Node) :
  Sanitize.parsed body = true ->
  Sanitize.cleanNode (Sanitize.cleanNode body) = Sanitize.cleanNode body.
Proof.
  intros Hp. unfold Sanitize.parsed in Hp. apply andb_true_iff in Hp as [_ Hb].
  destruct body as [d|d|ns name a ch]; try reflexivity.
  rewrite below_element in Hb.
  unfold Sanitize.cleanNode. cbn [Dom.children Dom.setChildren].
  now rewrite cleanChildren_settled.
Qed.

Lemma cleanNode_idempotent_witness :
  Sanitize.cleanNode (Sanitize.cleanNode Sanitize.sampleBody)
  = Sanitize.cleanNode Sanitize.sampleBody.
Proof. exact (cleanNode_idempotent Sanitize.sampleBody eq_refl). Defined.

(** X7: on an element as the HTML parser builds it, the attribute loop
    keeps exactly the safe attributes, in their order and with their
    values: every allow-listed attribute that is no event handler, not
    [style] and carries no dangerous URI stays. *)
Theorem cleanAttributes_keeps_the_safe (ns : Dom.Namespace) (name : string)
    (a : list (string * string)) (ch : list Dom.Node) :
  Sanitize.parsedElement (Dom.Element ns name a ch) = true ->
  Sanitize.cleanAttributes ns a = filter Sanitize.safeAttribute a.
Proof.
  intros Hp. rewrite (cleanAttributes_filter ns name a ch Hp).
  apply filter_ext. intros kv. now rewrite safe_not_strips.
Qed.

Lemma cleanAttributes_keeps_the_safe_witness :
  Sanitize.cleanAttributes Dom.HTML
    [("onclick", "x()"); ("class", "a"); ("href", "https://a.b/")]%string
  = [("class", "a"); ("href", "https://a.b/")]%string.
Proof.
  exact (cleanAttributes_keeps_the_safe Dom.HTML "a"
           [("onclick", "x()"); ("class", "a"); ("href", "https://a.b/")]%string []
           eq_refl).
Defined.

(* ===================================================================== *)
(** * More facts: markdown syntax in the textarea                         *)
(* ===================================================================== *)

Section TextareaFacts.
Import Textarea.
Local Open Scope string_scope.

Lemma substring_0_app (a b : string) :
  substring 0 (String.length a) (a ++ b) = a.
Proof.
  induction a as [|c a IH]; [now destruct b|].
  cbn [String.length append substring]. now rewrite IH.
Qed.

Lemma substring_skip_app (a b : string) (n m : nat) :
  substring (String.length a + n) m (a ++ b) = substring n m b.
Proof.
  induction a as [|c a IH]; [reflexivity|].
  cbn [String.length append Nat.add substring]. exact IH.
Qed.

Lemma substring_all (s : string) : substring 0 (String.length s) s = s.
Proof.
  induction s as [|c s IH]; [reflexivity|].
  cbn [String.length substring]. now rewrite IH.
Qed.

Lemma length_substring (n m : nat) (s : string) :
  n + m <= String.length s -> String.length (substring n m s) = m.
Proof.
  revert n m. induction s as [|c s IH]; intros n m H; cbn [String.length] in H.
  - assert (n = 0) by lia. assert (m = 0) by lia. now subst.
  - destruct n as [|n].
    + destruct m as [|m]; [reflexivity|].
      cbn [substring String.length]. rewrite IH by lia. reflexivity.
    + cbn [substring]. apply IH. lia.
Qed.

(** A string is what is before [a], then [a] to [b], then what follows. *)
Lemma substring_split (a b : nat) (s : string) :
  a <= b -> b <= String.length s ->
  s = substring 0 a s ++ substring a (b - a) s ++ substring b (String.length s - b) s.
Proof.
  revert a b. induction s as [|c s IH]; intros a b Hab Hb; cbn [String.length] in Hb.
  - assert (b = 0) by lia. assert (a = 0) by lia. now subst.
  - destruct a as [|a].
    + cbn [substring append]. rewrite Nat.sub_0_r. destruct b as [|b].
      * cbn [substring append String.length Nat.sub]. now rewrite substring_all.
      * cbn [substring append String.length Nat.sub]. f_equal.
        pose proof (IH 0 b ltac:(lia) ltac:(lia)) as E.
        cbn [substring append] in E. destruct s; cbn in E |- *; rewrite Nat.sub_0_r in E.
        -- exact E.
        -- exact E.
    + destruct b as [|b]; [lia|].
      cbn [substring append String.length Nat.sub]. f_equal. apply IH; lia.
Qed.

Lemma substring_none (n : nat) (s : string) : substring n 0 s = "".
Proof.
  revert s. induction n as [|n IH]; intros [|c s]; try reflexivity.
  cbn [substring]. apply IH.
Qed.

Lemma substring_middle (a m c : string) :
  substring (String.length a) (String.length m) (a ++ m ++ c) = m.
Proof.
  rewrite <- (Nat.add_0_r (String.length a)), substring_skip_app.
  apply substring_0_app.
Qed.

Lemma substring_tail (a c : string) :
  substring (String.length a) (String.length c) (a ++ c) = c.
Proof.
  rewrite <- (Nat.add_0_r (String.length a)), substring_skip_app.
  apply substring_all.
Qed.

(** The three parts the code cuts a textarea's value into. *)
Lemma value_parts (ta : Textarea) :
  wellFormed ta ->
  value ta = slice 0 (selectionStart ta) (value ta)
             ++ selectedText ta ++ sliceFrom (selectionEnd ta) (value ta)
  /\ String.length (slice 0 (selectionStart ta) (value ta)) = selectionStart ta
  /\ String.length (selectedText ta) = selectionEnd ta - selectionStart ta.
Proof.
  intros (_ & H1 & H2). unfold slice, selectedText, slice, sliceFrom.
  rewrite Nat.sub_0_r. repeat split.
  - now apply substring_split.
  - apply length_substring. lia.
  - apply length_substring. lia.
Qed.

Lemma all_substring (q : ascii -> bool) (n m : nat) (s : string) :
  JsString.all q s = true -> JsString.all q (substring n m s) = true.
Proof.
  revert n m. induction s as [|c s IH]; intros n m H.
  - now destruct n, m.
  - cbn [JsString.all] in H. apply andb_true_iff in H as [Hc Hs].
    destruct n as [|n].
    + destruct m as [|m]; [reflexivity|]. cbn [substring JsString.all].
      rewrite Hc. now apply IH.
    + cbn [substring]. now apply IH.
Qed.

Lemma normalizeNewlines_fixed (s : string) :
  noCR s = true -> normalizeNewlines s = s.
Proof.
  unfold noCR. induction s as [|c s IH]; [reflexivity|].
  cbn [JsString.all normalizeNewlines]. intros H.
  apply andb_true_iff in H as [Hc Hs]. apply negb_true_iff in Hc.
  now rewrite Hc, IH.
Qed.

End TextareaFacts.

(** X8: on a textarea whose selection is well formed, with markers that
    hold no carriage return, [insertTextareaSyntax] puts [before] and
    [after] around the selected text and changes nothing else; afterwards
    the textarea holds the returned value and has the same text selected as
    before, now between the markers. *)
Theorem insertTextareaSyntax_keeps_selection (ta : Textarea.Textarea)
    (before after : string) :
  Textarea.wellFormed ta ->
  Textarea.noCR before = true -> Textarea.noCR after = true ->
  let newValue := fst (Textarea.insertTextareaSyntax ta before after) in
  let ta' := snd (Textarea.insertTextareaSyntax ta before after) in
  Textarea.value ta' = newValue /\
  Textarea.selectedText ta' = Textarea.selectedText ta /\
  Textarea.selectionStart ta' = Textarea.selectionStart ta + String.length before /\
  Textarea.slice 0 (Textarea.selectionStart ta') newValue
    = (Textarea.slice 0 (Textarea.selectionStart ta) (Textarea.value ta) ++ before)%string /\
  Textarea.sliceFrom (Textarea.selectionEnd ta') newValue
    = (after ++ Textarea.sliceFrom (Textarea.selectionEnd ta) (Textarea.value ta))%string /\
  Textarea.wellFormed ta'.
Proof.
  intros Hw Hnb Hna. destruct (value_parts ta Hw) as (Hv & Hpre & Hsel).
  destruct Hw as (Hcr & Hse & Hel).
  cbv zeta. unfold Textarea.insertTextareaSyntax. cbv zeta. cbn [fst snd].
  fold (Textarea.selectedText ta).
  set (pre := Textarea.slice 0 (Textarea.selectionStart ta) (Textarea.value ta)) in *.
  set (sel := Textarea.selectedText ta) in *.
  set (post := Textarea.sliceFrom (Textarea.selectionEnd ta) (Textarea.value ta)) in *.
  set (newValue := (pre ++ (before ++ sel ++ after) ++ post)%string).
  set (x := Textarea.selectionStart ta + String.length before).
  assert (Hlen : String.length newValue
                 = x + String.length sel + String.length after + String.length post).
  { unfold newValue, x. rewrite !length_append, Hpre. lia. }
  assert (Hnv0 : Textarea.normalizeNewlines newValue = newValue).
  { apply normalizeNewlines_fixed. unfold Textarea.noCR, newValue, pre, sel, post,
      Textarea.selectedText, Textarea.slice, Textarea.sliceFrom in *.
    rewrite !all_append, Hnb, Hna, !all_substring by exact Hcr. reflexivity. }
  set (t1 := Textarea.setValue newValue ta).
  assert (H1 : Textarea.value t1 = newValue
               /\ Textarea.selectionEnd t1 <= String.length newValue).
  { unfold t1, Textarea.setValue. cbv zeta. rewrite Hnv0.
    destruct (String.eqb_spec newValue (Textarea.value ta)) as [E|E].
    - rewrite <- E. split; [reflexivity|]. rewrite E. exact Hel.
    - cbn. split; [reflexivity|lia]. }
  destruct H1 as [Hv1 He1].
  set (t3 := Textarea.setSelectionEnd (x + String.length sel)
               (Textarea.setSelectionStart x t1)).
  assert (H3 : Textarea.value t3 = newValue /\ Textarea.selectionStart t3 = x
               /\ Textarea.selectionEnd t3 = x + String.length sel).
  { unfold t3, Textarea.setSelectionEnd, Textarea.setSelectionStart,
      Textarea.setSelectionRange.
    cbv zeta. cbn [Textarea.value Textarea.selectionStart Textarea.selectionEnd].
    rewrite Hv1. repeat split; lia. }
  destruct H3 as (Hv3 & Hs3 & He3).
  assert (Hnv : newValue = ((pre ++ before) ++ sel ++ (after ++ post))%string).
  { unfold newValue. now rewrite !append_assoc. }
  assert (Hx : String.length (pre ++ before) = x).
  { rewrite length_append, Hpre. reflexivity. }
  repeat split.
  - exact Hv3.
  - unfold Textarea.selectedText at 1, Textarea.slice. rewrite Hv3, Hs3, He3, Hnv.
    replace (x + String.length sel - x) with (String.length sel) by lia.
    rewrite <- Hx. apply substring_middle.
  - exact Hs3.
  - unfold Textarea.slice at 1. rewrite Hs3, Hnv, <- Hx, Nat.sub_0_r.
    apply substring_0_app.
  - unfold Textarea.sliceFrom at 1. rewrite He3, Hlen.
    replace newValue with (((pre ++ before) ++ sel) ++ (after ++ post))%string
      by (unfold newValue; now rewrite !append_assoc).
    replace (x + String.length sel + String.length after + String.length post
             - (x + String.length sel))
      with (String.length (after ++ post)) by (rewrite length_append; lia).
    replace (x + String.length sel) with (String.length ((pre ++ before) ++ sel))
      by (rewrite length_append, Hx; lia).
    apply substring_tail.
  - unfold Textarea.noCR in *. rewrite Hv3, <- Hnv0.
    fold (Textarea.noCR (Textarea.normalizeNewlines newValue)). rewrite Hnv0.
    unfold Textarea.noCR, newValue, pre, sel, post,
      Textarea.selectedText, Textarea.slice, Textarea.sliceFrom.
    rewrite !all_append, Hnb, Hna, !all_substring by exact Hcr. reflexivity.
  - rewrite Hs3, He3. lia.
  - rewrite He3, Hv3, Hlen. lia.
Qed.

Lemma insertTextareaSyntax_keeps_selection_witness :
  Textarea.selectedText
    (snd (Textarea.insertTextareaSyntax
            {| Textarea.value := "hello world"; Textarea.selectionStart := 0;
               Textarea.selectionEnd := 5 |} "**" "**"))
  = "hello"%string.
Proof.
  refine (proj1 (proj2 (insertTextareaSyntax_keeps_selection
                          {| Textarea.value := "hello world";
                             Textarea.selectionStart := 0;
                             Textarea.selectionEnd := 5 |} "**" "**" _ eq_refl eq_refl))).
  split; [reflexivity|]. split; cbn; lia.
Defined.

(** X9: with the cursor inside the value, [insertBlock] emits the value
    with the block put in at the cursor: before the cursor and behind the
    new position the text is what it was, and between them is the block. *)
Theorem insertBlock_at_cursor (ta : Textarea.Textarea) (block : string) :
  Textarea.selectionStart ta <= String.length (Textarea.value ta) ->
  let newValue := fst (Textarea.insertBlock ta block) in
  let newPos := snd (Textarea.insertBlock ta block) in
  let start := Textarea.selectionStart ta in
  Textarea.slice 0 start newValue = Textarea.slice 0 start (Textarea.value ta) /\
  Textarea.slice start newPos newValue = block /\
  Textarea.sliceFrom newPos newValue = Textarea.sliceFrom start (Textarea.value ta) /\
  (Textarea.slice 0 start newValue ++ Textarea.sliceFrom newPos newValue)%string
    = Textarea.value ta.
Proof.
  intros Hs. cbv zeta. unfold Textarea.insertBlock. cbv zeta. cbn [fst snd].
  set (start := Textarea.selectionStart ta) in *.
  set (text := Textarea.value ta) in *.
  set (pre := Textarea.slice 0 start text).
  set (post := Textarea.sliceFrom start text).
  assert (Hpre : String.length pre = start).
  { unfold pre, Textarea.slice. rewrite Nat.sub_0_r. apply length_substring. lia. }
  assert (Htext : text = (pre ++ post)%string).
  { pose proof (substring_split start start text (le_n _) Hs) as E.
    rewrite Nat.sub_diag in E. unfold pre, post, Textarea.slice, Textarea.sliceFrom.
    rewrite Nat.sub_0_r.
    now rewrite substring_none in E. }
  assert (A : Textarea.slice 0 start (pre ++ block ++ post) = pre).
  { unfold Textarea.slice. rewrite Nat.sub_0_r, <- Hpre. apply substring_0_app. }
  assert (B : Textarea.slice start (start + String.length block) (pre ++ block ++ post)
              = block).
  { unfold Textarea.slice.
    replace (start + String.length block - start) with (String.length block) by lia.
    rewrite <- Hpre. apply substring_middle. }
  assert (C : Textarea.sliceFrom (start + String.length block) (pre ++ block ++ post)
              = post).
  { unfold Textarea.sliceFrom at 1.
    replace (pre ++ block ++ post)%string with ((pre ++ block) ++ post)%string
      by now rewrite append_assoc.
    rewrite length_append.
    replace (String.length (pre ++ block) + String.length post
             - (start + String.length block))
      with (String.length post) by (rewrite length_append; lia).
    replace (start + String.length block) with (String.length (pre ++ block))
      by (rewrite length_append; lia).
    apply substring_tail. }
  rewrite A, B, C. repeat split. symmetry. exact Htext.
Qed.

Lemma insertBlock_at_cursor_witness :
  fst (Textarea.insertBlock
         {| Textarea.value := "ab"; Textarea.selectionStart := 1;
            Textarea.selectionEnd := 2 |} "---")
  = "a---b"%string /\
  Textarea.slice 1 4 "a---b" = "---"%string.
Proof.
  split; [reflexivity|].
  refine (proj1 (proj2 (insertBlock_at_cursor
                          {| Textarea.value := "ab"; Textarea.selectionStart := 1;
                             Textarea.selectionEnd := 2 |} "---" _))).
  cbn; lia.
Defined.

(* ===================================================================== *)
(** * More facts: moving from cell to cell                                *)
(* ===================================================================== *)

Section AdjacentFacts.
Import Dom Selection SelectionOps.

Lemma path_eqb_refl (p : Path) : path_eqb p p = true.
Proof. now apply path_eqb_eq. Qed.

Lemma path_eqb_neq (p q : Path) : p <> q -> path_eqb p q = false.
Proof.
  intros H. destruct (path_eqb p q) eqn:E; [|reflexivity].
  now apply path_eqb_eq in E.
Qed.

(** In a list without repetition [indexOf] finds the place of an entry. *)
Lemma indexOf_place (x : Path) (before after : list Path) :
  NoDup (before ++ x :: after) -> indexOf x (before ++ x :: after) = Some (length before).
Proof.
  induction before as [|y before IH]; intros H.
  - cbn [app indexOf]. now rewrite path_eqb_refl.
  - cbn [app indexOf length]. inversion H as [|? ? Hy Hl]; subst.
    rewrite path_eqb_neq.
    + now rewrite (IH Hl).
    + intros ->. apply Hy. apply in_or_app. right. now left.
Qed.

Lemma indexOf_found (x : Path) (l : list Path) (i : nat) :
  indexOf x l = Some i ->
  exists before after, l = before ++ x :: after /\ length before = i.
Proof.
  revert i. induction l as [|y l IH]; intros i H; [discriminate H|].
  cbn [indexOf] in H. destruct (path_eqb y x) eqn:E.
  - apply path_eqb_eq in E. subst y. injection H as <-. now exists [], l.
  - destruct (indexOf x l) as [j|]; [|discriminate H].
    injection H as <-. destruct (IH j eq_refl) as (before & after & -> & Hl).
    exists (y :: before), after. split; [reflexivity|]. cbn [length]. now rewrite Hl.
Qed.

Lemma nth_error_after {A : Type} (before after : list A) (x : A) :
  nth_error (before ++ x :: after) (length before + 1) = hd_error after.
Proof.
  induction before as [|y before IH]; [now destruct after|]. exact IH.
Qed.

Lemma nth_error_top {A : Type} (before rest : list A) (i : nat) :
  length before = S i -> nth_error (before ++ rest) i = JsArray.top before.
Proof.
  revert i. induction before as [|y before IH]; intros i H; [discriminate H|].
  cbn [length] in H. injection H as H.
  destruct before as [|z before]; [cbn in H; now subst i|].
  destruct i as [|i]; [discriminate H|].
  exact (IH i H).
Qed.

(** Where the cell stands in the list of its table decides both
    neighbours. *)
Lemma getAdjacentCell_place (b : Node) (cell table : Path) (tableNode : Node)
    (before after : list Path) :
  closest ["table"%string] b cell = Some table ->
  nodeAt b table = Some tableNode ->
  cellsOf table tableNode = before ++ cell :: after ->
  getAdjacentCell b cell next = hd_error after /\
  getAdjacentCell b cell prev = JsArray.top before.
Proof.
  intros Hc Hn Hl. unfold getAdjacentCell. rewrite Hc, Hn. cbv zeta.
  pose proof (NoDup_cellsOf table tableNode) as Hd. rewrite Hl in Hd |- *.
  rewrite (indexOf_place cell before after Hd). split.
  - apply nth_error_after.
  - destruct (length before) as [|i] eqn:E.
    + now destruct before.
    + now apply nth_error_top.
Qed.

End AdjacentFacts.

(** X10: [getAdjacentCell] follows the list [table.querySelectorAll('th,
    td')] of the cell's closest table: the next cell is the one listed
    behind it and the previous cell the one listed before it, and at the
    first and the last cell of the list the answer is [null] (no wrapping
    around). *)
Theorem getAdjacentCell_follows_the_list (b : Dom.Node) (cell table : Dom.Path)
    (tableNode : Dom.Node) (before after : list Dom.Path) :
  Dom.closest ["table"%string] b cell = Some table ->
  Dom.nodeAt b table = Some tableNode ->
  Selection.cellsOf table tableNode = before ++ cell :: after ->
  SelectionOps.getAdjacentCell b cell SelectionOps.next = hd_error after /\
  SelectionOps.getAdjacentCell b cell SelectionOps.prev = JsArray.top before /\
  (before = [] -> SelectionOps.getAdjacentCell b cell SelectionOps.prev = None) /\
  (after = [] -> SelectionOps.getAdjacentCell b cell SelectionOps.next = None).
Proof.
  intros Hc Hn Hl.
  destruct (getAdjacentCell_place b cell table tableNode before after Hc Hn Hl)
    as [H1 H2].
  repeat split; [exact H1|exact H2| |].
  - intros ->. exact H2.
  - intros ->. exact H1.
Qed.

Lemma getAdjacentCell_follows_the_list_witness :
  SelectionOps.getAdjacentCell TableOps.plainTable [0; 0; 0; 0; 1] SelectionOps.next
    = Some [0; 0; 1; 0; 0] /\
  SelectionOps.getAdjacentCell TableOps.plainTable [0; 0; 0; 0; 1] SelectionOps.prev
    = Some [0; 0; 0; 0; 0].
Proof.
  pose proof (getAdjacentCell_follows_the_list TableOps.plainTable
                [0; 0; 0; 0; 1] [0; 0]
                (TableOps.table
                   [TableOps.thead [TableOps.tr [TableOps.th "A"; TableOps.th "B"]];
                    TableOps.tbody [TableOps.tr [TableOps.td "1"; TableOps.td "2"];
                                    TableOps.tr [TableOps.td "3"; TableOps.td "4"]]])
                [[0; 0; 0; 0; 0]]
                [[0; 0; 1; 0; 0]; [0; 0; 1; 0; 1]; [0; 0; 1; 1; 0]; [0; 0; 1; 1; 1]]
                eq_refl eq_refl eq_refl) as H.
  split; [exact (proj1 H)|exact (proj1 (proj2 H))].
Defined.

(** X11: moving to the next cell and back returns to the cell one came
    from, and so does moving to the previous cell and forth, as long as
    the cell reached has the same closest table. *)
Theorem getAdjacentCell_there_and_back (b : Dom.Node) (cell cell' : Dom.Path) :
  Dom.closest ["table"%string] b cell' = Dom.closest ["table"%string] b cell ->
  (SelectionOps.getAdjacentCell b cell SelectionOps.next = Some cell' ->
   SelectionOps.getAdjacentCell b cell' SelectionOps.prev = Some cell) /\
  (SelectionOps.getAdjacentCell b cell SelectionOps.prev = Some cell' ->
   SelectionOps.getAdjacentCell b cell' SelectionOps.next = Some cell).
Proof.
  intros Hsame. split; intros H.
  - pose proof H as H0. unfold SelectionOps.getAdjacentCell in H.
    destruct (Dom.closest ["table"%string] b cell) as [table|] eqn:Hc; [|discriminate H].
    destruct (Dom.nodeAt b table) as [tableNode|] eqn:Hn; [|discriminate H].
    cbv zeta in H.
    destruct (SelectionOps.indexOf cell (Selection.cellsOf table tableNode))
      as [idx|] eqn:Hi; [|discriminate H].
    apply indexOf_found in Hi as (before & after & Hl & Hlen).
    rewrite Hl, <- Hlen, nth_error_after in H.
    destruct after as [|c after]; [discriminate H|]. injection H as ->.
    assert (Hl' : Selection.cellsOf table tableNode
                  = (before ++ [cell]) ++ cell' :: after)
      by (now rewrite <- app_assoc).
    destruct (getAdjacentCell_place b cell' table tableNode _ _ Hsame Hn Hl')
      as [_ ->].
    apply top_push.
  - unfold SelectionOps.getAdjacentCell in H.
    destruct (Dom.closest ["table"%string] b cell) as [table|] eqn:Hc; [|discriminate H].
    destruct (Dom.nodeAt b table) as [tableNode|] eqn:Hn; [|discriminate H].
    cbv zeta in H.
    destruct (SelectionOps.indexOf cell (Selection.cellsOf table tableNode))
      as [idx|] eqn:Hi; [|discriminate H].
    apply indexOf_found in Hi as (before & after & Hl & Hlen).
    destruct idx as [|i]; [discriminate H|].
    rewrite Hl, (nth_error_top before _ i Hlen) in H.
    apply top_Some in H. unfold JsArray.push in H.
    assert (Hl' : Selection.cellsOf table tableNode
                  = removelast before ++ cell' :: cell :: after).
    { rewrite Hl, H at 1. now rewrite <- app_assoc. }
    now destruct (getAdjacentCell_place b cell' table tableNode _ _ Hsame Hn Hl')
      as [-> _].
Qed.

Lemma getAdjacentCell_there_and_back_witness :
  SelectionOps.getAdjacentCell TableOps.plainTable [0; 0; 1; 0; 0] SelectionOps.prev
  = Some [0; 0; 0; 0; 1].
Proof.
  exact (proj1 (getAdjacentCell_there_and_back TableOps.plainTable
                  [0; 0; 0; 0; 1] [0; 0; 1; 0; 0] eq_refl) eq_refl).
Defined.

(* ===================================================================== *)
(** * More facts: unwrapping, and where the table guards agree            *)
(* ===================================================================== *)

Section UnwrapFacts.
Import Dom Selection SelectionOps.

Lemma textContent_element ns name a ch :
  textContent (Element ns name a ch) = textOfChildren ch.
Proof.
  cbn [textContent]. induction ch as [|c ch IH]; [reflexivity|].
  cbn [textOfChildren]. now rewrite IH.
Qed.

Lemma textOfChildren_app (l1 l2 : list Node) :
  textOfChildren (l1 ++ l2) = (textOfChildren l1 ++ textOfChildren l2)%string.
Proof.
  induction l1 as [|c l1 IH]; [reflexivity|].
  cbn [app textOfChildren]. now rewrite IH, append_assoc.
Qed.

Lemma textOfChildren_updateNth (g : Node -> Node) (ch : list Node) (i : nat) (c : Node) :
  nth_error ch i = Some c -> contribution (g c) = contribution c ->
  textOfChildren (updateNth i g ch) = textOfChildren ch.
Proof.
  revert i. induction ch as [|x ch IH]; intros i Hc Hg; [now destruct i|].
  destruct i as [|i]; cbn [updateNth textOfChildren].
  - injection Hc as ->. unfold contribution in Hg. now rewrite Hg.
  - now rewrite (IH i Hc Hg).
Qed.

(** A change somewhere below that keeps the text of the changed node keeps
    the text of the whole. *)
Lemma contribution_updateAt (f : Node -> Node) (p : Path) (n m : Node) :
  nodeAt n p = Some m -> contribution (f m) = contribution m ->
  contribution (updateAt f p n) = contribution n.
Proof.
  revert n. induction p as [|i p IH]; intros n Hn Hf.
  - injection Hn as ->. exact Hf.
  - cbn [nodeAt] in Hn.
    destruct (nth_error (children n) i) as [c|] eqn:E; [|discriminate Hn].
    destruct n as [d|d|ns name a ch]; [destruct i; discriminate E..|].
    cbn [updateAt children setChildren contribution]. rewrite !textContent_element.
    cbn [children] in E. apply (textOfChildren_updateNth _ ch i c E).
    now apply IH.
Qed.

(** One turn of the loop puts the child in front of the wrapper. *)
Lemma moveOut_turn (g : Node -> Node) (k x : Node) (pre post : list Node) :
  insertNth (length pre) k (updateNth (length pre) g (pre ++ x :: post))
  = (pre ++ [k]) ++ g x :: post.
Proof.
  induction pre as [|y pre IH]; [reflexivity|].
  cbn [length app updateNth insertNth]. now rewrite IH.
Qed.

Lemma moveOut_shape (kids pre post : list Node) (x : Node) :
  exists x', moveOut kids (length pre) (pre ++ x :: post)
             = (length pre + length kids, (pre ++ kids) ++ x' :: post).
Proof.
  revert pre x. induction kids as [|k kids IH]; intros pre x.
  - exists x. cbn [moveOut length]. now rewrite Nat.add_0_r, app_nil_r.
  - cbn [moveOut]. rewrite moveOut_turn.
    replace (S (length pre)) with (length (pre ++ [k]))
      by (rewrite length_app; cbn; lia).
    destruct (IH (pre ++ [k]) (setChildren kids x)) as (x' & ->).
    exists x'. rewrite length_app. cbn [length]. f_equal; [lia|].
    now rewrite <- !app_assoc.
Qed.

Lemma removeNth_middle {A : Type} (pre post : list A) (x : A) :
  removeNth (length pre) (pre ++ x :: post) = pre ++ post.
Proof.
  induction pre as [|y pre IH]; [reflexivity|].
  cbn [length app removeNth]. now rewrite IH.
Qed.

Lemma nth_error_parts {A : Type} (l : list A) (i : nat) (x : A) :
  nth_error l i = Some x ->
  l = firstn i l ++ x :: skipn (S i) l /\ length (firstn i l) = i.
Proof.
  revert i. induction l as [|y l IH]; intros i H; [destruct i; discriminate H|].
  destruct i as [|i].
  - injection H as ->. now split.
  - destruct (IH i H) as [E1 E2]. split.
    + change (y :: l = y :: (firstn i l ++ x :: skipn (S i) l)). now f_equal.
    + cbn [firstn length]. now rewrite E2.
Qed.

(** The loop and the removal of the wrapper leave the children of the
    wrapper in its place. *)
Lemma unwrap_children (kids ch : list Node) (i : nat) (x : Node) :
  nth_error ch i = Some x ->
  removeNth (fst (moveOut kids i ch)) (snd (moveOut kids i ch))
  = firstn i ch ++ kids ++ skipn (S i) ch.
Proof.
  intros H. destruct (nth_error_parts ch i x H) as [E1 E2].
  set (pre := firstn i ch) in *. set (post := skipn (S i) ch) in *.
  rewrite E1. rewrite <- E2 at 1 2.
  destruct (moveOut_shape kids pre post x) as (x' & ->). cbn [fst snd].
  rewrite <- length_app, removeNth_middle. now rewrite <- app_assoc.
Qed.

Lemma removelast_snoc {A : Type} (l : list A) (x : A) : removelast (l ++ [x]) = l.
Proof. apply removelast_last. Qed.

Lemma last_snoc {A : Type} (l : list A) (x d : A) : List.last (l ++ [x]) d = x.
Proof. apply last_last. Qed.

Lemma updateNth_agree {A : Type} (f g : A -> A) (l : list A) (i : nat) (x : A) :
  nth_error l i = Some x -> f x = g x -> updateNth i f l = updateNth i g l.
Proof.
  revert i. induction l as [|y l IH]; intros i H E; [now destruct i|].
  destruct i as [|i]; cbn [updateNth].
  - injection H as ->. now rewrite E.
  - now rewrite (IH i H E).
Qed.

(** Two changes that agree on the node they are applied to. *)
Lemma updateAt_agree (f g : Node -> Node) (p : Path) (b m : Node) :
  nodeAt b p = Some m -> f m = g m -> updateAt f p b = updateAt g p b.
Proof.
  revert b. induction p as [|j p IH]; intros b H E.
  - injection H as ->. exact E.
  - cbn [nodeAt] in H.
    destruct (nth_error (children b) j) as [c|] eqn:Ec; [|discriminate H].
    cbn [updateAt]. f_equal. apply (updateNth_agree _ _ _ j c Ec). now apply IH.
Qed.

Lemma unwrapNode_at (b : Node) (parent : Path) (i : nat) (node : Node) :
  nodeAt b (parent ++ [i]) = Some node ->
  unwrapNode (parent ++ [i]) b
  = updateAt
      (fun pn => setChildren (firstn i (children pn) ++ children node
                              ++ skipn (S i) (children pn)) pn)
      parent b.
Proof.
  intros Hn. unfold unwrapNode. rewrite Hn.
  assert (Hp : parentPath (parent ++ [i]) = Some parent).
  { unfold parentPath. destruct (parent ++ [i]) eqn:E.
    - now destruct parent.
    - now rewrite <- E, removelast_snoc. }
  rewrite Hp, last_snoc.
  destruct (child_index_bound b node parent i Hn) as (pn & Hpn & _ & _).
  rewrite (nodeAt_snoc b pn parent i Hpn) in Hn.
  apply (updateAt_agree _ _ parent b pn Hpn). cbv zeta.
  now rewrite (unwrap_children _ _ i node Hn).
Qed.

End UnwrapFacts.

Section GuardFacts.
Import Dom Selection.

Lemma chain_root (b : Node) (p : Path) :
  chain b p = [] \/
  exists lower, chain b p = lower ++ [([], b)] /\ Forall (fun e => fst e <> []) lower.
Proof.
  destruct (chainFrom_last p b []) as [E|(lower & E & Hl)]; [now left|].
  right. exists lower. split; [exact E|].
  apply Forall_impl with (2 := Hl). intros e (q' & t & Hq & _ & He).
  cbv beta. intros Hx. apply Hq.
  transitivity (fst e); [symmetry; exact He|exact Hx].
Qed.

(** Below the body the two walks take the same turns. *)
Lemma isInsideTableIn_findAncestorIn (b : Node) (lower : list (Path * Node)) :
  hasTag "TABLE" b = false ->
  Forall (fun e => fst e <> []) lower ->
  isInsideTableIn (lower ++ [([], b)]) = true ->
  exists p n, findAncestorIn "TABLE" (lower ++ [([], b)]) = Some p /\
              In (p, n) lower /\ hasTag "TABLE" n = true.
Proof.
  intros Hb Hl. induction Hl as [|[p cur] lower Hp Hl IH]; intros H.
  - cbn [app isInsideTableIn] in H. rewrite Hb in H.
    now destruct (isElement b && isContentEditable b).
  - cbn [app isInsideTableIn findAncestorIn] in H |- *. cbn [fst] in Hp.
    destruct p as [|i p]; [now destruct Hp|].
    destruct (hasTag "TABLE" cur) eqn:Et.
    + exists (i :: p), cur. repeat split; [now left|exact Et].
    + destruct (isElement cur && isContentEditable cur); [discriminate H|].
      destruct (IH H) as (q & n & E & Hin & Hn).
      exists q, n. repeat split; [exact E|now right|exact Hn].
Qed.

Lemma walkUpToCellIn_closestCellIn (c : list (Path * Node)) (x : Path) :
  walkUpToCellIn c = Some x -> closestCellIn c = Some x.
Proof.
  induction c as [|[p cur] up IH]; intros H; [discriminate H|].
  cbn [walkUpToCellIn closestCellIn] in H |- *.
  destruct (isElement cur) eqn:Ee.
  - destruct (isCellTag cur); [exact H|].
    destruct (isContentEditable cur);
      [rewrite orb_true_r in H; discriminate H|].
    rewrite orb_false_r in H. destruct (hasTag "TABLE" cur); [discriminate H|].
    cbn [andb]. now apply IH.
  - assert (Hc : isCellTag cur = false).
    { unfold isCellTag, hasTag. now destruct cur. }
    rewrite Hc. cbn [andb]. now apply IH.
Qed.

End GuardFacts.

(** X12: [unwrapNode] puts the children of the wrapper, in their order, in
    the place of the wrapper among the children of its parent; when the
    wrapper is an element the text of the document stays what it was. *)
Theorem unwrapNode_keeps_children (b : Dom.Node) (parent : Dom.Path) (i : nat)
    (node pn : Dom.Node) :
  Dom.nodeAt b (parent ++ [i]) = Some node ->
  Dom.nodeAt b parent = Some pn ->
  Dom.nodeAt (SelectionOps.unwrapNode (parent ++ [i]) b) parent
    = Some (Dom.setChildren
              (firstn i (Dom.children pn) ++ Dom.children node
               ++ skipn (S i) (Dom.children pn)) pn) /\
  (Dom.isElement node = true ->
   SelectionOps.textContent (SelectionOps.unwrapNode (parent ++ [i]) b)
   = SelectionOps.textContent b).
Proof.
  intros Hn Hpn. rewrite (unwrapNode_at b parent i node Hn).
  set (f := fun pn0 : Dom.Node => _). split.
  - exact (nodeAt_updateAt_here f b pn parent Hpn).
  - intros He.
    rewrite (nodeAt_snoc b pn parent i Hpn) in Hn.
    assert (Hc : SelectionOps.contribution (Dom.updateAt f parent b)
                 = SelectionOps.contribution b).
    { apply (contribution_updateAt f parent b pn Hpn).
      destruct pn as [d|d|ns name a ch]; [destruct i; discriminate Hn..|].
      cbn [Dom.children] in Hn. unfold f.
      cbn [Dom.children Dom.setChildren SelectionOps.contribution].
      rewrite !textContent_element.
      destruct (nth_error_parts ch i node Hn) as [E _]. rewrite E at 3.
      rewrite !textOfChildren_app. cbn [SelectionOps.textOfChildren].
      destruct node as [d|d|ns' name' a' kids]; [discriminate He..|].
      now rewrite textContent_element. }
    assert (Hb : exists ns name a ch, b = Dom.Element ns name a ch).
    { destruct parent as [|j parent].
      - injection Hpn as Hbp. rewrite <- Hbp in Hn.
        destruct b as [d|d|ns name a ch]; [destruct i; discriminate Hn..|].
        now exists ns, name, a, ch.
      - destruct b as [d|d|ns name a ch]; [destruct j; discriminate Hpn..|].
        now exists ns, name, a, ch. }
    destruct Hb as (ns & name & a & ch & ->).
    cbn [SelectionOps.contribution] in Hc. rewrite <- Hc.
    destruct parent as [|j parent]; reflexivity.
Qed.

Lemma unwrapNode_keeps_children_witness :
  SelectionOps.textContent (SelectionOps.unwrapNode [0; 0] SelectionOps.quoted)
  = SelectionOps.textContent SelectionOps.quoted.
Proof.
  refine (proj2 (unwrapNode_keeps_children SelectionOps.quoted [0] 0
                   (Dom.Element Dom.HTML "blockquote" []
                      [Dom.Element Dom.HTML "p" [] [Dom.Text "a"]; Dom.Text "b"])
                   (Dom.Element Dom.HTML "div" [("contenteditable", "true")]%string
                      [Dom.Element Dom.HTML "blockquote" []
                         [Dom.Element Dom.HTML "p" [] [Dom.Text "a"]; Dom.Text "b"];
                       Dom.Element Dom.HTML "p" [] [Dom.Text "c"]])
                   eq_refl eq_refl) eq_refl).
Defined.

(** X13: when the body is no table, every selection that
    [isSelectionCrossCell] reports has a table for [handleCrossCellDelete]
    to work on: [findAncestor] of the common ancestor finds a [TABLE]
    element of the document. *)
Theorem cross_cell_selection_has_table (pg : Selection.Page) :
  Dom.hasTag "TABLE" (Selection.body pg) = false ->
  Selection.isSelectionCrossCell pg = true ->
  exists sel r table tableNode,
    Selection.selection pg = Some sel /\ Selection.range sel = Some r /\
    Selection.findAncestor (Selection.body pg)
      (Selection.commonAncestorContainer r) "TABLE" = Some table /\
    Dom.nodeAt (Selection.body pg) table = Some tableNode /\
    Dom.hasTag "TABLE" tableNode = true.
Proof.
  intros Hb H. unfold Selection.isSelectionCrossCell in H.
  destruct (Selection.selection pg) as [sel|] eqn:Es; [|discriminate H].
  destruct (Selection.range sel) as [r|] eqn:Er; [|discriminate H].
  destruct (Selection.collapsed r); [discriminate H|].
  destruct (Selection.isSome _); [discriminate H|].
  destruct (Selection.isInsideTable (Selection.body pg)
              (Selection.commonAncestorContainer r)) eqn:Hin; [|discriminate H].
  clear H. exists sel, r. unfold Selection.isInsideTable in Hin.
  unfold Selection.findAncestor.
  change (Dom.toUpperCase "TABLE") with "TABLE"%string.
  destruct (chain_root (Selection.body pg) (Selection.commonAncestorContainer r))
    as [E|(lower & E & Hl)].
  - rewrite E in Hin. discriminate Hin.
  - pose proof (chain_sound (Selection.body pg)
                  (Selection.commonAncestorContainer r)) as Hs.
    rewrite E in Hin, Hs |- *.
    destruct (isInsideTableIn_findAncestorIn _ lower Hb Hl Hin) as (p & n & Hf & Hp & Hn).
    exists p, n. split; [reflexivity|]. split; [exact Er|].
    split; [exact Hf|]. split; [|exact Hn].
    apply (Hs (p, n)). apply in_or_app. now left.
Qed.

Lemma cross_cell_selection_has_table_witness :
  exists sel r table tableNode,
    Selection.selection Selection.acrossCells = Some sel /\
    Selection.range sel = Some r /\
    Selection.findAncestor (Selection.body Selection.acrossCells)
      (Selection.commonAncestorContainer r) "TABLE" = Some table /\
    Dom.nodeAt (Selection.body Selection.acrossCells) table = Some tableNode /\
    Dom.hasTag "TABLE" tableNode = true.
Proof. exact (cross_cell_selection_has_table Selection.acrossCells eq_refl eq_refl). Defined.

(** X14: whenever [walkUpToCell] finds a cell for a node,
    [findClosestCell] called without an offset, as the guard of
    [wrapBlock] calls it, finds the same cell. *)
Theorem walkUpToCell_findClosestCell (b : Dom.Node) (p cell : Dom.Path) :
  Selection.walkUpToCell b p = Some cell ->
  Selection.findClosestCell b (Some p) None = Some cell.
Proof.
  intros H. unfold Selection.findClosestCell. cbv zeta.
  assert (E : match Dom.nodeAt b p, @None nat with
              | Some el, Some o =>
                  if Dom.isElement el
                     && existsb (String.eqb (Dom.tagName el)) Selection.TABLE_STRUCTURAL_TAGS
                  then
                    match Selection.cellOfChild
                            (Dom.querySelector ["th"; "td"]%string) el p o with
                    | Some c => Some c
                    | None =>
                        if 0 <? o
                        then Selection.cellOfChild Selection.querySelectorLastCell el p (o - 1)
                        else None
                    end
                  else None
              | _, _ => None
              end = None) by (now destruct (Dom.nodeAt b p)).
  rewrite E. now apply walkUpToCellIn_closestCellIn.
Qed.

Lemma walkUpToCell_findClosestCell_witness :
  Selection.findClosestCell TableOps.plainTable (Some [0; 0; 1; 0; 0; 0]) None
  = Some [0; 0; 1; 0; 0].
Proof.
  exact (walkUpToCell_findClosestCell TableOps.plainTable
           [0; 0; 1; 0; 0; 0] [0; 0; 1; 0; 0] eq_refl).
Defined.

(* ===================================================================== *)
(** * More facts: escaping, code blocks and tables in markdown.ts         *)
(* ===================================================================== *)

Section EscapeFacts.
Import JsString Escape.
Local Open Scope string_scope.

Lemma replaceEach_append (p : ascii -> bool) (by_ a b : string) :
  replaceEach p by_ (a ++ b) = replaceEach p by_ a ++ replaceEach p by_ b.
Proof.
  induction a as [|c a IH]; [reflexivity|].
  cbn [append replaceEach]. rewrite IH. destruct (p c); [|reflexivity].
  now rewrite append_assoc.
Qed.

(** A replace keeps what holds of every code unit of the string and of the
    replacement. *)
Lemma all_replaceEach (q p : ascii -> bool) (by_ s : string) :
  all q by_ = true -> all q s = true -> all q (replaceEach p by_ s) = true.
Proof.
  intros Hb. induction s as [|c s IH]; [reflexivity|].
  cbn [all replaceEach]. intros H. apply andb_true_iff in H as [Hc Hs].
  destruct (p c).
  - rewrite all_append, Hb. now apply IH.
  - cbn [all]. rewrite Hc. now apply IH.
Qed.

(** After a replace nothing of the class is left, when the replacement
    holds none. *)
Lemma none_left (p : ascii -> bool) (by_ s : string) :
  all (fun c => negb (p c)) by_ = true ->
  all (fun c => negb (p c)) (replaceEach p by_ s) = true.
Proof.
  intros Hb. induction s as [|c s IH]; [reflexivity|].
  cbn [replaceEach]. destruct (p c) eqn:E.
  - now rewrite all_append, Hb.
  - cbn [all]. now rewrite E.
Qed.

Lemma escapeHtmlStr_cons (c : ascii) (s : string) :
  escapeHtmlStr (String c s) = entity c ++ escapeHtmlStr s.
Proof.
  unfold escapeHtmlStr, entity. cbn [replaceEach].
  destruct (isAmp c) eqn:Ea.
  - now rewrite !replaceEach_append.
  - cbn [replaceEach]. destruct (isLt c) eqn:El.
    + now rewrite !replaceEach_append.
    + cbn [replaceEach]. destruct (isGt c) eqn:Eg.
      * now rewrite !replaceEach_append.
      * cbn [replaceEach]. now destruct (isQuot c).
Qed.

Lemma entity_no_markup (c : ascii) :
  all (fun x => negb (isMarkup x)) (entity c) = true.
Proof.
  unfold entity.
  destruct (isAmp c); [reflexivity|].
  destruct (isLt c) eqn:El; [reflexivity|].
  destruct (isGt c) eqn:Eg; [reflexivity|].
  destruct (isQuot c) eqn:Eq; [reflexivity|].
  cbn [all]. unfold isMarkup. now rewrite El, Eg, Eq.
Qed.

End EscapeFacts.

(** X15: [escapeHtmlStr] writes the entity of each ampersand, angle
    bracket and double quote and leaves every other character: the later
    replaces never touch what the earlier ones wrote.  Its result holds no
    angle bracket and no double quote, and the result of [escapeAttrStr]
    holds no double and no single quote. *)
Theorem escaping_leaves_no_markup (s : string) :
  Escape.escapeHtmlStr s = Escape.eachEntity s /\
  JsString.all (fun c => negb (Escape.isMarkup c)) (Escape.escapeHtmlStr s) = true /\
  JsString.all (fun c => negb (Escape.isQuot c || Escape.isApos c))
    (Escape.escapeAttrStr s) = true.
Proof.
  assert (H1 : Escape.escapeHtmlStr s = Escape.eachEntity s).
  { induction s as [|c s IH]; [reflexivity|].
    rewrite escapeHtmlStr_cons. cbn [Escape.eachEntity]. now rewrite IH. }
  split; [exact H1|]. split.
  - rewrite H1. clear H1. induction s as [|c s IH]; [reflexivity|].
    cbn [Escape.eachEntity]. rewrite all_append, entity_no_markup. exact IH.
  - unfold Escape.escapeAttrStr.
    assert (Hq : JsString.all (fun c => negb (Escape.isQuot c))
                   (JsString.replaceEach Escape.isApos "&#39;"
                      (JsString.replaceEach Escape.isQuot "&quot;" s)) = true).
    { apply all_replaceEach; [reflexivity|]. now apply none_left. }
    assert (Ha : JsString.all (fun c => negb (Escape.isApos c))
                   (JsString.replaceEach Escape.isApos "&#39;"
                      (JsString.replaceEach Escape.isQuot "&quot;" s)) = true)
      by now apply none_left.
    revert Hq Ha.
    generalize (JsString.replaceEach Escape.isApos "&#39;"
                  (JsString.replaceEach Escape.isQuot "&quot;" s)).
    intros r. induction r as [|c r IH]; [reflexivity|].
    cbn [JsString.all]. intros Hq Ha.
    apply andb_true_iff in Hq as [Hq1 Hq2]. apply andb_true_iff in Ha as [Ha1 Ha2].
    rewrite (IH Hq2 Ha2), andb_true_r.
    apply negb_true_iff in Hq1, Ha1. now rewrite Hq1, Ha1.
Qed.

Section CodeBlockFacts.
Import JsString Dom CodeBlock.
Local Open Scope string_scope.

Lemma removeFinalNewline_snoc (s : string) :
  removeFinalNewline (s ++ TableMd.nl) = s.
Proof.
  induction s as [|c s IH]; [reflexivity|].
  cbn [append]. destruct (s ++ TableMd.nl) as [|a t] eqn:E.
  - destruct s; discriminate E.
  - change (removeFinalNewline (String c (String a t)))
      with (String c (removeFinalNewline (String a t))).
    now rewrite IH.
Qed.

Lemma takeWhile_stop (p : ascii -> bool) (a rest : string) :
  all p a = true ->
  rest = "" \/ (exists c r, rest = String c r /\ p c = false) ->
  takeWhile p (a ++ rest) = a.
Proof.
  intros Ha Hr. induction a as [|c a IH].
  - destruct Hr as [->|(c & r & -> & Hc)]; [reflexivity|].
    cbn [append takeWhile]. now rewrite Hc.
  - cbn [all] in Ha. apply andb_true_iff in Ha as [Hc Ha].
    cbn [append takeWhile]. now rewrite Hc, (IH Ha).
Qed.

Lemma startsWith_append (p s : string) : startsWith p (p ++ s) = true.
Proof.
  unfold startsWith. induction p as [|c p IH]; [now destruct s|].
  cbn [append String.prefix]. destruct (ascii_dec c c) as [_|N]; [exact IH|now destruct N].
Qed.

Lemma matchLanguage_cons (c : ascii) (s : string) :
  matchLanguage (String c s) =
  if startsWith "language-" (String c s)
  then match takeWhile (fun c => negb (isSpace c)) (skip 9 (String c s)) with
       | "" => matchLanguage s
       | group => Some group
       end
  else matchLanguage s.
Proof. reflexivity. Qed.

Lemma matchLanguage_class (lang rest : string) :
  lang <> "" ->
  all (fun c => negb (isSpace c)) lang = true ->
  rest = "" \/ (exists c r, rest = String c r /\ isSpace c = true) ->
  matchLanguage ("language-" ++ lang ++ rest) = Some lang.
Proof.
  intros Hl Ha Hr.
  change ("language-" ++ lang ++ rest)
    with (String "l" ("anguage-" ++ lang ++ rest)).
  rewrite matchLanguage_cons.
  change (String "l" ("anguage-" ++ lang ++ rest))
    with ("language-" ++ (lang ++ rest)) at 1.
  rewrite startsWith_append.
  change (skip 9 (String "l" ("anguage-" ++ lang ++ rest))) with (lang ++ rest).
  rewrite takeWhile_stop.
  - destruct lang; [now destruct Hl|reflexivity].
  - exact Ha.
  - destruct Hr as [->|(c & r & -> & Hc)]; [now left|].
    right. exists c, r. now rewrite Hc.
Qed.

End CodeBlockFacts.

(** X16: a [pre] whose [code] element carries the class [language-L], with
    [L] free of white space, and holds the code followed by one newline,
    is written as a fence with [L] as its language and the code as its
    body: the one newline at the end goes, nothing else. *)
Theorem fencedCodeBlock_language_and_body
    (querySelectorClass : string -> Dom.Node -> option Dom.Path)
    (el codeEl : Dom.Node) (q : Dom.Path) (lang rest code : string) :
  Dom.querySelector ["code"%string] el = Some q ->
  Dom.nodeAt el q = Some codeEl ->
  Dom.getAttribute "class" (Dom.attrs codeEl) = Some ("language-" ++ lang ++ rest)%string ->
  lang <> EmptyString ->
  JsString.all (fun c => negb (JsString.isSpace c)) lang = true ->
  (rest = EmptyString \/ exists c r, rest = String c r /\ JsString.isSpace c = true) ->
  SelectionOps.textContent codeEl = (code ++ TableMd.nl)%string ->
  CodeBlock.fencedCodeBlock querySelectorClass el =
    (TableMd.nl ++ TableMd.nl ++ "```" ++ lang ++ TableMd.nl
     ++ code ++ TableMd.nl ++ "```" ++ TableMd.nl ++ TableMd.nl)%string.
Proof.
  intros Hq Hn Hc Hl Ha Hr Ht. unfold CodeBlock.fencedCodeBlock.
  rewrite Hq, Hn. cbv zeta. rewrite Hc, Ht. cbn [CodeBlock.orEmpty].
  rewrite (matchLanguage_class lang rest Hl Ha Hr). cbn [CodeBlock.orEmpty].
  now rewrite removeFinalNewline_snoc.
Qed.

Lemma fencedCodeBlock_language_and_body_witness :
  CodeBlock.fencedCodeBlock (fun _ _ => None) CodeBlock.jsBlock =
    (TableMd.nl ++ TableMd.nl ++ "```js" ++ TableMd.nl
     ++ "let x" ++ TableMd.nl ++ "```" ++ TableMd.nl ++ TableMd.nl)%string.
Proof.
  refine (fencedCodeBlock_language_and_body (fun _ _ => None) CodeBlock.jsBlock
            (Dom.Element Dom.HTML "code" [("class", "language-js")]%string
               [Dom.Text ("let x" ++ TableMd.nl)])
            [1] "js" EmptyString "let x" eq_refl eq_refl eq_refl _ eq_refl _ eq_refl).
  - discriminate.
  - now left.
Defined.

(** X17: the header section may hold several rows: the separator line
    comes after the lines of all of them, and has one [---] per cell of
    the first one. *)
Theorem table_header_with_several_rows (turndown : list Dom.Node -> string)
    (otherReplacement : Dom.Node -> string)
    (ha : list (string * string)) (hcells : list Dom.Node) (more rows : list Dom.Node)
    (ta tha tba : list (string * string)) :
  let hrow := Dom.Element Dom.HTML "tr" ha hcells in
  let t := Dom.Element Dom.HTML "table" ta
             [Dom.Element Dom.HTML "thead" tha (hrow :: more);
              Dom.Element Dom.HTML "tbody" tba rows] in
  forallb TableMd.isRow (hrow :: more) = true ->
  forallb TableMd.isRow rows = true ->
  TableMd.replacementForTable turndown otherReplacement t =
    (TableMd.nl ++ TableMd.nl
     ++ TableMd.concatLines (map (TableMd.tableRow turndown) (hrow :: more))
     ++ TableMd.separatorLine (length (filter TableMd.isThTd hcells))
     ++ TableMd.concatLines (map (TableMd.tableRow turndown) rows)
     ++ TableMd.nl)%string.
Proof.
  intros hrow t Hhead Hrows.
  unfold TableMd.replacementForTable, TableMd.tableRule. subst t.
  cbn [Dom.children fold_left].
  set (headRep := TableMd.replacementForSection turndown otherReplacement
                    (Dom.Element Dom.HTML "thead" tha (hrow :: more))).
  set (bodyRep := TableMd.replacementForSection turndown otherReplacement
                    (Dom.Element Dom.HTML "tbody" tba rows)).
  assert (Hh : headRep =
               (TableMd.concatLines (map (TableMd.tableRow turndown) (hrow :: more))
                ++ TableMd.separatorLine (length (filter TableMd.isThTd hcells)))%string).
  { unfold headRep, TableMd.replacementForSection.
    change (Dom.hasTag "THEAD" (Dom.Element Dom.HTML "thead" tha (hrow :: more)))
      with true.
    cbv iota. cbn [Dom.children].
    rewrite processRows_lines by exact Hhead.
    unfold TableMd.tableHead.
    change (Dom.querySelector ["tr"%string]
              (Dom.Element Dom.HTML "thead" tha (hrow :: more)))
      with (Some [0]).
    cbv iota beta.
    change (Dom.nodeAt (Dom.Element Dom.HTML "thead" tha (hrow :: more)) [0])
      with (Some hrow).
    cbv iota beta zeta. unfold hrow. cbn [Dom.children].
    unfold TableMd.separatorLine.
    now rewrite (join_map_const (length (filter TableMd.isThTd hcells)) _ _ eq_refl). }
  assert (Hb : bodyRep = TableMd.concatLines (map (TableMd.tableRow turndown) rows)).
  { unfold bodyRep, TableMd.replacementForSection.
    change (Dom.hasTag "THEAD" (Dom.Element Dom.HTML "tbody" tba rows)) with false.
    change (Dom.hasTag "TBODY" (Dom.Element Dom.HTML "tbody" tba rows)) with true.
    cbv iota. unfold TableMd.tableBody. cbn [Dom.children].
    now apply processRows_lines. }
  destruct (separatorLine_shape (length (filter TableMd.isThTd hcells))) as [Hsn Hse].
  assert (Hj1 : TableMd.join "" headRep = headRep).
  { apply join_empty. rewrite Hh. cbn [map TableMd.concatLines].
    unfold TableMd.tableRow at 1. cbv zeta. apply noLead_bar. }
  rewrite Hj1.
  assert (Hj2 : TableMd.join headRep bodyRep = (headRep ++ bodyRep)%string).
  { apply join_line.
    - rewrite Hh. now apply endsLine_append.
    - rewrite Hb.
      apply (concatLines_shape (map (TableMd.tableRow turndown) rows)).
      apply Forall_forall. intros l Hl. apply in_map_iff in Hl as (row & <- & _).
      apply tableRow_shape. }
  rewrite Hj2, Hh, Hb. now rewrite !append_assoc.
Qed.

Lemma table_header_with_several_rows_witness :
  TableMd.replacementForTable TableMd.textOf (fun _ => EmptyString)
    (TableOps.table
       [TableOps.thead [TableOps.tr [TableOps.th "A"];
                        TableOps.tr [TableOps.th "B"; TableOps.th "C"]];
        TableOps.tbody [TableOps.tr [TableOps.td "1"]]]) =
  (TableMd.nl ++ TableMd.nl
   ++ "| A |" ++ TableMd.nl
   ++ "| B | C |" ++ TableMd.nl
   ++ "| --- |" ++ TableMd.nl
   ++ "| 1 |" ++ TableMd.nl
   ++ TableMd.nl)%string.
Proof.
  exact (table_header_with_several_rows TableMd.textOf (fun _ => EmptyString)
           [] [TableOps.th "A"] [TableOps.tr [TableOps.th "B"; TableOps.th "C"]]
           [TableOps.tr [TableOps.td "1"]] [] [] [] eq_refl eq_refl).
Defined.

(** X18: a table without a header section is written as the lines of its
    body rows alone, between the blank lines: no separator line is
    made. *)
Theorem table_without_header (turndown : list Dom.Node -> string)
    (otherReplacement : Dom.Node -> string) (rows : list Dom.Node)
    (ta tba : list (string * string)) :
  forallb TableMd.isRow rows = true ->
  TableMd.replacementForTable turndown otherReplacement
    (Dom.Element Dom.HTML "table" ta [Dom.Element Dom.HTML "tbody" tba rows]) =
    (TableMd.nl ++ TableMd.nl
     ++ TableMd.concatLines (map (TableMd.tableRow turndown) rows)
     ++ TableMd.nl)%string.
Proof.
  intros Hrows.
  unfold TableMd.replacementForTable, TableMd.tableRule.
  cbn [Dom.children fold_left].
  assert (Hb : TableMd.replacementForSection turndown otherReplacement
                 (Dom.Element Dom.HTML "tbody" tba rows)
               = TableMd.concatLines (map (TableMd.tableRow turndown) rows)).
  { unfold TableMd.replacementForSection.
    change (Dom.hasTag "THEAD" (Dom.Element Dom.HTML "tbody" tba rows)) with false.
    change (Dom.hasTag "TBODY" (Dom.Element Dom.HTML "tbody" tba rows)) with true.
    cbv iota. unfold TableMd.tableBody. cbn [Dom.children].
    now apply processRows_lines. }
  rewrite Hb, join_empty; [reflexivity|].
  apply (concatLines_shape (map (TableMd.tableRow turndown) rows)).
  apply Forall_forall. intros l Hl. apply in_map_iff in Hl as (row & <- & _).
  apply tableRow_shape.
Qed.

Lemma table_without_header_witness :
  TableMd.replacementForTable TableMd.textOf (fun _ => EmptyString)
    (TableOps.table [TableOps.tbody [TableOps.tr [TableOps.td "1"; TableOps.td "2"]]]) =
  (TableMd.nl ++ TableMd.nl ++ "| 1 | 2 |" ++ TableMd.nl ++ TableMd.nl)%string.
Proof.
  exact (table_without_header TableMd.textOf (fun _ => EmptyString)
           [TableOps.tr [TableOps.td "1"; TableOps.td "2"]] [] [] eq_refl).
Defined.

(* ===================================================================== *)
(** * More facts: the column operations and the remove buttons            *)
(* ===================================================================== *)

Section ColumnFacts.
Import Dom TableOps TableCols.

Lemma insertNth_ge {A : Type} (i : nat) (x : A) (l : list A) :
  length l <= i -> insertNth i x l = l ++ [x].
Proof.
  revert i. induction l as [|y l IH]; intros i H; [now destruct i|].
  destruct i as [|i]; [cbn in H; lia|].
  cbn [insertNth app]. rewrite IH; [reflexivity|cbn in H; lia].
Qed.

Lemma removeNth_ge {A : Type} (i : nat) (l : list A) :
  length l <= i -> removeNth i l = l.
Proof.
  revert i. induction l as [|y l IH]; intros i H; [now destruct i|].
  destruct i as [|i]; [cbn in H; lia|].
  cbn [removeNth]. rewrite IH; [reflexivity|cbn in H; lia].
Qed.

Lemma cellAt_some (k : nat) (ch : list Node) :
  k < length (filter isCell ch) -> exists j, cellAt k ch = Some j.
Proof.
  revert k. induction ch as [|c ch IH]; intros k H; [cbn in H; lia|].
  cbn [filter cellAt] in *. destruct (isCell c).
  - destruct k as [|k]; [now exists 0|].
    destruct (IH k) as (j & ->); [cbn in H; lia|]. now exists (S j).
  - destruct (IH k H) as (j & ->). now exists (S j).
Qed.

Lemma cellAt_none (k : nat) (ch : list Node) :
  length (filter isCell ch) <= k -> cellAt k ch = None.
Proof.
  revert k. induction ch as [|c ch IH]; intros k H; [reflexivity|].
  cbn [filter cellAt] in *. destruct (isCell c).
  - destruct k as [|k]; [cbn in H; lia|]. rewrite IH; [reflexivity|cbn in H; lia].
  - now rewrite IH.
Qed.

(** Putting a cell in front of the [k]-th cell of the children puts it at
    index [k] of the cells, and leaves the other children alone. *)
Lemma filter_insert_cellAt (k j : nat) (x : Node) (ch : list Node) :
  isCell x = true -> cellAt k ch = Some j ->
  filter isCell (insertNth j x ch) = insertNth k x (filter isCell ch).
Proof.
  intros Hx. revert k j. induction ch as [|c ch IH]; intros k j H; [discriminate H|].
  cbn [cellAt] in H. destruct (isCell c) eqn:Ec.
  - destruct k as [|k].
    + injection H as <-. cbn [insertNth filter]. now rewrite Hx, Ec.
    + destruct (cellAt k ch) as [j'|] eqn:E; [|discriminate H].
      injection H as <-. cbn [insertNth filter]. rewrite Ec.
      cbn [insertNth]. now rewrite (IH k j' E).
  - destruct (cellAt k ch) as [j'|] eqn:E; [|discriminate H].
    injection H as <-. cbn [insertNth filter]. rewrite Ec. now apply IH.
Qed.

Lemma filter_insert_other (P : Node -> bool) (j : nat) (x : Node) (ch : list Node) :
  P x = false -> filter P (insertNth j x ch) = filter P ch.
Proof.
  intros Hx. revert j. induction ch as [|c ch IH]; intros j.
  - destruct j; cbn [insertNth filter]; now rewrite Hx.
  - destruct j as [|j]; cbn [insertNth filter]; [now rewrite Hx|].
    now rewrite IH.
Qed.

Lemma filter_remove_cellAt (k j : nat) (ch : list Node) :
  cellAt k ch = Some j ->
  filter isCell (removeNth j ch) = removeNth k (filter isCell ch) /\
  filter (fun c => negb (isCell c)) (removeNth j ch)
  = filter (fun c => negb (isCell c)) ch.
Proof.
  revert k j. induction ch as [|c ch IH]; intros k j H; [discriminate H|].
  cbn [cellAt] in H. destruct (isCell c) eqn:Ec.
  - destruct k as [|k].
    + injection H as <-. cbn [removeNth filter]. now rewrite Ec.
    + destruct (cellAt k ch) as [j'|] eqn:E; [|discriminate H].
      injection H as <-. cbn [removeNth filter]. rewrite Ec. cbn [negb removeNth].
      destruct (IH k j' E) as [-> ->]. now split.
  - destruct (cellAt k ch) as [j'|] eqn:E; [|discriminate H].
    injection H as <-. cbn [removeNth filter]. rewrite Ec. cbn [negb].
    destruct (IH k j' E) as [-> ->]. now split.
Qed.

Lemma isHtml_isElement (name : string) (n : Node) :
  isHtml name n = true -> isElement n = true.
Proof. now destruct n. Qed.

Lemma newCell_isCell (h : bool) : isCell (newCell h) = true.
Proof. now destruct h. Qed.

(** The row after a turn of the loop of [insertColumnAt]. *)
Lemma cells_insertCellInto (colIdx : Z) (h : bool) (rn : Node) :
  isElement rn = true ->
  cells (insertCellInto colIdx h rn)
  = insertNth (place colIdx (cells rn)) (newCell h) (cells rn) /\
  others (insertCellInto colIdx h rn) = others rn.
Proof.
  intros He. unfold insertCellInto, cells, others.
  rewrite children_setChildren by exact He. split.
  - unfold insertionIndex, place, cells.
    destruct (Z.leb_spec (Z.of_nat (length (filter isCell (children rn)))) colIdx) as [H|H].
    + rewrite insertNth_ge by lia. rewrite filter_app. cbn [filter].
      rewrite newCell_isCell.
      destruct (Z.ltb_spec colIdx 0) as [H0|H0]; [lia|].
      rewrite insertNth_ge by lia. reflexivity.
    + destruct (Z.ltb_spec colIdx 0) as [H0|H0].
      * rewrite !insertNth_ge by lia. rewrite filter_app. cbn [filter].
        now rewrite newCell_isCell.
      * destruct (cellAt_some (Z.to_nat colIdx) (children rn)) as (j & Ej); [lia|].
        rewrite Ej. apply filter_insert_cellAt; [apply newCell_isCell|exact Ej].
  - apply filter_insert_other. now rewrite newCell_isCell.
Qed.

(** The row after a turn of the loop of [removeColumn]. *)
Lemma cells_removeCellFrom (colIdx : Z) (rn : Node) :
  isElement rn = true ->
  cells (removeCellFrom colIdx rn) = removeNth (Z.to_nat colIdx) (cells rn) /\
  others (removeCellFrom colIdx rn) = others rn.
Proof.
  intros He. unfold removeCellFrom, cells, others.
  destruct (cellAt (Z.to_nat colIdx) (children rn)) as [j|] eqn:E.
  - rewrite children_setChildren by exact He. now apply filter_remove_cellAt.
  - split; [|reflexivity].
    destruct (Nat.lt_ge_cases (Z.to_nat colIdx) (length (filter isCell (children rn))))
      as [H|H].
    + destruct (cellAt_some _ _ H) as (j & Ej). congruence.
    + now rewrite removeNth_ge.
Qed.

Lemma hasTag_setChildren (t : string) (ch : list Node) (n : Node) :
  hasTag t (setChildren ch n) = hasTag t n.
Proof. now destruct n. Qed.

Lemma nodeAt_updateAt_apart (f : Node -> Node) (b : Node) (c q : Path) :
  apart c q = true -> nodeAt (updateAt f c b) q = nodeAt b q.
Proof.
  intros H. destruct (apart_split c q H) as (x & i & j & t & t' & Hne & -> & ->).
  now apply nodeAt_updateAt_off.
Qed.

(** A change at a node apart from [r] does not change what the parent of
    [r] is. *)
Lemma parentHasTag_updateAt_apart (t : string) (f : Node -> Node) (b : Node)
    (c r : Path) :
  apart c r = true -> nodeAt b r <> None ->
  parentHasTag t (updateAt f c b) r = parentHasTag t b r.
Proof.
  intros H Hr. destruct (apart_split c r H) as (x & i & j & u & u' & Hne & -> & ->).
  assert (E : parentPath (x ++ j :: u') = Some (removelast (x ++ j :: u')))
    by (now destruct x).
  unfold parentHasTag. rewrite E. clear E.
  rewrite removelast_app by discriminate.
  destruct u' as [|k u'].
  - cbn [removelast]. rewrite app_nil_r, updateAt_app.
    destruct (nodeAt b x) as [n|] eqn:En.
    + rewrite (nodeAt_updateAt_here _ b n x En). cbn [updateAt].
      now rewrite hasTag_setChildren.
    + rewrite nodeAt_app, En in Hr. now destruct Hr.
  - change (removelast (j :: k :: u')) with (j :: removelast (k :: u')).
    now rewrite nodeAt_updateAt_off.
Qed.

Lemma remove_snoc (row : Path) (k : nat) (b : Node) :
  remove (row ++ [k]) b
  = updateAt (fun parent => setChildren (removeNth k (children parent)) parent) row b.
Proof.
  unfold remove. destruct (row ++ [k]) as [|i rest] eqn:E; [now destruct row|].
  rewrite <- E. now rewrite removelast_snoc, last_snoc.
Qed.

Lemma shiftInsert_apart (row p : Path) (k : nat) :
  apart row p = true -> shiftInsert row k p = p.
Proof. intros H. unfold shiftInsert. now rewrite (apart_not_prefix row p H). Qed.

Lemma shiftRemove_apart (row p : Path) (k : nat) :
  apart row p = true -> shiftRemove row k p = Some p.
Proof. intros H. unfold shiftRemove. now rewrite (apart_not_prefix row p H). Qed.

Lemma pairwiseApart_cons (r : Path) (rest : list Path) :
  pairwiseApart (r :: rest) = true ->
  (forall q, In q rest -> apart r q = true) /\ pairwiseApart rest = true.
Proof.
  cbn [pairwiseApart]. intros H. apply andb_true_iff in H as [H1 H2].
  split; [|exact H2]. now apply forallb_forall.
Qed.

Lemma plain_rows (b : Node) (rows : list Path) :
  plain b rows = true ->
  pairwiseApart rows = true /\
  forall r, In r rows -> exists n, nodeAt b r = Some n /\ isHtml "tr" n = true.
Proof.
  unfold plain. intros H. apply andb_true_iff in H as [H1 H2].
  split; [exact H1|]. intros r Hr. rewrite forallb_forall in H2.
  specialize (H2 r Hr). destruct (nodeAt b r) as [n|]; [|discriminate H2].
  now exists n.
Qed.

(** On rows that are pairwise apart the loop of [insertColumnAt] does not
    throw, and gives every row its cell. *)
Lemma insertColumnLoop_plain (colIdx : Z) (rows : list Path) :
  forall b loc,
    pairwiseApart rows = true ->
    (forall r, In r rows -> loc r = r) ->
    (forall r, In r rows -> exists n, nodeAt b r = Some n /\ isHtml "tr" n = true) ->
    exists b',
      insertColumnLoop colIdx loc rows b = Returned tt b' /\
      (forall r n, In r rows -> nodeAt b r = Some n ->
         nodeAt b' r = Some (insertCellInto colIdx (parentHasTag "THEAD" b r) n)) /\
      (forall q, (forall r, In r rows -> apart r q = true) -> nodeAt b' q = nodeAt b q).
Proof.
  induction rows as [|row rest IH]; intros b loc Hap Hloc Hrows.
  - exists b. split; [reflexivity|]. split; [intros r n []|reflexivity].
  - destruct (pairwiseApart_cons _ _ Hap) as [Hrow Hrest].
    destruct (Hrows row (or_introl eq_refl)) as (n & Hn & Htr).
    cbn [insertColumnLoop]. rewrite (Hloc row (or_introl eq_refl)), Hn.
    unfold rowCells. rewrite Htr. cbv zeta.
    set (k := insertionIndex colIdx n). set (h := parentHasTag "THEAD" b row).
    assert (Hb1 : forall q, apart row q = true ->
                    nodeAt (insertChild row k (newCell h) b) q = nodeAt b q).
    { intros q Hq. unfold insertChild. now apply nodeAt_updateAt_apart. }
    destruct (IH (insertChild row k (newCell h) b)
                (fun p => shiftInsert row k (loc p)) Hrest)
      as (b' & Hrun & Hat & Hframe).
    + intros r Hr. rewrite (Hloc r (or_intror Hr)). apply shiftInsert_apart.
      now apply Hrow.
    + intros r Hr. destruct (Hrows r (or_intror Hr)) as (m & Hm & Hmt).
      exists m. split; [|exact Hmt]. rewrite Hb1; [exact Hm|now apply Hrow].
    + exists b'. split; [exact Hrun|]. split.
      * intros r m [<-|Hr] Hm.
        -- rewrite Hframe by (intros r Hr; rewrite apart_sym; now apply Hrow).
           rewrite Hn in Hm. injection Hm as <-.
           unfold insertChild. now rewrite (nodeAt_updateAt_here _ b n row Hn).
        -- rewrite (Hat r m Hr) by (rewrite Hb1; [exact Hm|now apply Hrow]).
           unfold insertChild. rewrite parentHasTag_updateAt_apart;
             [reflexivity|now apply Hrow|now rewrite Hm].
      * intros q Hq. rewrite Hframe by (intros r Hr; apply Hq; now right).
        apply Hb1. apply Hq. now left.
Qed.

(** The same for the loop of [removeColumn]. *)
Lemma removeColumnLoop_plain (orig : Node) (colIdx : Z) (rows : list Path) :
  (0 <= colIdx)%Z ->
  forall b loc,
    pairwiseApart rows = true ->
    (forall r, In r rows -> loc r = Some r) ->
    (forall r, In r rows -> exists n, nodeAt b r = Some n /\ isHtml "tr" n = true) ->
    exists b',
      removeColumnLoop orig colIdx loc rows b = Returned true b' /\
      (forall r n, In r rows -> nodeAt b r = Some n ->
         nodeAt b' r = Some (removeCellFrom colIdx n)) /\
      (forall q, (forall r, In r rows -> apart r q = true) -> nodeAt b' q = nodeAt b q).
Proof.
  intros H0. induction rows as [|row rest IH]; intros b loc Hap Hloc Hrows.
  - exists b. split; [reflexivity|]. split; [intros r n []|reflexivity].
  - destruct (pairwiseApart_cons _ _ Hap) as [Hrow Hrest].
    destruct (Hrows row (or_introl eq_refl)) as (n & Hn & Htr).
    cbn [removeColumnLoop]. rewrite (Hloc row (or_introl eq_refl)), Hn.
    unfold rowCells. rewrite Htr.
    destruct (Z.ltb_spec colIdx (Z.of_nat (length (cells n)))) as [Hlt|Hge].
    + destruct (Z.ltb_spec colIdx 0) as [Hneg|_]; [lia|].
      destruct (cellAt_some (Z.to_nat colIdx) (children n)) as (k & Ek);
        [unfold cells in Hlt; lia|].
      rewrite Ek, remove_snoc.
      set (f := fun parent : Node => setChildren (removeNth k (children parent)) parent).
      assert (Hb1 : forall q, apart row q = true ->
                      nodeAt (updateAt f row b) q = nodeAt b q)
        by (intros q Hq; now apply nodeAt_updateAt_apart).
      destruct (IH (updateAt f row b)
                  (fun p => match loc p with
                            | Some q => shiftRemove row k q
                            | None => None
                            end) Hrest)
        as (b' & Hrun & Hat & Hframe).
      * intros r Hr. rewrite (Hloc r (or_intror Hr)). apply shiftRemove_apart.
        now apply Hrow.
      * intros r Hr. destruct (Hrows r (or_intror Hr)) as (m & Hm & Hmt).
        exists m. split; [|exact Hmt]. rewrite Hb1; [exact Hm|now apply Hrow].
      * exists b'. split; [exact Hrun|]. split.
        -- intros r m [<-|Hr] Hm.
           ++ rewrite Hframe by (intros r Hr; rewrite apart_sym; now apply Hrow).
              rewrite Hn in Hm. injection Hm as <-.
              rewrite (nodeAt_updateAt_here f b n row Hn).
              unfold removeCellFrom. now rewrite Ek.
           ++ apply (Hat r m Hr). rewrite Hb1; [exact Hm|now apply Hrow].
        -- intros q Hq. rewrite Hframe by (intros r Hr; apply Hq; now right).
           apply Hb1. apply Hq. now left.
    + destruct (IH b loc Hrest) as (b' & Hrun & Hat & Hframe).
      * intros r Hr. apply Hloc. now right.
      * intros r Hr. apply Hrows. now right.
      * exists b'. split; [exact Hrun|]. split.
        -- intros r m [<-|Hr] Hm.
           ++ rewrite Hframe by (intros r Hr; rewrite apart_sym; now apply Hrow).
              rewrite Hm. f_equal. rewrite Hn in Hm. injection Hm as <-.
              unfold removeCellFrom.
              rewrite cellAt_none; [reflexivity|unfold cells in Hge; lia].
           ++ now apply Hat.
        -- intros q Hq. apply Hframe. intros r Hr. apply Hq. now right.
Qed.

(** In a table whose rows are HTML [tr] elements [getColumnCount]
    returns. *)
Lemma getColumnCount_plain (b : Node) (tbl : Path) (tn : Node) :
  nodeAt b tbl = Some tn -> plain b (rowsOf tbl tn) = true ->
  exists n, getColumnCount tn = Some n.
Proof.
  intros Ht Hp. destruct (plain_rows _ _ Hp) as [_ Hrows].
  unfold getColumnCount.
  destruct (querySelector ["tr"%string] tn) as [p|] eqn:Eq; [|now exists 0].
  destruct (nodeAt tn p) as [fr|] eqn:Ef; [|now exists 0].
  assert (Hin : In (tbl ++ p) (rowsOf tbl tn)).
  { unfold rowsOf. apply in_map. unfold querySelector in Eq.
    destruct (querySelectorAll ["tr"%string] tn); [discriminate Eq|].
    injection Eq as ->. now left. }
  destruct (Hrows _ Hin) as (n & Hn & Htr).
  rewrite nodeAt_app, Ht, Ef in Hn. injection Hn as <-.
  rewrite Htr. now eexists.
Qed.

End ColumnFacts.

(** X19: in a table whose rows are HTML [tr] elements that hold no rows,
    [addColumnLeft] and [addColumnRight] return without throwing and give
    every row of the table exactly one new cell, [th] "Header" in a row of
    the [thead] and [td] with a no-break space elsewhere: at the index of
    the active cell, or the index after it, among the cells of the row, and
    behind the last cell in a row that is too short.  The other cells keep
    their order and the other children of the row stay. *)
Theorem addColumn_in_every_row (b : Dom.Node) (cell tbl : Dom.Path) (tn : Dom.Node)
    (c : Z) :
  Dom.closest ["table"%string] b cell = Some tbl ->
  Dom.nodeAt b tbl = Some tn ->
  TableCols.plain b (TableCols.rowsOf tbl tn) = true ->
  TableCols.getCellIndex cell b = Some c ->
  exists left right,
    TableCols.addColumnLeft cell b = TableCols.Returned tt left /\
    TableCols.addColumnRight cell b = TableCols.Returned tt right /\
    forall r rn,
      In r (TableCols.rowsOf tbl tn) -> Dom.nodeAt b r = Some rn ->
      let new := TableCols.newCell (TableOps.parentHasTag "THEAD" b r) in
      (exists rn',
         Dom.nodeAt left r = Some rn' /\
         Dom.cells rn' = Dom.insertNth (TableCols.place c (Dom.cells rn)) new (Dom.cells rn) /\
         TableCols.others rn' = TableCols.others rn) /\
      (exists rn',
         Dom.nodeAt right r = Some rn' /\
         Dom.cells rn'
         = Dom.insertNth (TableCols.place (c + 1) (Dom.cells rn)) new (Dom.cells rn) /\
         TableCols.others rn' = TableCols.others rn).
Proof.
  intros Hc Ht Hp Hi. destruct (plain_rows _ _ Hp) as [Hap Hrows].
  destruct (insertColumnLoop_plain c (TableCols.rowsOf tbl tn) b (fun p => p) Hap
              (fun r _ => eq_refl) Hrows) as (left & Hl & Hlat & _).
  destruct (insertColumnLoop_plain (c + 1) (TableCols.rowsOf tbl tn) b (fun p => p) Hap
              (fun r _ => eq_refl) Hrows) as (right & Hr & Hrat & _).
  exists left, right.
  unfold TableCols.addColumnLeft, TableCols.addColumnRight, TableCols.insertColumnAt.
  rewrite Hc, Hi, Ht. split; [exact Hl|]. split; [exact Hr|].
  intros r rn Hin Hrn.
  destruct (Hrows r Hin) as (n & Hn & Htr). rewrite Hrn in Hn. injection Hn as <-.
  pose proof (isHtml_isElement _ _ Htr) as He. split.
  - exists (TableCols.insertCellInto c (TableOps.parentHasTag "THEAD" b r) rn).
    split; [now apply Hlat|]. now apply cells_insertCellInto.
  - exists (TableCols.insertCellInto (c + 1) (TableOps.parentHasTag "THEAD" b r) rn).
    split; [now apply Hrat|]. now apply cells_insertCellInto.
Qed.

Lemma addColumn_in_every_row_witness :
  exists left right,
    TableCols.addColumnLeft [0; 0; 1; 0; 1] TableOps.plainTable
      = TableCols.Returned tt left /\
    TableCols.addColumnRight [0; 0; 1; 0; 1] TableOps.plainTable
      = TableCols.Returned tt right /\
    forall r rn,
      In r (TableCols.rowsOf [0; 0]
              (TableOps.table
                 [TableOps.thead [TableOps.tr [TableOps.th "A"; TableOps.th "B"]];
                  TableOps.tbody [TableOps.tr [TableOps.td "1"; TableOps.td "2"];
                                  TableOps.tr [TableOps.td "3"; TableOps.td "4"]]])) ->
      Dom.nodeAt TableOps.plainTable r = Some rn ->
      let new := TableCols.newCell (TableOps.parentHasTag "THEAD" TableOps.plainTable r) in
      (exists rn',
         Dom.nodeAt left r = Some rn' /\
         Dom.cells rn' = Dom.insertNth (TableCols.place 1 (Dom.cells rn)) new (Dom.cells rn) /\
         TableCols.others rn' = TableCols.others rn) /\
      (exists rn',
         Dom.nodeAt right r = Some rn' /\
         Dom.cells rn'
         = Dom.insertNth (TableCols.place (1 + 1) (Dom.cells rn)) new (Dom.cells rn) /\
         TableCols.others rn' = TableCols.others rn).
Proof.
  exact (addColumn_in_every_row TableOps.plainTable [0; 0; 1; 0; 1] [0; 0] _ 1%Z
           eq_refl eq_refl eq_refl eq_refl).
Defined.

(** X20: in such a table, for an active cell that is a cell of its row,
    [getColumnCount] returns a count and [removeColumn] returns without
    throwing.  It returns what [canRemoveColumn] tells: [false], leaving
    the document as it is, when the first row has at most one cell;
    otherwise [true], and every row that has a cell at the index of the
    active cell loses that cell and nothing else, while a shorter row
    stays as it is. *)
Theorem removeColumn_in_every_row (b : Dom.Node) (cell tbl : Dom.Path) (tn : Dom.Node)
    (c : Z) :
  Dom.closest ["table"%string] b cell = Some tbl ->
  Dom.nodeAt b tbl = Some tn ->
  TableCols.plain b (TableCols.rowsOf tbl tn) = true ->
  TableCols.getCellIndex cell b = Some c ->
  (0 <= c)%Z ->
  exists count,
    TableOps.getColumnCount tn = Some count /\
    TableCols.canRemoveColumn (Some cell) b = Some (1 <? count) /\
    exists b',
      TableCols.removeColumn cell b = TableCols.Returned (1 <? count) b' /\
      (count <= 1 -> b' = b) /\
      (1 < count ->
       forall r rn,
         In r (TableCols.rowsOf tbl tn) -> Dom.nodeAt b r = Some rn ->
         exists rn',
           Dom.nodeAt b' r = Some rn' /\
           Dom.cells rn' = Dom.removeNth (Z.to_nat c) (Dom.cells rn) /\
           TableCols.others rn' = TableCols.others rn).
Proof.
  intros Hc Ht Hp Hi H0. destruct (plain_rows _ _ Hp) as [Hap Hrows].
  destruct (getColumnCount_plain b tbl tn Ht Hp) as (count & Hcc).
  exists count. split; [exact Hcc|]. split.
  - unfold TableCols.canRemoveColumn. now rewrite Hc, Ht, Hcc.
  - unfold TableCols.removeColumn. rewrite Hc, Ht, Hi, Hcc.
    destruct (Nat.leb_spec count 1) as [Hle|Hgt].
    + exists b. replace (1 <? count) with false
        by (symmetry; apply Nat.ltb_ge; lia).
      split; [reflexivity|]. split; [reflexivity|lia].
    + destruct (removeColumnLoop_plain b c (TableCols.rowsOf tbl tn) H0 b Some Hap
                  (fun r _ => eq_refl) Hrows) as (b' & Hrun & Hat & _).
      exists b'. replace (1 <? count) with true
        by (symmetry; apply Nat.ltb_lt; lia).
      split; [exact Hrun|]. split; [lia|].
      intros _ r rn Hin Hrn.
      destruct (Hrows r Hin) as (n & Hn & Htr). rewrite Hrn in Hn. injection Hn as <-.
      exists (TableCols.removeCellFrom c rn). split; [now apply Hat|].
      apply cells_removeCellFrom. exact (isHtml_isElement _ _ Htr).
Qed.

Lemma removeColumn_in_every_row_witness :
  TableCols.canRemoveColumn (Some [0; 0; 1; 0; 1]) TableOps.raggedTable = Some true /\
  exists b',
    TableCols.removeColumn [0; 0; 1; 0; 1] TableOps.raggedTable
    = TableCols.Returned true b'.
Proof.
  destruct (removeColumn_in_every_row TableOps.raggedTable [0; 0; 1; 0; 1] [0; 0] _ 1%Z
              eq_refl eq_refl eq_refl eq_refl ltac:(discriminate))
    as (count & Hcount & H1 & b' & H2 & _).
  injection Hcount as <-.
  split; [exact H1|]. exists b'. exact H2.
Defined.

(** X21: for an active cell inside a row, whenever [canRemoveRow] enables
    the button [removeRow] removes the row; and when the table has a
    [tbody] the two agree: the button is enabled exactly when [removeRow]
    would succeed. *)
Theorem canRemoveRow_agrees_with_removeRow (b : Dom.Node) (cell : Dom.Path) :
  Dom.closest ["tr"%string] b cell <> None ->
  (TableCols.canRemoveRow (Some cell) b = true ->
   fst (TableOps.removeRow cell b) = true) /\
  ((forall tbl tn,
      Dom.closest ["table"%string] b cell = Some tbl -> Dom.nodeAt b tbl = Some tn ->
      Dom.querySelector ["tbody"%string] tn <> None) ->
   fst (TableOps.removeRow cell b) = TableCols.canRemoveRow (Some cell) b).
Proof.
  intros Hrow. unfold TableCols.canRemoveRow, TableOps.removeRow.
  destruct (Dom.closest ["tr"%string] b cell) as [row|]; [|now destruct Hrow].
  destruct (Dom.closest ["table"%string] b cell) as [tbl|]; [|split; [discriminate|reflexivity]].
  destruct (Dom.nodeAt b tbl) as [tn|] eqn:En; [|split; [discriminate|reflexivity]].
  cbv zeta.
  destruct (TableOps.parentHasTag "THEAD" b row); [split; [discriminate|reflexivity]|].
  destruct (Dom.querySelector ["tbody"%string] tn) as [tb|] eqn:Eq.
  - destruct (querySelector_sound _ _ _ Eq) as (tbody & Htb & _). rewrite Htb.
    destruct (Nat.leb_spec (length (Dom.querySelectorAll ["tr"%string] tbody)) 1)
      as [Hle|Hgt].
    + replace (1 <? length (Dom.querySelectorAll ["tr"%string] tbody)) with false
        by (symmetry; apply Nat.ltb_ge; lia).
      split; [discriminate|reflexivity].
    + replace (1 <? length (Dom.querySelectorAll ["tr"%string] tbody)) with true
        by (symmetry; apply Nat.ltb_lt; lia).
      split; reflexivity.
  - split; [discriminate|]. intros H. now destruct (H tbl tn eq_refl En).
Qed.

Lemma canRemoveRow_agrees_with_removeRow_witness :
  fst (TableOps.removeRow [0; 0; 1; 0; 1] TableOps.plainTable) = true.
Proof.
  refine (proj1 (canRemoveRow_agrees_with_removeRow TableOps.plainTable
                   [0; 0; 1; 0; 1] _) eq_refl).
  discriminate.
Defined.

Section CellIndexFacts.
Import Dom TableOps TableCols.

Lemma parentPath_snoc (row : Path) (i : nat) : parentPath (row ++ [i]) = Some row.
Proof.
  unfold parentPath. destruct (row ++ [i]) as [|j rest] eqn:E; [now destruct row|].
  now rewrite <- E, removelast_snoc.
Qed.

(** The child at index [i], when it is a cell, is the cell number "cells
    before it" of the row. *)
Lemma nth_error_cells (ch : list Node) (i : nat) (cn : Node) :
  nth_error ch i = Some cn -> isCell cn = true ->
  nth_error (filter isCell ch) (length (filter isCell (firstn i ch))) = Some cn /\
  cellAt (length (filter isCell (firstn i ch))) ch = Some i.
Proof.
  revert i. induction ch as [|c ch IH]; intros i H Hc; [destruct i; discriminate H|].
  destruct i as [|i].
  - injection H as ->. cbn [firstn filter length cellAt]. rewrite Hc. now split.
  - cbn [nth_error] in H. destruct (IH i H Hc) as [IH1 IH2].
    cbn [firstn filter cellAt]. destruct (isCell c); cbn [length nth_error].
    + now rewrite IH1, IH2.
    + now rewrite IH1, IH2.
Qed.

Lemma getCellIndex_at (b : Node) (row : Path) (i : nat) (rn : Node) :
  nodeAt b row = Some rn -> isHtml "tr" rn = true ->
  getCellIndex (row ++ [i]) b = Some (cellPosition i (children rn)).
Proof.
  intros Hr Ht. unfold getCellIndex. rewrite parentPath_snoc, Hr, last_snoc.
  unfold rowCells. now rewrite Ht.
Qed.

Lemma nth_error_insertNth_before {A : Type} (x : A) (l : list A) (i j : nat) :
  j < i -> j < length l -> nth_error (insertNth i x l) j = nth_error l j.
Proof.
  revert i j. induction l as [|y l IH]; intros i j Hji Hj; [cbn in Hj; lia|].
  destruct i as [|i]; [lia|]. destruct j as [|j]; [reflexivity|].
  cbn [insertNth nth_error]. apply IH; [lia|cbn in Hj; lia].
Qed.

Lemma nth_error_insertNth_after {A : Type} (x : A) (l : list A) (i j : nat) :
  i <= j -> i <= length l -> nth_error (insertNth i x l) (S j) = nth_error l j.
Proof.
  revert i j. induction l as [|y l IH]; intros i j Hij Hi.
  - assert (i = 0) by (cbn in Hi; lia). subst i. reflexivity.
  - destruct i as [|i]; [reflexivity|]. destruct j as [|j]; [lia|].
    cbn [insertNth nth_error]. apply IH; [lia|cbn in Hi; lia].
Qed.

Lemma nth_error_insertNth_at {A : Type} (x : A) (l : list A) (i : nat) :
  i <= length l -> nth_error (insertNth i x l) i = Some x.
Proof.
  intros H. rewrite <- (Nat.min_l i (length l) H) at 2. apply nth_error_insertNth.
Qed.

End CellIndexFacts.

(** X22: for a child of an HTML [tr], [getCellIndex] returns the number of
    cells of the row before it when the child is a cell, which is where
    [row.cells] has it, and -1 when it is no cell. *)
Theorem getCellIndex_is_the_place_in_the_row (b : Dom.Node) (row : Dom.Path) (i : nat)
    (rn cn : Dom.Node) :
  Dom.nodeAt b row = Some rn ->
  TableOps.isHtml "tr" rn = true ->
  nth_error (Dom.children rn) i = Some cn ->
  (Dom.isCell cn = true ->
   exists k,
     TableCols.getCellIndex (row ++ [i]) b = Some (Z.of_nat k) /\
     nth_error (Dom.cells rn) k = Some cn /\
     k = length (Dom.cells (Dom.setChildren (firstn i (Dom.children rn)) rn))) /\
  (Dom.isCell cn = false -> TableCols.getCellIndex (row ++ [i]) b = Some (-1)%Z).
Proof.
  intros Hr Ht Hn. rewrite (getCellIndex_at b row i rn Hr Ht).
  unfold TableCols.cellPosition. rewrite Hn. split; intros Hc; rewrite Hc; [|reflexivity].
  exists (length (filter Dom.isCell (firstn i (Dom.children rn)))).
  split; [reflexivity|]. split.
  - now apply nth_error_cells.
  - unfold Dom.cells. rewrite children_setChildren; [reflexivity|].
    exact (isHtml_isElement _ _ Ht).
Qed.

Lemma getCellIndex_is_the_place_in_the_row_witness :
  TableCols.getCellIndex ([0; 0; 1; 0] ++ [1]) TableOps.plainTable = Some 1%Z.
Proof.
  destruct (proj1 (getCellIndex_is_the_place_in_the_row TableOps.plainTable
                     [0; 0; 1; 0] 1
                     (TableOps.tr [TableOps.td "1"; TableOps.td "2"])
                     (TableOps.td "2") eq_refl eq_refl eq_refl) eq_refl)
    as (k & Hk & _ & ->).
  exact Hk.
Defined.

(** X23: in a table whose rows are HTML [tr] elements that hold no rows,
    [addColumnRight] puts the new cell of the active cell's row right
    behind the active cell, and [addColumnLeft] puts it right before: the
    active cell keeps its place among the cells in the first case and
    moves up by one in the second. *)
Theorem addColumn_next_to_the_active_cell (b : Dom.Node) (tbl row : Dom.Path)
    (i : nat) (tn rn cn : Dom.Node) :
  Dom.closest ["table"%string] b (row ++ [i]) = Some tbl ->
  Dom.nodeAt b tbl = Some tn ->
  TableCols.plain b (TableCols.rowsOf tbl tn) = true ->
  In row (TableCols.rowsOf tbl tn) ->
  Dom.nodeAt b row = Some rn ->
  nth_error (Dom.children rn) i = Some cn ->
  Dom.isCell cn = true ->
  exists k left right rl rr,
    nth_error (Dom.cells rn) k = Some cn /\
    TableCols.addColumnLeft (row ++ [i]) b = TableCols.Returned tt left /\
    TableCols.addColumnRight (row ++ [i]) b = TableCols.Returned tt right /\
    Dom.nodeAt left row = Some rl /\ Dom.nodeAt right row = Some rr /\
    nth_error (Dom.cells rl) k
      = Some (TableCols.newCell (TableOps.parentHasTag "THEAD" b row)) /\
    nth_error (Dom.cells rl) (S k) = Some cn /\
    nth_error (Dom.cells rr) k = Some cn /\
    nth_error (Dom.cells rr) (S k)
      = Some (TableCols.newCell (TableOps.parentHasTag "THEAD" b row)).
Proof.
  intros Hc Ht Hp Hin Hrn Hn Hcell.
  destruct (plain_rows _ _ Hp) as [Hap Hrows].
  destruct (Hrows row Hin) as (n & Hn' & Htr). rewrite Hrn in Hn'. injection Hn' as <-.
  pose proof (isHtml_isElement _ _ Htr) as He.
  set (k := length (filter Dom.isCell (firstn i (Dom.children rn)))).
  destruct (nth_error_cells (Dom.children rn) i cn Hn Hcell) as [Hk _]. fold k in Hk.
  assert (Hlen : k < length (Dom.cells rn)).
  { apply nth_error_Some. unfold Dom.cells. now rewrite Hk. }
  assert (Hi : TableCols.getCellIndex (row ++ [i]) b = Some (Z.of_nat k)).
  { rewrite (getCellIndex_at b row i rn Hrn Htr). unfold TableCols.cellPosition.
    now rewrite Hn, Hcell. }
  destruct (insertColumnLoop_plain (Z.of_nat k) (TableCols.rowsOf tbl tn) b
              (fun p => p) Hap (fun r _ => eq_refl) Hrows) as (left & Hl & Hlat & _).
  destruct (insertColumnLoop_plain (Z.of_nat k + 1) (TableCols.rowsOf tbl tn) b
              (fun p => p) Hap (fun r _ => eq_refl) Hrows) as (right & Hr & Hrat & _).
  set (new := TableCols.newCell (TableOps.parentHasTag "THEAD" b row)).
  exists k, left, right,
    (TableCols.insertCellInto (Z.of_nat k) (TableOps.parentHasTag "THEAD" b row) rn),
    (TableCols.insertCellInto (Z.of_nat k + 1) (TableOps.parentHasTag "THEAD" b row) rn).
  unfold TableCols.addColumnLeft, TableCols.addColumnRight, TableCols.insertColumnAt.
  rewrite Hc, Hi, Ht.
  destruct (cells_insertCellInto (Z.of_nat k) (TableOps.parentHasTag "THEAD" b row) rn He)
    as [El _].
  destruct (cells_insertCellInto (Z.of_nat k + 1)
              (TableOps.parentHasTag "THEAD" b row) rn He) as [Er _].
  rewrite El, Er. unfold TableCols.place.
  replace (Z.of_nat k <? 0)%Z with false by (symmetry; apply Z.ltb_ge; lia).
  replace (Z.of_nat k + 1 <? 0)%Z with false by (symmetry; apply Z.ltb_ge; lia).
  replace (Z.to_nat (Z.of_nat k + 1)) with (S k) by lia. rewrite Nat2Z.id.
  fold new. unfold Dom.cells in Hlen |- *.
  split; [exact Hk|]. split; [exact Hl|]. split; [exact Hr|].
  split; [now apply Hlat|]. split; [now apply Hrat|].
  split; [apply nth_error_insertNth_at; lia|].
  split; [rewrite nth_error_insertNth_after by lia; exact Hk|].
  split; [rewrite nth_error_insertNth_before by lia; exact Hk|].
  apply nth_error_insertNth_at; lia.
Qed.

Lemma addColumn_next_to_the_active_cell_witness :
  exists k left right rl rr,
    nth_error (Dom.cells (TableOps.tr [TableOps.td "1"; TableOps.td "2"])) k
      = Some (TableOps.td "1") /\
    TableCols.addColumnLeft ([0; 0; 1; 0] ++ [0]) TableOps.plainTable
      = TableCols.Returned tt left /\
    TableCols.addColumnRight ([0; 0; 1; 0] ++ [0]) TableOps.plainTable
      = TableCols.Returned tt right /\
    Dom.nodeAt left [0; 0; 1; 0] = Some rl /\ Dom.nodeAt right [0; 0; 1; 0] = Some rr /\
    nth_error (Dom.cells rl) k
      = Some (TableCols.newCell
                (TableOps.parentHasTag "THEAD" TableOps.plainTable [0; 0; 1; 0])) /\
    nth_error (Dom.cells rl) (S k) = Some (TableOps.td "1") /\
    nth_error (Dom.cells rr) k = Some (TableOps.td "1") /\
    nth_error (Dom.cells rr) (S k)
      = Some (TableCols.newCell
                (TableOps.parentHasTag "THEAD" TableOps.plainTable [0; 0; 1; 0])).
Proof.
  refine (addColumn_next_to_the_active_cell TableOps.plainTable [0; 0] [0; 0; 1; 0] 0
            _ (TableOps.tr [TableOps.td "1"; TableOps.td "2"]) (TableOps.td "1")
            eq_refl eq_refl eq_refl _ eq_refl eq_refl eq_refl).
  vm_compute. right. left. reflexivity.
Defined.

(* ===================================================================== *)
(** * More facts: the shape of a slug                                     *)
(* ===================================================================== *)

Section SlugShapeFacts.
Import JsString Slug SlugShape.
Local Open Scope string_scope.

Ltac each_ascii c :=
  destruct c as [[] [] [] [] [] [] [] []]; reflexivity.

Lemma toLowerChar_not_upper (c : ascii) : isUpper (toLowerChar c) = false.
Proof. each_ascii c. Qed.

Lemma slugChar_of_kept (c : ascii) :
  implb (negb (isUpper c) && negb (stripped c) && negb (isSpace c)) (isSlugChar c) = true.
Proof. each_ascii c. Qed.

Lemma slugChar_fixed (c : ascii) :
  implb (isSlugChar c)
    (Ascii.eqb (toLowerChar c) c && negb (isSpace c) && negb (stripped c)) = true.
Proof. each_ascii c. Qed.

Lemma hyphen_is_hyphen (c : ascii) : implb (isHyphen c) (Ascii.eqb c "-") = true.
Proof. each_ascii c. Qed.

Lemma all_impl (q1 q2 : ascii -> bool) (s : string) :
  (forall c, q1 c = true -> q2 c = true) -> all q1 s = true -> all q2 s = true.
Proof.
  intros Hq. induction s as [|c s IH]; [reflexivity|].
  cbn [all]. intros H. apply andb_true_iff in H as [Hc Hs].
  now rewrite (Hq c Hc), IH.
Qed.

Lemma all_and (q1 q2 : ascii -> bool) (s : string) :
  all q1 s = true -> all q2 s = true -> all (fun c => q1 c && q2 c) s = true.
Proof.
  induction s as [|c s IH]; [reflexivity|].
  cbn [all]. intros H1 H2.
  apply andb_true_iff in H1 as [Hc1 Hs1]. apply andb_true_iff in H2 as [Hc2 Hs2].
  now rewrite Hc1, Hc2, IH.
Qed.

Lemma all_toLowerCase (s : string) :
  all (fun c => negb (isUpper c)) (toLowerCase s) = true.
Proof.
  induction s as [|c s IH]; [reflexivity|].
  cbn [toLowerCase all]. now rewrite toLowerChar_not_upper, IH.
Qed.

Lemma all_replaceRunsFrom (q p : ascii -> bool) (by_ s : string) (r : bool) :
  all q by_ = true -> all q s = true -> all q (replaceRunsFrom r p by_ s) = true.
Proof.
  intros Hb. revert r. induction s as [|c s IH]; intros r; [reflexivity|].
  cbn [all replaceRunsFrom]. intros H. apply andb_true_iff in H as [Hc Hs].
  destruct (p c).
  - destruct r; [now apply IH|]. rewrite all_append, Hb. now apply IH.
  - cbn [all]. rewrite Hc. now apply IH.
Qed.

Lemma none_left_runs (p : ascii -> bool) (by_ s : string) (r : bool) :
  all (fun c => negb (p c)) by_ = true ->
  all (fun c => negb (p c)) (replaceRunsFrom r p by_ s) = true.
Proof.
  intros Hb. revert r. induction s as [|c s IH]; intros r; [reflexivity|].
  cbn [replaceRunsFrom]. destruct (p c) eqn:E.
  - destruct r; [apply IH|]. rewrite all_append, Hb. apply IH.
  - cbn [all]. rewrite E. apply IH.
Qed.

Lemma noHyphenRun_runsToHyphen (s : string) :
  noHyphenRun (runsToHyphen isHyphen s) = true /\
  (forall c, first (runsToHyphen isHyphen s) = Some c -> isHyphen c = true ->
             exists c', first s = Some c' /\ isHyphen c' = true).
Proof.
  induction s as [|c s IH]; [split; [reflexivity|discriminate]|].
  destruct IH as [IH1 IH2]. cbn [runsToHyphen].
  destruct (isHyphen c) eqn:Ec.
  - destruct s as [|c' s]; [split; [reflexivity|]|].
    + intros d _ _. exists c. now split.
    + destruct (isHyphen c') eqn:Ec'.
      * split; [exact IH1|]. intros d _ _. exists c. now split.
      * split; [|intros d _ _; exists c; now split].
        cbn [runsToHyphen] in IH1 |- *. rewrite Ec' in IH1 |- *.
        change (negb (isHyphen "-" && isHyphen c')
                && noHyphenRun (String c' (runsToHyphen isHyphen s)) = true).
        rewrite Ec', andb_false_r. exact IH1.
  - split.
    + destruct (runsToHyphen isHyphen s) as [|d r] eqn:E; [reflexivity|].
      change (negb (isHyphen c && isHyphen d) && noHyphenRun (String d r) = true).
      rewrite Ec. exact IH1.
    + cbn [first]. intros d [= <-] Hd. congruence.
Qed.

(** ** What [slugify] leaves alone *)

Lemma toLowerCase_fixed (s : string) :
  all isSlugChar s = true -> toLowerCase s = s.
Proof.
  induction s as [|c s IH]; [reflexivity|].
  cbn [all toLowerCase]. intros H. apply andb_true_iff in H as [Hc Hs].
  pose proof (slugChar_fixed c) as F. rewrite Hc in F. cbn [implb] in F.
  apply andb_true_iff in F as [F _]. apply andb_true_iff in F as [F _].
  apply Ascii.eqb_eq in F. now rewrite F, IH.
Qed.

Lemma dropStart_fixed (p : ascii -> bool) (s : string) :
  all (fun c => negb (p c)) s = true -> dropStart p s = s.
Proof.
  destruct s as [|c s]; [reflexivity|]. cbn [all dropStart]. intros H.
  apply andb_true_iff in H as [Hc _]. apply negb_true_iff in Hc. now rewrite Hc.
Qed.

Lemma dropEnd_fixed (p : ascii -> bool) (s : string) :
  all (fun c => negb (p c)) s = true -> dropEnd p s = s.
Proof.
  induction s as [|c s IH]; [reflexivity|]. cbn [all]. intros H.
  apply andb_true_iff in H as [Hc Hs]. apply negb_true_iff in Hc.
  rewrite dropEnd_cons, (IH Hs), Hc. now destruct s.
Qed.

Lemma replaceEach_fixed (p : ascii -> bool) (by_ s : string) :
  all (fun c => negb (p c)) s = true -> replaceEach p by_ s = s.
Proof.
  induction s as [|c s IH]; [reflexivity|]. cbn [all replaceEach]. intros H.
  apply andb_true_iff in H as [Hc Hs]. apply negb_true_iff in Hc.
  now rewrite Hc, IH.
Qed.

Lemma replaceRuns_fixed (p : ascii -> bool) (by_ s : string) :
  all (fun c => negb (p c)) s = true -> replaceRunsFrom false p by_ s = s.
Proof.
  induction s as [|c s IH]; [reflexivity|]. cbn [all replaceRunsFrom]. intros H.
  apply andb_true_iff in H as [Hc Hs]. apply negb_true_iff in Hc.
  now rewrite Hc, IH.
Qed.

Lemma runsToHyphen_fixed (s : string) :
  noHyphenRun s = true -> runsToHyphen isHyphen s = s.
Proof.
  induction s as [|c s IH]; [reflexivity|]. intros H.
  assert (Hs : noHyphenRun s = true).
  { destruct s as [|c' s]; [reflexivity|].
    change (negb (isHyphen c && isHyphen c') && noHyphenRun (String c' s) = true) in H.
    now apply andb_true_iff in H as [_ H]. }
  cbn [runsToHyphen]. rewrite (IH Hs).
  destruct (isHyphen c) eqn:Ec; [|reflexivity].
  pose proof (hyphen_is_hyphen c) as F. rewrite Ec in F. cbn [implb] in F.
  apply Ascii.eqb_eq in F. subst c.
  destruct s as [|c' s]; [reflexivity|].
  change (negb (true && isHyphen c') && noHyphenRun (String c' s) = true) in H.
  apply andb_true_iff in H as [H _]. cbn [andb] in H. apply negb_true_iff in H.
  now rewrite H.
Qed.

End SlugShapeFacts.

(** X24: a slug consists of the characters [a-z], [0-9], [_] and [-]
    only, never has two hyphens in a row, and is its own slug. *)
Theorem slug_shape (text : string) :
  JsString.all SlugShape.isSlugChar (Slug.slugify text) = true /\
  SlugShape.noHyphenRun (Slug.slugify text) = true /\
  Slug.slugify (Slug.slugify text) = Slug.slugify text.
Proof.
  assert (Hchars : JsString.all SlugShape.isSlugChar (Slug.slugify text) = true).
  { unfold Slug.slugify, JsString.replaceRuns.
    set (s3 := JsString.replaceEach Slug.stripped "" (JsString.trim (JsString.toLowerCase text))).
    assert (H1 : JsString.all (fun c => negb (SlugShape.isUpper c)) s3 = true).
    { unfold s3, JsString.trim, JsString.trimEnd, JsString.trimStart.
      apply all_replaceEach; [reflexivity|].
      apply all_dropEnd, all_dropStart, all_toLowerCase. }
    assert (H2 : JsString.all (fun c => negb (Slug.stripped c)) s3 = true)
      by (apply none_left; reflexivity).
    set (s4 := JsString.replaceRunsFrom false JsString.isSpace "-" s3).
    assert (H3 : JsString.all
                   (fun c => negb (SlugShape.isUpper c) && negb (Slug.stripped c)
                             && negb (JsString.isSpace c)) s4 = true).
    { apply all_and; [apply all_and|].
      - apply all_replaceRunsFrom; [reflexivity|exact H1].
      - apply all_replaceRunsFrom; [reflexivity|exact H2].
      - apply none_left_runs. reflexivity. }
    apply all_replaceRunsFrom; [reflexivity|].
    apply all_impl with (2 := H3). intros c Hc.
    pose proof (slugChar_of_kept c) as F. now rewrite Hc in F. }
  assert (Hrun : SlugShape.noHyphenRun (Slug.slugify text) = true).
  { unfold Slug.slugify, JsString.replaceRuns. rewrite replaceRunsFrom_false.
    apply noHyphenRun_runsToHyphen. }
  split; [exact Hchars|]. split; [exact Hrun|].
  revert Hchars Hrun. generalize (Slug.slugify text). intros s Hchars Hrun.
  assert (Hsp : JsString.all (fun c => negb (JsString.isSpace c)) s = true).
  { apply all_impl with (2 := Hchars). intros c Hc.
    pose proof (slugChar_fixed c) as F. rewrite Hc in F. cbn [implb] in F.
    apply andb_true_iff in F as [F _]. now apply andb_true_iff in F as [_ F]. }
  assert (Hst : JsString.all (fun c => negb (Slug.stripped c)) s = true).
  { apply all_impl with (2 := Hchars). intros c Hc.
    pose proof (slugChar_fixed c) as F. rewrite Hc in F. cbn [implb] in F.
    now apply andb_true_iff in F as [_ F]. }
  unfold Slug.slugify, JsString.replaceRuns, JsString.trim, JsString.trimEnd,
    JsString.trimStart.
  rewrite (toLowerCase_fixed s Hchars), (dropStart_fixed _ s Hsp),
    (dropEnd_fixed _ s Hsp), (replaceEach_fixed _ _ s Hst),
    (replaceRuns_fixed _ _ s Hsp), replaceRunsFrom_false.
  now apply runsToHyphen_fixed.
Qed.
